(** * rxjs-httpclient: the parameter container, the request value, the
      interceptor chain assembler and the body projection, embedded in Rocq.

    The embedding follows the TypeScript sources function by function.
    JavaScript objects that are mutated in place and shared by reference
    (the [HttpParams] instances, their [Map]s and the value arrays the maps
    point to) live in an explicit store; every method is a computation in a
    small state-and-exception monad over that store. *)

From Stdlib Require Import ZArith String Ascii List Bool Lia DecimalString.
From stdpp Require Import base option list strings.

Local Open Scope string_scope.
Local Open Scope list_scope.
Local Open Scope stdpp_scope.

(** ** JavaScript values and string primitives *)

Module JS.

(** Strings are sequences of bytes: a JavaScript string is represented by
    its UTF-8 encoding.  Every delimiter the sources look for ([?], [&],
    [=], [%]) is ASCII, so [indexOf], [slice], [split] and the comparisons
    of an index with [length - 1] agree with their UTF-16 originals. *)

(** The numbers of the embedding are the safe integers, those of magnitude
    at most [Number.MAX_SAFE_INTEGER] = 2^53 - 1: a JavaScript number holds
    each of them exactly and [ToString] prints each of them as its decimal
    digits.  (From 10^21 on [ToString] writes an exponent, and fractions,
    [NaN], the infinities and the negative zero have forms of their own;
    none of them is a [jsint].) *)
Definition MAX_SAFE_INTEGER : Z := 9007199254740991.

Definition isSafeInteger (n : Z) : bool := (Z.abs n <=? MAX_SAFE_INTEGER)%Z.

Record jsint : Type := {
  int_val : Z;
  int_safe : Is_true (isSafeInteger int_val)
}.

(** The number written by an integer literal: the literal has to be in
    the safe range. *)
Abbreviation int n := {| int_val := n%Z; int_safe := I |}.

(** The primitives a parameter value may be ([string | number | boolean]). *)
Inductive jsprim : Type :=
  | PStr (s : string)
  | PNum (n : jsint)
  | PBool (b : bool).

(** Strict equality [===] on primitives. *)
Definition strict_eqb (a b : jsprim) : bool :=
  match a, b with
  | PStr s, PStr t => String.eqb s t
  | PNum n, PNum m => Z.eqb (int_val n) (int_val m)
  | PBool x, PBool y => Bool.eqb x y
  | _, _ => false
  end.

(** [ToString] on primitives, as a template literal applies it. *)
Definition ToString (v : jsprim) : string :=
  match v with
  | PStr s => s
  | PNum n => NilZero.string_of_int (Z.to_int (int_val n))
  | PBool true => "true"
  | PBool false => "false"
  end.

(** What a synchronous [throw] carries. *)
Inductive jserror : Type :=
  | Error (msg : string)
  | URIError
  | TypeError
  | RangeError.

Inductive result (A : Type) : Type :=
  | Ok (a : A)
  | Throw (e : jserror).
Arguments Ok {A} a.
Arguments Throw {A} e.

(** [s.indexOf(c)] for a one-character needle. *)
Fixpoint indexOf (c : ascii) (s : string) : option nat :=
  match s with
  | EmptyString => None
  | String a s' => if Ascii.eqb a c then Some 0 else S <$> indexOf c s'
  end.

(** [s.slice(0, n)] and [s.slice(n)] for [0 <= n]. *)
Fixpoint slice_to (n : nat) (s : string) : string :=
  match n, s with
  | S n', String a s' => String a (slice_to n' s')
  | _, _ => EmptyString
  end.

Fixpoint slice_from (n : nat) (s : string) : string :=
  match n, s with
  | S n', String _ s' => slice_from n' s'
  | _, _ => s
  end.

(** [s.split(c)] for a one-character separator: never the empty list. *)
Fixpoint split (c : ascii) (s : string) : list string :=
  match s with
  | EmptyString => [EmptyString]
  | String a s' =>
      if Ascii.eqb a c then EmptyString :: split c s'
      else match split c s' with
           | [] => [String a EmptyString]
           | w :: ws => String a w :: ws
           end
  end.

(** [l.join(sep)]. *)
Fixpoint join (sep : string) (l : list string) : string :=
  match l with
  | [] => EmptyString
  | [x] => x
  | x :: l' => x +:+ sep +:+ join sep l'
  end.

(** [s.replace(/^\?/, "")]. *)
Definition strip_leading_question (s : string) : string :=
  match s with
  | String "?" s' => s'
  | _ => s
  end.

End JS.
Export JS.

(** ** The parameter codec ([HttpParameterCodec], [HttpUrlEncodingCodec]) *)

Module Codec.

(** The interface [HttpParameterCodec].  Decoding may throw. *)
Record HttpParameterCodec : Type := {
  encodeKey : string -> string;
  encodeValue : string -> string;
  decodeKey : string -> result string;
  decodeValue : string -> result string
}.

Definition code (c : ascii) : N := N_of_ascii c.

Definition in_range (lo hi : N) (c : ascii) : bool :=
  ((lo <=? code c) && (code c <=? hi))%N.

Definition is_decimal (c : ascii) : bool := in_range 48 57 c.

Definition is_hex (c : ascii) : bool :=
  is_decimal c || in_range 65 70 c || in_range 97 102 c.

Definition hex_value (c : ascii) : option N :=
  if is_decimal c then Some (code c - 48)%N
  else if in_range 65 70 c then Some (code c - 55)%N
  else if in_range 97 102 c then Some (code c - 87)%N
  else None.

(** Upper-case hexadecimal digit, as [encodeURIComponent] writes it. *)
Definition hex_digit (n : N) : ascii :=
  if (n <? 10)%N then ascii_of_N (48 + n) else ascii_of_N (55 + n).

(** The characters [encodeURIComponent] leaves alone: letters, digits and
    the marks [- _ . ! ~ * ' ( )]. *)
Definition uriUnescaped (c : ascii) : bool :=
  in_range 65 90 c || in_range 97 122 c || is_decimal c ||
  existsb (Ascii.eqb c) ["-"; "_"; "."; "!"; "~"; "*"; "'"; "("; ")"]%char.

Definition percent (c : ascii) : string :=
  String "%" (String (hex_digit (code c / 16)) (String (hex_digit (code c mod 16)) EmptyString)).

(** The built-in [encodeURIComponent]: every octet of the UTF-8 form is
    kept when unescaped and written [%XX] otherwise. *)
Fixpoint encodeURIComponent (s : string) : string :=
  match s with
  | EmptyString => EmptyString
  | String c s' =>
      (if uriUnescaped c then String c EmptyString else percent c) +:+ encodeURIComponent s'
  end.

(** The table [STANDARD_ENCODING_REPLACEMENTS]; the lookup is by the exact
    (upper-case) key. *)
Definition STANDARD_ENCODING_REPLACEMENTS : list (string * string) :=
  [("40", "@"); ("3A", ":"); ("24", "$"); ("2C", ","); ("3B", ";");
   ("2B", "+"); ("3D", "="); ("3F", "?"); ("2F", "/")].

Fixpoint table_lookup (t : string) (tbl : list (string * string)) : option string :=
  match tbl with
  | [] => None
  | (k, v) :: tbl' => if String.eqb k t then Some v else table_lookup t tbl'
  end.

(** [v.replace(STANDARD_ENCODING_REGEX, (s, t) => TABLE[t] ?? s)] with the
    regular expression [/%(\d[a-f0-9])/gi]: a global, left-to-right,
    non-overlapping replacement. *)
Fixpoint replace_standard (s : string) : string :=
  match s with
  | EmptyString => EmptyString
  | String c s1 =>
      match s1 with
      | String d (String h rest) =>
          if Ascii.eqb c "%" && is_decimal d && is_hex h then
            let t := String d (String h EmptyString) in
            match table_lookup t STANDARD_ENCODING_REPLACEMENTS with
            | Some r => r +:+ replace_standard rest
            | None => String c t +:+ replace_standard rest
            end
          else String c (replace_standard s1)
      | _ => String c (replace_standard s1)
      end
  end.

Definition standardEncoding (v : string) : string :=
  replace_standard (encodeURIComponent v).

(** Tokens of a percent-encoded string: a literal octet or an escape. *)
Inductive token : Type :=
  | Raw (c : ascii)
  | Esc (b : ascii).

(** First pass of the built-in [Decode]: every [%] must start [%XX]. *)
Fixpoint tokenize (s : string) : result (list token) :=
  match s with
  | EmptyString => Ok []
  | String c s1 =>
      if Ascii.eqb c "%" then
        match s1 with
        | String h1 (String h2 rest) =>
            match hex_value h1, hex_value h2 with
            | Some a, Some b =>
                match tokenize rest with
                | Ok ts => Ok (Esc (ascii_of_N (16 * a + b)) :: ts)
                | Throw e => Throw e
                end
            | _, _ => Throw URIError
            end
        | _ => Throw URIError
        end
      else
        match tokenize s1 with
        | Ok ts => Ok (Raw c :: ts)
        | Throw e => Throw e
        end
  end.

Definition is_cont (c : ascii) : bool := in_range 128 191 c.

(** An escaped octet sequence is a valid UTF-8 encoding of one code point
    above U+007F (no overlong form, no surrogate, at most U+10FFFF). *)
Definition valid_utf8_seq (l : list ascii) : bool :=
  match l with
  | [b1; b2] => in_range 194 223 b1 && is_cont b2
  | [b1; b2; b3] =>
      (Ascii.eqb b1 (ascii_of_N 224) && in_range 160 191 b2 && is_cont b3)
      || (in_range 225 236 b1 && is_cont b2 && is_cont b3)
      || (Ascii.eqb b1 (ascii_of_N 237) && in_range 128 159 b2 && is_cont b3)
      || (in_range 238 239 b1 && is_cont b2 && is_cont b3)
  | [b1; b2; b3; b4] =>
      (Ascii.eqb b1 (ascii_of_N 240) && in_range 144 191 b2 && is_cont b3 && is_cont b4)
      || (in_range 241 243 b1 && is_cont b2 && is_cont b3 && is_cont b4)
      || (Ascii.eqb b1 (ascii_of_N 244) && in_range 128 143 b2 && is_cont b3 && is_cont b4)
  | _ => false
  end.

(** Number of leading one bits of an octet, as [Decode] computes [n]. *)
Definition leading_ones (b : ascii) : nat :=
  if (code b <? 128)%N then 0
  else if (code b <? 192)%N then 1
  else if (code b <? 224)%N then 2
  else if (code b <? 240)%N then 3
  else if (code b <? 248)%N then 4
  else 5.

Definition of_octets (l : list ascii) (k : result string) : result string :=
  if valid_utf8_seq l then
    match k with
    | Ok s => Ok (fold_right String s l)
    | Throw e => Throw e
    end
  else Throw URIError.

(** Second pass of [Decode]: an escaped octet below 0x80 is that character;
    one with [n] leading ones ([n] = 2, 3, 4) must be followed by [n - 1]
    further escapes that complete a valid UTF-8 sequence. *)
Fixpoint assemble (ts : list token) : result string :=
  match ts with
  | [] => Ok EmptyString
  | Raw c :: ts1 =>
      match assemble ts1 with Ok s => Ok (String c s) | Throw e => Throw e end
  | Esc b1 :: ts1 =>
      match leading_ones b1 with
      | 0 => match assemble ts1 with Ok s => Ok (String b1 s) | Throw e => Throw e end
      | 2 =>
          match ts1 with
          | Esc b2 :: ts2 => of_octets [b1; b2] (assemble ts2)
          | _ => Throw URIError
          end
      | 3 =>
          match ts1 with
          | Esc b2 :: Esc b3 :: ts3 => of_octets [b1; b2; b3] (assemble ts3)
          | _ => Throw URIError
          end
      | 4 =>
          match ts1 with
          | Esc b2 :: Esc b3 :: Esc b4 :: ts4 => of_octets [b1; b2; b3; b4] (assemble ts4)
          | _ => Throw URIError
          end
      | _ => Throw URIError
      end
  end.

(** The built-in [decodeURIComponent]. *)
Definition decodeURIComponent (s : string) : result string :=
  match tokenize s with
  | Ok ts => assemble ts
  | Throw e => Throw e
  end.

Definition HttpUrlEncodingCodec : HttpParameterCodec := {|
  encodeKey := standardEncoding;
  encodeValue := standardEncoding;
  decodeKey := decodeURIComponent;
  decodeValue := decodeURIComponent
|}.

End Codec.
Export Codec.

(** ** The store and the monad of the parameter container *)

Module Store.

(** References are addresses in the store. *)
Abbreviation loc := nat.

(** A JavaScript [Map<string, V>]: the entries in insertion order. *)
Section JsMap.

Context {V : Type}.

Fixpoint map_get (k : string) (m : list (string * V)) : option V :=
  match m with
  | [] => None
  | (k', a) :: m' => if String.eqb k' k then Some a else map_get k m'
  end.

(** [Map.prototype.set]: an existing key keeps its place. *)
Fixpoint map_set (k : string) (a : V) (m : list (string * V)) : list (string * V) :=
  match m with
  | [] => [(k, a)]
  | (k', a') :: m' =>
      if String.eqb k' k then (k, a) :: m' else (k', a') :: map_set k a m'
  end.

Fixpoint map_delete (k : string) (m : list (string * V)) : list (string * V) :=
  match m with
  | [] => []
  | (k', a') :: m' =>
      if String.eqb k' k then m' else (k', a') :: map_delete k m'
  end.

Definition map_keys (m : list (string * V)) : list string := m.*1.

End JsMap.

(** The [Map<string, string[]>] of a container: every value is a
    reference to an array of the store. *)
Abbreviation jsmap := (list (string * nat)).

(** The interface [Update]. *)
Inductive UpdateOp : Type := OpA | OpD | OpS.

Record Update : Type := {
  param : string;
  value : option jsprim;
  op : UpdateOp
}.

(** The fields of an [HttpParams] instance. *)
Record HttpParams : Type := {
  map : option jsmap;
  encoder : HttpParameterCodec;
  updates : option (list Update);
  cloneFrom : option loc
}.

(** The store: the [HttpParams] instances and the arrays allocated so far. *)
Record heap : Type := {
  objs : list HttpParams;
  arrs : list (list jsprim)
}.

Definition empty_heap : heap := {| objs := []; arrs := [] |}.

(** Computations that read and write the store and may throw. *)
Definition M (A : Type) : Type := heap -> result (A * heap).

Definition ret {A} (a : A) : M A := fun h => Ok (a, h).

Definition bind {A B} (m : M A) (f : A -> M B) : M B :=
  fun h => match m h with
           | Ok (a, h') => f a h'
           | Throw e => Throw e
           end.

Definition throw {A} (e : jserror) : M A := fun _ => Throw e.

Definition lift {A} (r : result A) : M A :=
  fun h => match r with Ok a => Ok (a, h) | Throw e => Throw e end.

#[global] Instance M_ret : MRet M := @ret.
#[global] Instance M_bind : MBind M := fun A B f m => bind m f.

(** The value a computation returns, the final store dropped. *)
Definition run {A} (m : M A) (h : heap) : result A :=
  match m h with
  | Ok (a, _) => Ok a
  | Throw e => Throw e
  end.

(** Dereferencing [null], [undefined] or a dangling reference. *)
Definition unwrap {A} (o : option A) : M A :=
  match o with Some a => ret a | None => throw TypeError end.

Definition getObj (p : loc) : M HttpParams := fun h => unwrap (objs h !! p) h.

Definition setObj (p : loc) (o : HttpParams) : M unit :=
  fun h => Ok (tt, {| objs := <[p := o]> (objs h); arrs := arrs h |}).

Definition allocObj (o : HttpParams) : M loc :=
  fun h => Ok (length (objs h), {| objs := objs h ++ [o]; arrs := arrs h |}).

Definition getArr (a : loc) : M (list jsprim) := fun h => unwrap (arrs h !! a) h.

Definition setArr (a : loc) (l : list jsprim) : M unit :=
  fun h => Ok (tt, {| objs := objs h; arrs := <[a := l]> (arrs h) |}).

(** An array literal: a fresh array. *)
Definition allocArr (l : list jsprim) : M loc :=
  fun h => Ok (length (arrs h), {| objs := objs h; arrs := arrs h ++ [l] |}).

(** [a.push(v)]: in place. *)
Definition push (a : loc) (v : jsprim) : M unit :=
  l ← getArr a; setArr a (l ++ [v]).

(** [Array.prototype.indexOf] on a list, by strict equality. *)
Fixpoint list_indexOf (v : jsprim) (l : list jsprim) : option nat :=
  match l with
  | [] => None
  | x :: l' => if strict_eqb x v then Some 0 else S <$> list_indexOf v l'
  end.

(** [a.splice(i, 1)] for an index in range: in place. *)
Definition splice1 (a : loc) (i : nat) : M unit :=
  l ← getArr a; setArr a (delete i l).

Fixpoint forEach {A} (f : A -> M unit) (l : list A) : M unit :=
  match l with
  | [] => ret tt
  | x :: l' => f x ;; forEach f l'
  end.

(** A loop over [l] threading a local variable. *)
Fixpoint foldM {A S} (f : S -> A -> M S) (s : S) (l : list A) : M S :=
  match l with
  | [] => ret s
  | x :: l' => s' ← f s x; foldM f s' l'
  end.

(** The store after a write, and a small program logic: [wp c h Q] says
    that [c] run on [h] returns without throwing, with a result and a
    final store that satisfy [Q]. *)
Definition upd_obj (p : loc) (o : HttpParams) (h : heap) : heap :=
  {| objs := <[p := o]> (objs h); arrs := arrs h |}.

Definition upd_arr (a : loc) (l : list jsprim) (h : heap) : heap :=
  {| objs := objs h; arrs := <[a := l]> (arrs h) |}.

Definition new_arr (l : list jsprim) (h : heap) : heap :=
  {| objs := objs h; arrs := arrs h ++ [l] |}.

Definition new_obj (o : HttpParams) (h : heap) : heap :=
  {| objs := objs h ++ [o]; arrs := arrs h |}.

Definition wp {A} (c : M A) (h : heap) (Q : A -> heap -> Prop) : Prop :=
  exists a h', c h = Ok (a, h') /\ Q a h'.

End Store.
Export Store.

(** ** The parameter container ([HttpParams.ts]) *)

Module Params.

(** [this.map!]: reading a [null] map is a [TypeError]. *)
Definition this_map (this : loc) : M jsmap :=
  o ← getObj this; unwrap (map o).

Definition set_this_map (this : loc) (m : jsmap) : M unit :=
  o ← getObj this;
  setObj this {| map := Some m; encoder := encoder o;
                 updates := updates o; cloneFrom := cloneFrom o |}.

(** [valueToString]: the template literal; [undefined] prints as such. *)
Definition valueToString (value : option jsprim) : string :=
  match value with
  | Some v => ToString v
  | None => "undefined"
  end.

(** The key and the value of one [&]-separated piece. *)
Definition decode_pair (codec : HttpParameterCodec) (param : string)
  : result (string * string) :=
  match indexOf "=" param with
  | None =>
      match decodeKey codec param with
      | Ok key => Ok (key, EmptyString)
      | Throw e => Throw e
      end
  | Some eqIdx =>
      match decodeKey codec (slice_to eqIdx param) with
      | Ok key =>
          match decodeValue codec (slice_from (S eqIdx) param) with
          | Ok val => Ok (key, val)
          | Throw e => Throw e
          end
      | Throw e => Throw e
      end
  end.

(** [paramParser]. *)
Definition paramParser (rawParams : string) (codec : HttpParameterCodec) : M jsmap :=
  if (0 <? String.length rawParams)%nat then
    let params := split "&" (strip_leading_question rawParams) in
    foldM (fun (m : jsmap) (param : string) =>
      '(key, val) ← lift (decode_pair codec param);
      list ← match map_get key m with
              | Some a => ret a
              | None => allocArr []
              end;
      push list (PStr val);;
      ret (map_set key list m)) [] params
  else ret [].

(** A value of the [fromObject] map: a scalar, or an array.  An array is
    a reference: the caller's own array, by its address in the store. *)
Inductive objval : Type :=
  | VScalar (v : jsprim)
  | VArray (a : loc).

(** [HttpParamsOptions]; [fromObject] lists the object's own keys in
    [Object.keys] order. *)
Record HttpParamsOptions : Type := {
  fromString : option string;
  fromObject : option (list (string * objval));
  options_encoder : option HttpParameterCodec
}.

(** [HttpClientDefaults.encoder] (the default it starts with). *)
Definition HttpClientDefaults_encoder : HttpParameterCodec := HttpUrlEncodingCodec.

(** [!!options.fromString]: the empty string is falsy. *)
Definition truthy_string (o : option string) : bool :=
  match o with
  | Some s => negb (String.eqb s EmptyString)
  | None => false
  end.

(** The constructor.  [Array.isArray(value) ? value : [value]]: an array
    given in [fromObject] goes into the map as it is, by reference, and a
    scalar in a fresh one-element array. *)
Definition new_HttpParams (options : HttpParamsOptions) : M loc :=
  let enc := default HttpClientDefaults_encoder (options_encoder options) in
  if truthy_string (fromString options) then
    match fromObject options with
    | Some _ => throw (Error "Cannot specify both fromString and fromObject.")
    | None =>
        m ← paramParser (default EmptyString (fromString options)) enc;
        allocObj {| map := Some m; encoder := enc; updates := None; cloneFrom := None |}
    end
  else
    match fromObject options with
    | Some fo =>
        m ← foldM (fun (m : jsmap) '(key, value) =>
                     a ← match value with
                          | VScalar v => allocArr [v]
                          | VArray a => ret a
                          end;
                     ret (map_set key a m)) [] fo;
        allocObj {| map := Some m; encoder := enc; updates := None; cloneFrom := None |}
    | None =>
        allocObj {| map := None; encoder := enc; updates := None; cloneFrom := None |}
    end.

(** One turn of the replay loop of [init]. *)
Definition applyUpdate (this : loc) (update : Update) : M unit :=
  match op update with
  | OpA | OpS =>
      m ← this_map this;
      base ← match (match op update with OpA => map_get (param update) m | _ => None end) with
              | Some a => ret a
              | None => allocArr []
              end;
      push base (PStr (valueToString (value update)));;
      m' ← this_map this;
      set_this_map this (map_set (param update) base m')
  | OpD =>
      match value update with
      | Some v =>
          m ← this_map this;
          base ← match map_get (param update) m with
                  | Some a => ret a
                  | None => allocArr []
                  end;
          l ← getArr base;
          match list_indexOf (PStr (valueToString (Some v))) l with
          | Some idx => splice1 base idx
          | None => ret tt
          end;;
          l' ← getArr base;
          m' ← this_map this;
          if (0 <? length l')%nat then set_this_map this (map_set (param update) base m')
          else set_this_map this (map_delete (param update) m')
      | None =>
          m ← this_map this;
          set_this_map this (map_delete (param update) m)
      end
  end.

(** [init], with the depth of the JavaScript call stack as fuel.  The call
    [this.cloneFrom.keys()] runs [init] on the source a second time. *)
Fixpoint init_fuel (fuel : nat) (this : loc) : M unit :=
  match fuel with
  | 0 => throw RangeError
  | S fuel' =>
      o ← getObj this;
      match map o with
      | None => set_this_map this []
      | Some _ => ret tt
      end;;
      match cloneFrom o with
      | None => ret tt
      | Some src =>
          init_fuel fuel' src;;
          init_fuel fuel' src;;
          sm ← this_map src;
          forEach (fun key =>
                     sm' ← this_map src;
                     a ← unwrap (map_get key sm');
                     m ← this_map this;
                     set_this_map this (map_set key a m)) (map_keys sm);;
          o1 ← getObj this;
          us ← unwrap (updates o1);
          forEach (applyUpdate this) us;;
          o2 ← getObj this;
          setObj this {| map := map o2; encoder := encoder o2;
                         updates := None; cloneFrom := None |}
      end
  end.

(** A chain of [cloneFrom] references without a cycle is no longer than
    the store has instances, so this much stack always suffices. *)
Definition init (this : loc) : M unit :=
  fun h => init_fuel (S (length (objs h))) this h.

Definition has (this : loc) (param : string) : M bool :=
  init this;;
  m ← this_map this;
  ret (match map_get param m with Some _ => true | None => false end).

(** What [get] returns: [null], [undefined] (first element of an empty
    array) or a value. *)
Inductive getres : Type :=
  | GNull
  | GUndefined
  | GValue (v : jsprim).

Definition get (this : loc) (param : string) : M getres :=
  init this;;
  m ← this_map this;
  match map_get param m with
  | Some a =>
      l ← getArr a;
      ret (match l with [] => GUndefined | v :: _ => GValue v end)
  | None => ret GNull
  end.

(** [getAll]: the array's current content, or [None] for [null]. *)
Definition getAll (this : loc) (param : string) : M (option (list jsprim)) :=
  init this;;
  m ← this_map this;
  match map_get param m with
  | Some a => l ← getArr a; ret (Some l)
  | None => ret None
  end.

Definition keys (this : loc) : M (list string) :=
  init this;;
  m ← this_map this;
  ret (map_keys m).

(** [clone(update?)]: [None] is a call without an argument, a single
    update is the one-element list. *)
Definition clone (this : loc) (update : option (list Update)) : M loc :=
  o ← getObj this;
  c ← new_HttpParams {| fromString := None; fromObject := None;
                         options_encoder := Some (encoder o) |};
  oc ← getObj c;
  setObj c {| map := map oc; encoder := encoder oc;
              updates := Some (match update with
                               | None => default [] (updates o)
                               | Some us => default [] (updates o) ++ us
                               end);
              cloneFrom := Some (default this (cloneFrom o)) |};;
  ret c.

Definition append (this : loc) (param : string) (value : jsprim) : M loc :=
  clone this (Some [{| param := param; value := Some value; op := OpA |}]).

Definition set (this : loc) (param : string) (value : jsprim) : M loc :=
  clone this (Some [{| param := param; value := Some value; op := OpS |}]).

Definition delete (this : loc) (param : string) (value : option jsprim) : M loc :=
  clone this (Some [{| param := param; value := value; op := OpD |}]).

(** [appendAll(params)]: one update per value, the keys in [Object.keys]
    order and the values of an array, read at the call, in their order;
    the list goes to [clone] in one piece. *)
Definition appendAll (this : loc) (params : list (string * objval)) : M loc :=
  updates ← foldM (fun (updates : list Update) '(param, value) =>
                     match value with
                     | VArray a =>
                         l ← getArr a;
                         ret (updates ++ ((fun _value => {| param := param;
                                                            value := Some _value;
                                                            op := OpA |}) <$> l))
                     | VScalar v =>
                         ret (updates ++ [{| param := param; value := Some v; op := OpA |}])
                     end) [] params;
  clone this (Some updates).

Fixpoint mapM {A B} (f : A -> M B) (l : list A) : M (list B) :=
  match l with
  | [] => ret []
  | x :: l' => y ← f x; ys ← mapM f l'; ret (y :: ys)
  end.

(** [toString]; a value that is not a string is coerced by the codec's
    [encodeURIComponent]. *)
Definition toString (this : loc) : M string :=
  init this;;
  ks ← keys this;
  o ← getObj this;
  parts ← mapM (fun key =>
                  let eKey := encodeKey (encoder o) key in
                  m ← this_map this;
                  a ← unwrap (map_get key m);
                  l ← getArr a;
                  ret (join "&" ((fun value => eKey +:+ "=" +:+ encodeValue (encoder o) (ToString value)) <$> l))) ks;
  ret (join "&" (filter (fun param => param ≠ EmptyString) parts)).

End Params.

(** ** The mapping a reader sees, and the invariant of the store *)

Module Mapping.

(** The logical state: parameter names in key order, each with its
    values in order. *)
Abbreviation amap := (list (string * list jsprim)).

(** The entries of a [Map] with the arrays read from the store. *)
Definition view (h : heap) (m : jsmap) : amap :=
  (fun e => (e.1, default [] (arrs h !! e.2))) <$> m.

(** [base.splice(base.indexOf(v), 1)] when [v] is found. *)
Definition remove_first (v : jsprim) (l : list jsprim) : list jsprim :=
  match list_indexOf v l with
  | Some idx => base.delete idx l
  | None => l
  end.

(** The effect of one replayed update on the mapping of the container
    that replays it (the [switch] of [init], read on values). *)
Definition step (update : Update) (am : amap) : amap :=
  match op update with
  | OpA =>
      map_set (param update)
        (default [] (map_get (param update) am) ++ [PStr (Params.valueToString (value update))]) am
  | OpS => map_set (param update) [PStr (Params.valueToString (value update))] am
  | OpD =>
      match value update with
      | Some v =>
          let base := remove_first (PStr (ToString v)) (default [] (map_get (param update) am)) in
          if (0 <? length base)%nat then map_set (param update) base am
          else map_delete (param update) am
      | None => map_delete (param update) am
      end
  end.

Definition replay (us : list Update) (am : amap) : amap :=
  fold_left (fun am u => step u am) us am.

(** What the read operations show of a container: [keys()], and
    [getAll] of each key. *)
Definition snapshot (this : loc) : M amap :=
  ks ← Params.keys this;
  Params.mapM (fun k => vs ← Params.getAll this k; ret (k, default [] vs)) ks.

(** [toString] on a mapping. *)
Definition serialize (codec : HttpParameterCodec) (am : amap) : string :=
  join "&"
    (filter (fun param => param ≠ EmptyString)
       ((fun e => join "&" ((fun value => encodeKey codec e.1 +:+ "=" +:+
                                          encodeValue codec (ToString value)) <$> e.2))
          <$> am)).

(** [list.push(val)] on the values of [key], created when absent: what one
    piece of a raw query string adds to the mapping. *)
Definition add_value (key : string) (val : jsprim) (am : amap) : amap :=
  map_set key (default [] (map_get key am) ++ [val]) am.

(** The mapping [paramParser] builds, piece by piece. *)
Fixpoint parse_pieces (codec : HttpParameterCodec) (pieces : list string) (am : amap)
  : result amap :=
  match pieces with
  | [] => Ok am
  | piece :: rest =>
      match Params.decode_pair codec piece with
      | Ok (key, val) => parse_pieces codec rest (add_value key (PStr val) am)
      | Throw e => Throw e
      end
  end.

Definition parse (codec : HttpParameterCodec) (rawParams : string) : result amap :=
  if (0 <? String.length rawParams)%nat then
    parse_pieces codec (split "&" (strip_leading_question rawParams)) []
  else Ok [].

(** The values a [fromObject] value stands for in a store. *)
Definition object_values (h : heap) (value : Params.objval) : list jsprim :=
  match value with
  | Params.VScalar v => [v]
  | Params.VArray a => default [] (arrs h !! a)
  end.

(** The mapping the constructor builds from a [fromObject] map. *)
Definition of_object (h : heap) (fo : list (string * Params.objval)) : amap :=
  fold_left (fun am e => map_set e.1 (object_values h e.2) am) fo [].

(** The arrays a [fromObject] map refers to, in key order. *)
Definition arrays_of (fo : list (string * Params.objval)) : list loc :=
  omap (fun e : string * Params.objval =>
          match e.2 with
          | Params.VArray a => Some a
          | Params.VScalar _ => None
          end) fo.

(** The arrays of a [fromObject] map exist in the store. *)
Definition allocated (h : heap) (fo : list (string * Params.objval)) : Prop :=
  Forall (fun a => a < length (arrs h)) (arrays_of fo).

(** A [fromObject] map whose arrays exist and are all different: no
    array is the value of two keys. *)
Definition object_ok (h : heap) (fo : list (string * Params.objval)) : Prop :=
  NoDup (arrays_of fo) /\ allocated h fo.

(** What the constructor builds, or throws. *)
Definition constructed (h : heap) (options : Params.HttpParamsOptions) : result amap :=
  let enc := default Params.HttpClientDefaults_encoder (Params.options_encoder options) in
  if Params.truthy_string (Params.fromString options) then
    match Params.fromObject options with
    | Some _ => Throw (Error "Cannot specify both fromString and fromObject.")
    | None => parse enc (default EmptyString (Params.fromString options))
    end
  else
    match Params.fromObject options with
    | Some fo => Ok (of_object h fo)
    | None => Ok []
    end.

(** The invariant of a [Map]: distinct keys, distinct arrays, all of them
    allocated. *)
Definition map_ok (h : heap) (m : jsmap) : Prop :=
  NoDup m.*1 /\ NoDup m.*2 /\ Forall (fun a => a < length (arrs h)) m.*2.

(** The invariant of an instance: one that is not pending has a sound map
    (or none yet) and no update log; a pending one has no map, an update
    log, and a source that is itself not pending. *)
Definition obj_ok (h : heap) (o : HttpParams) : Prop :=
  match map o with
  | Some m => map_ok h m
  | None => True
  end
  /\ match cloneFrom o with
     | Some src =>
         map o = None /\ is_Some (updates o)
         /\ match objs h !! src with
            | Some os => cloneFrom os = None
            | None => False
            end
     | None => updates o = None
     end.

(** The mapping an instance stands for in a store: its own view when it
    is not pending, the replay of its log over the view of its source
    when it is. *)
Definition logical (h : heap) (o : HttpParams) : amap :=
  match cloneFrom o with
  | None => view h (default [] (map o))
  | Some src =>
      replay (default [] (updates o)) (view h (default [] (objs h !! src ≫= map)))
  end.

(** The invariant of the store; every store the constructor and the
    methods build satisfies it. *)
Definition wf (h : heap) : Prop := Forall (obj_ok h) (objs h).

#[global] Instance map_ok_dec h m : Decision (map_ok h m).
Proof. unfold map_ok. apply _. Defined.

#[global] Instance obj_ok_dec h o : Decision (obj_ok h o).
Proof.
  unfold obj_ok. destruct (map o), (cloneFrom o) as [src|]; try apply _.
  - destruct (objs h !! src); apply _.
  - destruct (objs h !! src); apply _.
Defined.

#[global] Instance wf_dec h : Decision (wf h).
Proof. unfold wf. apply _. Defined.

#[global] Instance allocated_dec h fo : Decision (allocated h fo).
Proof. unfold allocated. apply _. Defined.

#[global] Instance object_ok_dec h fo : Decision (object_ok h fo).
Proof. unfold object_ok. apply _. Defined.

End Mapping.
Export Mapping.

(** ** The request value ([HttpRequest.ts]) *)

Module Request.

(** The enum [HttpMethod], by its string values. *)
Inductive HttpMethod : Type := GET | POST | PUT | DELETE | JSONP.

Definition method_name (m : HttpMethod) : string :=
  match m with
  | GET => "GET"
  | POST => "POST"
  | PUT => "PUT"
  | DELETE => "DELETE"
  | JSONP => "JSONP"
  end.

Inductive ResponseType : Type := arraybuffer | blob | json | text.

(** The payloads a request or a response may carry, by the run-time tests
    the sources apply to them ([instanceof], [typeof], [=== null]).  The
    objects of no class the sources test for come in two kinds, by what
    [JSON.stringify] does with them: [BObject] is a plain object or array
    it writes, [BCircular] one it rejects with a [TypeError] (a structure
    that contains itself). *)
Inductive jsbody : Type :=
  | BNull
  | BUndefined
  | BArrayBuffer (octets : list ascii)
  | BBlob (type : string)
  | BFormData
  | BURLSearchParams
  | BString (s : string)
  | BParams (p : loc)
  | BNumber (n : jsint)
  | BBoolean (b : bool)
  | BObject
  | BCircular.

(** [mightHaveBody]. *)
Definition mightHaveBody (method : string) : bool :=
  if String.eqb method "DELETE" then false
  else if String.eqb method "GET" then false
  else if String.eqb method "HEAD" then false
  else if String.eqb method "OPTIONS" then false
  else if String.eqb method "JSONP" then false
  else true.

(** [HttpRequestInit]; the header container and the context bag are
    classes outside the sources and are left out. *)
Record HttpRequestInit : Type := {
  init_method : HttpMethod;
  init_url : option string;
  init_body : jsbody;
  init_params : option loc;
  init_reportProgress : option bool;
  init_responseType : option ResponseType;
  init_withCredentials : option bool
}.

(** The fields [url] and [urlWithParams] hold a string or [undefined]
    ([None]). *)
Record HttpRequest : Type := {
  body : jsbody;
  params : loc;
  reportProgress : bool;
  withCredentials : bool;
  method : HttpMethod;
  url : option string;
  urlWithParams : option string;
  responseType : ResponseType
}.

(** The character, if any, with which the URL and the parameters join. *)
Definition separator (url : string) : string :=
  match indexOf "?" url with
  | None => "?"
  | Some qIdx => if (Z.of_nat qIdx <? Z.of_nat (String.length url) - 1)%Z then "&" else EmptyString
  end.

(** The constructor: the derived fields are written once, here.  The URL
    of the options is bound to a local constant and goes into
    [urlWithParams] only: the field [url] is declared and never assigned,
    so it stays [undefined].  When the options carry no URL and there are
    parameters to join, [url.indexOf] is a property access on [undefined]:
    a [TypeError]. *)
Definition new_HttpRequest (options : HttpRequestInit) : M HttpRequest :=
  let url := init_url options in
  let method := init_method options in
  let body := if mightHaveBody (method_name method) then init_body options else BNull in
  let mk (params : loc) (urlWithParams : option string) : HttpRequest :=
    {| body := body; params := params;
       reportProgress := default false (init_reportProgress options);
       withCredentials := default false (init_withCredentials options);
       method := method; url := None; urlWithParams := urlWithParams;
       responseType := default json (init_responseType options) |} in
  match init_params options with
  | None =>
      p ← Params.new_HttpParams {| Params.fromString := None; Params.fromObject := None;
                                   Params.options_encoder := None |};
      ret (mk p url)
  | Some p0 =>
      this_params ← Params.clone p0 None;
      params ← Params.toString this_params;
      if (String.length params =? 0)%nat then ret (mk this_params url)
      else match url with
           | Some url => ret (mk this_params (Some (url +:+ separator url +:+ params)))
           | None => throw TypeError
           end
  end.

End Request.
Export Request.

(** ** The methods of a request value ([HttpRequest.ts]) *)

Module RequestMethods.

(** [typeof value]. *)
Definition typeof (value : jsbody) : string :=
  match value with
  | BUndefined => "undefined"
  | BString _ => "string"
  | BNumber _ => "number"
  | BBoolean _ => "boolean"
  | BNull | BArrayBuffer _ | BBlob _ | BFormData | BURLSearchParams | BParams _
  | BObject | BCircular =>
      "object"
  end.

(** The global constructors exist, so each test is the [instanceof]. *)
Definition isArrayBuffer (value : jsbody) : bool :=
  match value with BArrayBuffer _ => true | _ => false end.

Definition isBlob (value : jsbody) : bool :=
  match value with BBlob _ => true | _ => false end.

Definition isFormData (value : jsbody) : bool :=
  match value with BFormData => true | _ => false end.

Definition isUrlSearchParams (value : jsbody) : bool :=
  match value with BURLSearchParams => true | _ => false end.

(** [value instanceof HttpParams]. *)
Definition isHttpParams (value : jsbody) : bool :=
  match value with BParams _ => true | _ => false end.

(** What [serializeBody] returns: [null], the body itself, a string, or
    the [JSON.stringify] of an object whose content the embedding does
    not hold. *)
Inductive serialized : Type :=
  | SerNull
  | SerSame (b : jsbody)
  | SerText (s : string)
  | SerJSON.

(** [serializeBody]; [undefined] has no [toString] to fall back on, and
    [JSON.stringify] throws on a circular structure. *)
Definition serializeBody (this : HttpRequest) : M serialized :=
  let b := body this in
  match b with
  | BNull => ret SerNull
  | _ =>
      if isArrayBuffer b || isBlob b || isFormData b || isUrlSearchParams b
         || String.eqb (typeof b) "string"
      then ret (SerSame b)
      else
        match b with
        | BParams p => s ← Params.toString p; ret (SerText s)
        | _ =>
            if String.eqb (typeof b) "object" || String.eqb (typeof b) "boolean"
            then match b with
                 | BBoolean true => ret (SerText "true")
                 | BBoolean false => ret (SerText "false")
                 | BCircular => throw TypeError
                 | _ => ret SerJSON
                 end
            else match b with
                 | BNumber n => ret (SerText (ToString (PNum n)))
                 | _ => throw TypeError
                 end
        end
  end.

(** [detectContentTypeHeader]; [None] is [null]. *)
Definition detectContentTypeHeader (this : HttpRequest) : option string :=
  let b := body this in
  match b with
  | BNull => None
  | _ =>
      if isFormData b then None
      else match b with
           | BBlob type => if String.eqb type EmptyString then None else Some type
           | _ =>
               if isArrayBuffer b then None
               else if String.eqb (typeof b) "string" then Some "text/plain"
               else if isHttpParams b then
                 Some "application/x-www-form-urlencoded;charset=UTF-8"
               else if String.eqb (typeof b) "object" || String.eqb (typeof b) "number"
                       || String.eqb (typeof b) "boolean"
               then Some "application/json"
               else None
           end
  end.

(** The argument of [clone]; an absent [body] is [undefined].  The header
    container and the context bag are left out, as in the constructor. *)
Record HttpRequestUpdate : Type := {
  update_reportProgress : option bool;
  update_responseType : option ResponseType;
  update_withCredentials : option bool;
  update_body : jsbody;
  update_method : option HttpMethod;
  update_url : option string;
  update_params : option loc;
  update_setParams : option (list (string * string))
}.

(** [clone(update)]: [update.url || this.url] takes the field [url] of
    the request when the given URL is absent or empty; [setParams] is
    applied key by key with [set]; the constructor does the rest. *)
Definition clone (this : HttpRequest) (update : HttpRequestUpdate) : M HttpRequest :=
  let method := default (method this) (update_method update) in
  let url := if Params.truthy_string (update_url update)
             then update_url update else url this in
  let responseType := default (responseType this) (update_responseType update) in
  let body := match update_body update with
              | BUndefined => body this
              | b => b
              end in
  let withCredentials := default (withCredentials this) (update_withCredentials update) in
  let reportProgress := default (reportProgress this) (update_reportProgress update) in
  let params := default (params this) (update_params update) in
  params ← match update_setParams update with
            | Some setParams =>
                foldM (fun params '(param, v) => Params.set params param (PStr v))
                      params setParams
            | None => ret params
            end;
  new_HttpRequest {| init_method := method; init_url := url; init_body := body;
                     init_params := Some params;
                     init_reportProgress := Some reportProgress;
                     init_responseType := Some responseType;
                     init_withCredentials := Some withCredentials |}.

End RequestMethods.

(** ** Event streams (the part of rxjs the sources use) *)

Module Rx.

Inductive ending : Type :=
  | Completed
  | Failed (e : jserror).

(** What one subscription delivers: the values in order, then the end. *)
Record trace (A : Type) : Type := {
  items : list A;
  fin : ending
}.
Arguments items {A} t.
Arguments fin {A} t.

(** A cold stream: subscribing runs it against the state [S]. *)
Definition Observable (S A : Type) : Type := S -> trace A * S.

(** [filter(pred)]. *)
Definition filter_op {A} (pred : A -> bool) (t : trace A) : trace A :=
  {| items := List.filter pred (items t); fin := fin t |}.

(** [map(project)]: a projection that throws fails the stream there. *)
Fixpoint map_items {A B} (project : A -> result B) (l : list A) : list B * option jserror :=
  match l with
  | [] => ([], None)
  | x :: l' =>
      match project x with
      | Ok y => let '(ys, e) := map_items project l' in (y :: ys, e)
      | Throw e => ([], Some e)
      end
  end.

Definition map_op {A B} (project : A -> result B) (t : trace A) : trace B :=
  match map_items project (items t) with
  | (ys, Some e) => {| items := ys; fin := Failed e |}
  | (ys, None) => {| items := ys; fin := fin t |}
  end.

(** [source.pipe(op)] for an operator acting on what is delivered. *)
Definition pipe {S A B} (source : Observable S A) (op : trace A -> trace B) : Observable S B :=
  fun s => let '(t, s') := source s in (op t, s').

(** [defer(factory)]: the factory runs at subscription. *)
Definition defer {S A} (factory : S -> Observable S A * S) : Observable S A :=
  fun s => let '(o, s') := factory s in o s'.

End Rx.
Export Rx.

(** ** The interceptor chain assembler ([HttpInterceptingManager.ts]) *)

Module Manager.

(** [HttpEvent]: a response ([instanceof HttpResponse]) with its body, or
    any other lifecycle event. *)
Inductive HttpEvent : Type :=
  | EResponse (body : jsbody)
  | EOther (tag : nat).

Section WithWorld.

(** Whatever interceptors and adapters read and write when they run. *)
Variable W : Type.

(** [HttpHandler]: calling [handle] may act on the world and returns a
    stream that acts on it again when subscribed. *)
Definition HttpHandler : Type := HttpRequest -> W -> Observable W HttpEvent * W.

(** [HttpInterceptor]. *)
Record HttpInterceptor : Type := {
  intercept : HttpRequest -> HttpHandler -> W -> Observable W HttpEvent * W
}.

(** [HttpInterceptorHandler]: its [handle] method. *)
Definition HttpInterceptorHandler (next : HttpHandler) (interceptor : HttpInterceptor)
  : HttpHandler :=
  fun req => intercept interceptor req next.

(** [InterceptorLike]: an instance, or a function producing one. *)
Inductive InterceptorItem : Type :=
  | Instance_ (i : HttpInterceptor)
  | Factory (f : W -> HttpInterceptor * W).

(** A registered entry with its identity as a JavaScript reference. *)
Record InterceptorLike : Type := {
  ref : nat;
  item : InterceptorItem
}.

Record HttpInterceptingManager : Type := {
  chain : option HttpHandler;
  interceptorList : list InterceptorLike
}.

(** The constructor copies the array it is given. *)
Definition new_HttpInterceptingManager (interceptors : option (list InterceptorLike))
  : HttpInterceptingManager :=
  {| chain := None; interceptorList := default [] interceptors |}.

(** [Array.prototype.reduceRight] with an initial value: from the last
    element down to the first. *)
Definition reduceRight {A B} (f : B -> A -> B) (init : B) (l : list A) : B :=
  fold_left f (rev l) init.

(** [_getInterceptorsResoved]: [map] visits the entries first to last. *)
Fixpoint _getInterceptorsResoved (l : list InterceptorLike) (w : W)
  : list HttpInterceptor * W :=
  match l with
  | [] => ([], w)
  | x :: l' =>
      let '(i, w1) := match item x with
                      | Instance_ i => (i, w)
                      | Factory f => f w
                      end in
      let '(rest, w2) := _getInterceptorsResoved l' w1 in
      (i :: rest, w2)
  end.

Definition handle (this : HttpInterceptingManager) (adapter : HttpHandler)
  (req : HttpRequest) (w : W)
  : Observable W HttpEvent * HttpInterceptingManager * W :=
  let '(c, this', w') :=
    match chain this with
    | Some c => (c, this, w)
    | None =>
        let '(resolved, w1) := _getInterceptorsResoved (interceptorList this) w in
        let c := reduceRight (fun next interceptor => HttpInterceptorHandler next interceptor)
                             adapter resolved in
        (c, {| chain := Some c; interceptorList := interceptorList this |}, w1)
    end in
  let '(o, w2) := c req w' in
  (o, this', w2).

(** The composed handler in the specification's words,
    [I1 wraps (I2 wraps (... (In wraps T)))]: the handler the dispatch
    builds is compared with it. *)
Definition wraps (l : list HttpInterceptor) (T : HttpHandler) : HttpHandler :=
  fold_right (fun i next => HttpInterceptorHandler next i) T l.

Definition add (this : HttpInterceptingManager) (interceptor : InterceptorLike)
  : HttpInterceptingManager :=
  {| chain := None; interceptorList := interceptorList this ++ [interceptor] |}.

(** [list.splice(index, 1)] for an integer [index]: a negative index
    counts from the end, an index past the end removes nothing. *)
Definition splice_at {A} (index : Z) (l : list A) : list A :=
  let len := Z.of_nat (length l) in
  let start := if (index <? 0)%Z then Z.max (len + index) 0 else Z.min index len in
  delete (Z.to_nat start) l.

Definition removeByIndex (this : HttpInterceptingManager) (index : Z)
  : HttpInterceptingManager :=
  {| chain := None; interceptorList := splice_at index (interceptorList this) |}.

(** [list.indexOf(interceptor)]: by reference. *)
Fixpoint indexOf_ref (r : nat) (l : list InterceptorLike) : option nat :=
  match l with
  | [] => None
  | x :: l' => if Nat.eqb (ref x) r then Some 0 else S <$> indexOf_ref r l'
  end.

Definition remove (this : HttpInterceptingManager) (interceptor : InterceptorLike)
  : HttpInterceptingManager :=
  let list := interceptorList this in
  {| chain := None;
     interceptorList := match indexOf_ref (ref interceptor) list with
                        | Some index => splice_at (Z.of_nat index) list
                        | None => list
                        end |}.

End WithWorld.

Arguments wraps {W} l T.

End Manager.
Export Manager.

(** ** The outward-facing request API ([HttpClient.ts]) *)

Module Client.

Section WithWorld.

Variable W : Type.

(** What a subscription runs against: the assembler the client refers to,
    if it has one, and the world. *)
Record state : Type := {
  interceptors : option (HttpInterceptingManager W);
  world : W
}.

Record HttpClient : Type := {
  adapter : HttpHandler W
}.

(** A handler's stream, subscribed from a client's subscription. *)
Definition on_world {A} (o : Observable W A) : Observable state A :=
  fun st => let '(t, w) := o (world st) in
            (t, {| interceptors := interceptors st; world := w |}).

(** [this.interceptors?.handle(this.adapter, req) ?? this.adapter.handle(req)]. *)
Definition dispatch (this : HttpClient) (req : HttpRequest) (st : state)
  : Observable state HttpEvent * state :=
  match interceptors st with
  | Some m =>
      let '(o, m', w) := handle W m (adapter this) req (world st) in
      (on_world o, {| interceptors := Some m'; world := w |})
  | None =>
      let '(o, w) := adapter this req (world st) in
      (on_world o, {| interceptors := None; world := w |})
  end.

(** [event instanceof HttpResponse]. *)
Definition is_response (event : HttpEvent) : bool :=
  match event with
  | EResponse _ => true
  | EOther _ => false
  end.

(** [res.body]. *)
Definition body_of (res : HttpEvent) : jsbody :=
  match res with
  | EResponse b => b
  | EOther _ => BUndefined
  end.

Definition is_null (b : jsbody) : bool :=
  match b with BNull => true | _ => false end.

Definition is_ArrayBuffer (b : jsbody) : bool :=
  match b with BArrayBuffer _ => true | _ => false end.

Definition is_Blob (b : jsbody) : bool :=
  match b with BBlob _ => true | _ => false end.

Definition is_string (b : jsbody) : bool :=
  match b with BString _ => true | _ => false end.

(** The projections the [body] branch maps over the responses. *)
Definition project_body (responseType : ResponseType) (res : HttpEvent) : result jsbody :=
  match responseType with
  | arraybuffer =>
      if negb (is_null (body_of res)) && negb (is_ArrayBuffer (body_of res))
      then Throw (Error "Response is not an ArrayBuffer.")
      else Ok (body_of res)
  | blob =>
      if negb (is_null (body_of res)) && negb (is_Blob (body_of res))
      then Throw (Error "Response is not a Blob.")
      else Ok (body_of res)
  | text =>
      if negb (is_null (body_of res)) && negb (is_string (body_of res))
      then Throw (Error "Response is not a string.")
      else Ok (body_of res)
  | json => Ok (body_of res)
  end.

(** What a stream returned by [request] emits: events (or responses), or
    bodies. *)
Definition emitted : Type := (HttpEvent + jsbody)%type.

(** [request(req, options)]; [observe] is the option as given, if any. *)
Definition request (this : HttpClient) (req : HttpRequest) (observe : option string)
  : result (Observable state emitted) :=
  let observeType := if Params.truthy_string observe then default "body" observe else "body" in
  let events := defer (dispatch this req) in
  if String.eqb observeType "events" then
    Ok (pipe events (map_op (fun e => Ok (inl e))))
  else
    let res := pipe events (filter_op is_response) in
    if String.eqb observeType "body" then
      Ok (pipe res (map_op (fun r => match project_body (responseType req) r with
                                     | Ok b => Ok (inr b)
                                     | Throw e => Throw e
                                     end)))
    else if String.eqb observeType "response" then
      Ok (pipe res (map_op (fun e => Ok (inl e))))
    else
      Throw (Error ("Unreachable: unhandled observe type " +:+ observeType +:+ "}")).

(** [ParamsLike]: a container, or a plain object of parameters. *)
Inductive ParamsLike : Type :=
  | ParamsInstance (p : loc)
  | ParamsObject (fo : list (string * Params.objval)).

(** [Options]; headers and context are left out, as in the request. *)
Record Options : Type := {
  observe : option string;
  options_responseType : option ResponseType;
  options_reportProgress : option bool;
  options_withCredentials : option bool;
  options_params : option ParamsLike
}.

(** [_requestInternal]: the request is built at the call, the stream is
    what [request] returns for it. *)
Definition _requestInternal (this : HttpClient) (method : HttpMethod) (url : string)
  (body : jsbody) (options : Options) : M (Observable state emitted) :=
  params ← match options_params options with
            | Some (ParamsInstance p) => ret p
            | Some (ParamsObject fo) =>
                Params.new_HttpParams {| Params.fromString := None;
                                         Params.fromObject := Some fo;
                                         Params.options_encoder := None |}
            | None =>
                Params.new_HttpParams {| Params.fromString := None;
                                         Params.fromObject := None;
                                         Params.options_encoder := None |}
            end;
  req ← new_HttpRequest {| init_method := method; init_url := Some url; init_body := body;
                            init_params := Some params;
                            init_reportProgress := options_reportProgress options;
                            init_responseType := options_responseType options;
                            init_withCredentials := options_withCredentials options |};
  lift (request this req (observe options)).

Definition get (this : HttpClient) (url : string) (options : Options) :=
  _requestInternal this GET url BNull options.

Definition post (this : HttpClient) (url : string) (body : jsbody) (options : Options) :=
  _requestInternal this POST url body options.

Definition put (this : HttpClient) (url : string) (body : jsbody) (options : Options) :=
  _requestInternal this PUT url body options.

Definition delete (this : HttpClient) (url : string) (options : Options) :=
  _requestInternal this DELETE url BNull options.

End WithWorld.

End Client.

(** ** The builder ([HttpClientBuilder.ts]) *)

Module Builder.

Section WithWorld.

Variable W : Type.

(** The XHR factory and the adapter class over it are outside the
    sources: nothing is assumed of them. *)
Variable XhrFactory : Type.
Variable DefaultXhrFactory : XhrFactory.
Variable HttpXhrAdapter : XhrFactory -> HttpHandler W.

Record HttpClientBuilder : Type := {
  _xhrFactory : option XhrFactory;
  _httpAdater : option (HttpHandler W);
  _httpInterceptors : list (InterceptorLike W)
}.

Definition new_HttpClientBuilder : HttpClientBuilder :=
  {| _xhrFactory := None; _httpAdater := None; _httpInterceptors := [] |}.

Definition withXhrFactory (this : HttpClientBuilder) (xhrFactory : XhrFactory)
  : HttpClientBuilder :=
  {| _xhrFactory := Some xhrFactory; _httpAdater := _httpAdater this;
     _httpInterceptors := _httpInterceptors this |}.

Definition withHttpAdapter (this : HttpClientBuilder) (httpAdater : HttpHandler W)
  : HttpClientBuilder :=
  {| _xhrFactory := _xhrFactory this; _httpAdater := Some httpAdater;
     _httpInterceptors := _httpInterceptors this |}.

Definition addInterceptors (this : HttpClientBuilder) (interceptors : list (InterceptorLike W))
  : HttpClientBuilder :=
  {| _xhrFactory := _xhrFactory this; _httpAdater := _httpAdater this;
     _httpInterceptors := _httpInterceptors this ++ interceptors |}.

Definition _buildXhrFactory : XhrFactory := DefaultXhrFactory.

Definition _buildHttpXhrAdapter (this : HttpClientBuilder) : HttpHandler W :=
  HttpXhrAdapter (default _buildXhrFactory (_xhrFactory this)).

(** [build]: the client, and the assembler its [interceptors] field
    refers to. *)
Definition build (this : HttpClientBuilder)
  : Client.HttpClient W * HttpInterceptingManager W :=
  let httpAdapter := default (_buildHttpXhrAdapter this) (_httpAdater this) in
  let interceptingManager := new_HttpInterceptingManager W (Some (_httpInterceptors this)) in
  ({| Client.adapter := httpAdapter |}, interceptingManager).

Definition newClient : Client.HttpClient W * HttpInterceptingManager W :=
  build new_HttpClientBuilder.

End WithWorld.

End Builder.

(** ** Instrumented handlers, to observe who is invoked and in what order *)

Module Probe.

(** The world is the log of invocations. *)
Definition log : Type := list string.

Definition silent : Observable log HttpEvent :=
  fun w => ({| items := []; fin := Completed |}, w).

(** An interceptor that records its name and forwards the request. *)
Definition forwarding (name : string) : HttpInterceptor log :=
  {| intercept := fun req next w => next req (w ++ [name]) |}.

(** An interceptor that records its name and answers by itself. *)
Definition short_circuit (name : string) : HttpInterceptor log :=
  {| intercept := fun _ _ w => (silent, w ++ [name]) |}.

(** A transport that records its name. *)
Definition transport (name : string) : HttpHandler log :=
  fun _ w => (silent, w ++ [name]).

(** Entries registered as instances, numbered from [n] on. *)
Fixpoint instances (n : nat) (l : list (HttpInterceptor log)) : list (InterceptorLike log) :=
  match l with
  | [] => []
  | i :: l' => {| ref := n; item := Instance_ log i |} :: instances (S n) l'
  end.

(** A function that, when called, records that it made [name] and returns
    the forwarding interceptor of that name. *)
Definition making (name : string) : log -> HttpInterceptor log * log :=
  fun w => (forwarding name, w ++ ["new " +:+ name]).

(** Entries registered as functions, numbered from [n] on. *)
Fixpoint factories (n : nat) (names : list string) : list (InterceptorLike log) :=
  match names with
  | [] => []
  | x :: names' => {| ref := n; item := Factory log (making x) |} :: factories (S n) names'
  end.

(** A transport that records its name; its stream delivers [events] and
    completes. *)
Definition responding (name : string) (events : list HttpEvent) : HttpHandler log :=
  fun _ w => (fun w' => ({| items := events; fin := Completed |}, w'), w ++ [name]).

Definition a_request_for (rt : ResponseType) : HttpRequest :=
  {| body := BNull; params := 0; reportProgress := false; withCredentials := false;
     method := GET; url := None; urlWithParams := Some "/x"; responseType := rt |}.

(** A store with a container parsed from [a=1&a=2&b=3] (at 0) and a
    pending clone of it that appends [c=4] (at 1). *)
Definition sample_store : heap :=
  match (p ← Params.new_HttpParams {| Params.fromString := Some "a=1&a=2&b=3";
                                       Params.fromObject := None;
                                       Params.options_encoder := None |};
         Params.append p "c" (PStr "4")) empty_heap with
  | Ok (_, h) => h
  | Throw _ => empty_heap
  end.

(** A store with one container (at 0), built from the object [{z: 2}]. *)
Definition z2_options : Params.HttpParamsOptions :=
  {| Params.fromString := None;
     Params.fromObject := Some [("z", Params.VScalar (PNum (int 2)))];
     Params.options_encoder := None |}.

Definition z2_store : heap :=
  match Params.new_HttpParams z2_options empty_heap with
  | Ok (_, h) => h
  | Throw _ => empty_heap
  end.

(** The options of a GET of [url] with the parameter container [p]. *)
Definition get_with_params (url : string) (p : loc) : HttpRequestInit :=
  {| init_method := GET; init_url := Some url; init_body := BUndefined;
     init_params := Some p; init_reportProgress := None;
     init_responseType := None; init_withCredentials := None |}.

Definition a_request : HttpRequest :=
  {| body := BNull; params := 0; reportProgress := false; withCredentials := false;
     method := GET; url := None; urlWithParams := Some "/x"; responseType := json |}.

End Probe.

(** * The vocabulary of the properties *)

(** What the statements below speak of: the shapes of stores and of
    instances before and after a call, the classes of octets the codec
    tells apart, well-formed text, and the mappings [toString] writes in
    a form that parses back. *)

Section Vocabulary.

Implicit Types (h : heap) (m : jsmap) (o os : HttpParams) (k : string) (am : amap).

(** The expected end of a [body]-observed stream whose source delivers one
    terminal response with body [b]: a body that is [null] or of the
    requested kind is delivered, any other body fails the stream. *)
Definition body_outcome (rt : ResponseType) (b : jsbody) : trace (Client.emitted) :=
  let failed msg := {| items := []; fin := Failed (Error msg) |} in
  let delivered := {| items := [inr b]; fin := Completed |} in
  match rt with
  | arraybuffer =>
      if Client.is_null b || Client.is_ArrayBuffer b then delivered
      else failed "Response is not an ArrayBuffer."
  | blob =>
      if Client.is_null b || Client.is_Blob b then delivered
      else failed "Response is not a Blob."
  | text =>
      if Client.is_null b || Client.is_string b then delivered
      else failed "Response is not a string."
  | json => delivered
  end.

(** An instance with its map replaced. *)
Definition set_map (o : HttpParams) (m : jsmap) : HttpParams :=
  {| map := Some m; encoder := encoder o; updates := updates o; cloneFrom := cloneFrom o |}.

(** What one turn of the replay loop establishes for the container that
    replays: its map stays sound and its view moves by [step]; nothing
    else of the instances changes, and no array is freed. *)
Definition replayed (this : loc) o m h (f : amap -> amap) (h' : heap) : Prop :=
  exists m', objs h' = <[this := set_map o m']> (objs h)
             /\ map_ok h' m'
             /\ view h' m' = f (view h m)
             /\ length (arrs h) <= length (arrs h').

(** The instance once [init] is through with it. *)
Definition settled (o : HttpParams) (m : jsmap) : HttpParams :=
  {| map := Some m; encoder := encoder o; updates := None; cloneFrom := None |}.

(** What [init] leaves of a pending instance [o] with source [os]: the
    source has a map, the instance is settled on a sound map whose view
    is the replay of its log over the source's view, and no other
    instance is touched. *)
Definition resolved_from (this src : loc) o os (us : list Update) h h' : Prop :=
  let sm := default [] (map os) in
  exists m', objs h' = <[this := settled o m']> (<[src := set_map os sm]> (objs h))
             /\ map_ok h' m'
             /\ view h' m' = replay us (view h sm)
             /\ length (arrs h) <= length (arrs h').

(** [h'] keeps what the invariant of an instance of [h] relies on: no
    array is freed, and an instance that was not pending is still there
    and still not pending. *)
Definition extends (h h' : heap) : Prop :=
  length (arrs h) <= length (arrs h')
  /\ forall src os, objs h !! src = Some os -> cloneFrom os = None ->
       exists os', objs h' !! src = Some os' /\ cloneFrom os' = None.

(** The instance [clone] creates. *)
Definition cloned (this : loc) o (update : option (list Update)) : HttpParams :=
  {| map := None; encoder := encoder o;
     updates := Some (match update with
                      | None => default [] (updates o)
                      | Some us => default [] (updates o) ++ us
                      end);
     cloneFrom := Some (default this (cloneFrom o)) |}.

Definition upd (opc : UpdateOp) k (value : option jsprim) : Update :=
  {| param := k; value := value; op := opc |}.

(** A map under construction in [h], all of whose arrays were allocated
    after the store had [n] arrays. *)
Definition fresh_map (n : nat) h m : Prop :=
  map_ok h m /\ Forall (fun a => n <= a) m.*2.

(** What a loop of the constructor leaves: the instances as they were,
    the arrays that existed as they were, and a fresh map with the
    expected view. *)
Definition built (n : nat) h (am : amap) (m : jsmap) (h' : heap) : Prop :=
  objs h' = objs h /\ length (arrs h) <= length (arrs h')
  /\ (forall a, a < n -> arrs h' !! a = arrs h !! a)
  /\ fresh_map n h' m /\ view h' m = am.

(** All 256 octets. *)
Definition all_ascii : list ascii := ascii_of_nat <$> seq 0 256.

(** The octets [standardEncoding] writes as they are. *)
Definition kept (c : ascii) : bool :=
  existsb (Ascii.eqb c) ["@"; ":"; "$"; ","; ";"; "+"; "="; "?"; "/"]%char.

Definition literal (c : ascii) : bool := uriUnescaped c || kept c.

(** What [standardEncoding] writes for one octet. *)
Definition std1 (c : ascii) : string := standardEncoding (String c EmptyString).

Definition first_is (a : ascii) (s : string) : bool :=
  match s with
  | String b _ => Ascii.eqb a b
  | EmptyString => false
  end.

Definition no_char (a : ascii) (s : string) : bool :=
  match indexOf a s with None => true | Some _ => false end.

(** Everything the proofs below need to know about single octets, in one
    decidable statement. *)
Definition octet_facts (c : ascii) : bool :=
  let X := hex_digit (code c / 16) in
  let Y := hex_digit (code c mod 16) in
  String.eqb (std1 c) (if literal c then String c EmptyString else percent c)
  && (negb (uriUnescaped c) || negb (Ascii.eqb c "%"))
  && (negb (literal c)
      || (negb (Ascii.eqb c "%") && negb (Ascii.eqb c "&") && (code c <? 128)%N))
  && negb (Ascii.eqb X "%") && negb (Ascii.eqb Y "%")
  && match hex_value X, hex_value Y with
     | Some a, Some b => Ascii.eqb (ascii_of_N (16 * a + b)) c
     | _, _ => false
     end
  && no_char "&" (std1 c)
  && (Ascii.eqb c "=" || no_char "=" (std1 c))
  && (Ascii.eqb c "?" || negb (first_is "?" (std1 c)))
  && negb (String.eqb (std1 c) EmptyString).

(** A string of octets is well-formed UTF-8, that is, it stands for a
    JavaScript string. *)
Fixpoint utf8_ok (s : string) : bool :=
  match s with
  | EmptyString => true
  | String b1 s1 =>
      match leading_ones b1 with
      | 0 => utf8_ok s1
      | 2 =>
          match s1 with
          | String b2 s2 => valid_utf8_seq [b1; b2] && utf8_ok s2
          | _ => false
          end
      | 3 =>
          match s1 with
          | String b2 (String b3 s3) => valid_utf8_seq [b1; b2; b3] && utf8_ok s3
          | _ => false
          end
      | 4 =>
          match s1 with
          | String b2 (String b3 (String b4 s4)) =>
              valid_utf8_seq [b1; b2; b3; b4] && utf8_ok s4
          | _ => false
          end
      | _ => false
      end
  end.

(** The token an octet is written as. *)
Definition tok (c : ascii) : token := if literal c then Raw c else Esc c.

(** The (key, value) pairs of a mapping, in the order [toString] writes
    them. *)
Definition pairs (am : amap) : list (string * jsprim) :=
  concat ((fun e : string * list jsprim => (fun v : jsprim => (e.1, v)) <$> e.2) <$> am).

(** One [key=value] piece as the default codec writes it. *)
Definition piece_of (kv : string * jsprim) : string :=
  standardEncoding kv.1 +:+ "=" +:+ standardEncoding (ToString kv.2).

(** A value is a string that is well-formed UTF-8. *)
Definition text_value (v : jsprim) : bool :=
  match v with
  | PStr s => utf8_ok s
  | _ => false
  end.

(** The mappings whose serialization parses back: keys and values are
    well-formed strings, no key contains [=], and the first key does not
    start with [?]. *)
Definition reparsable (am : amap) : bool :=
  forallb (fun e => utf8_ok e.1 && no_char "=" e.1 && forallb text_value e.2) am
  && match am with
     | e :: _ => negb (first_is "?" e.1)
     | [] => true
     end.

(** The options of [new HttpParams({ fromString: s })]. *)
Definition fromString_only (s : string) : Params.HttpParamsOptions :=
  {| Params.fromString := Some s;
     Params.fromObject := None;
     Params.options_encoder := None |}.

(** The shape of every mapping [paramParser] builds: distinct keys, and
    at least one value per key. *)
Definition grouped (am : amap) : Prop :=
  NoDup am.*1 /\ Forall (fun e => e.2 <> []) am.

(** A [fromObject] (or [appendAll]) argument read as a mapping: a scalar
    is the list of itself, an array what the store holds for it. *)
Definition entries (h : heap) (fo : list (string * Params.objval)) : amap :=
  (fun e : string * Params.objval => (e.1, object_values h e.2)) <$> fo.

(** The piece [toString] writes for one value of one key. *)
Definition piece (codec : HttpParameterCodec) (kv : string * jsprim) : string :=
  encodeKey codec kv.1 +:+ "=" +:+ encodeValue codec (ToString kv.2).

(** [f] applied octet by octet, the results written one after the other. *)
Fixpoint octetwise (f : ascii -> string) (s : string) : string :=
  match s with
  | EmptyString => EmptyString
  | String c s' => f c +:+ octetwise f s'
  end.

(** An octet as the default codec writes it: itself when it is a letter,
    a digit, one of [- _ . ! ~ * ' ( )] or one of [@ : $ , ; + = ? /],
    and [%XX] otherwise. *)
Definition written (c : ascii) : string :=
  if literal c then String c EmptyString else percent c.

(** The octets a string is made of. *)
Definition octets (s : string) : list ascii := list_ascii_of_string s.

(** An octet that is ASCII and none of [&], [#], space. *)
Definition plain (d : ascii) : bool :=
  (code d <? 128)%N && negb (existsb (Ascii.eqb d) ["&"; "#"; " "]%char).

(** What follows a [%] that does not start an escape: fewer than two
    octets, or two that are not both hexadecimal digits. *)
Definition no_escape (b : string) : bool :=
  match b with
  | String h1 (String h2 _) => negb (is_hex h1 && is_hex h2)
  | _ => true
  end.

(** A body passes the check of the [body] branch for a response type. *)
Definition shape_ok (rt : ResponseType) (b : jsbody) : bool :=
  match rt with
  | arraybuffer => Client.is_null b || Client.is_ArrayBuffer b
  | blob => Client.is_null b || Client.is_Blob b
  | text => Client.is_null b || Client.is_string b
  | json => true
  end.

(** The message of the check that fails. *)
Definition shape_error (rt : ResponseType) : string :=
  match rt with
  | arraybuffer => "Response is not an ArrayBuffer."
  | blob => "Response is not a Blob."
  | text => "Response is not a string."
  | json => EmptyString
  end.

(** The URL joined with a serialized parameter string. *)
Definition join_url (url s : string) : string :=
  if (String.length s =? 0)%nat then url else url +:+ separator url +:+ s.

(** The request value the constructor writes for [options], given the
    container it keeps and the joined URL. *)
Definition built_request (options : HttpRequestInit) (params : loc)
  (urlWithParams : option string) : HttpRequest :=
  {| body := if mightHaveBody (method_name (init_method options))
             then init_body options else BNull;
     params := params;
     reportProgress := default false (init_reportProgress options);
     withCredentials := default false (init_withCredentials options);
     method := init_method options;
     url := None;
     urlWithParams := urlWithParams;
     responseType := default json (init_responseType options) |}.

(** An update that changes nothing. *)
Definition no_update : RequestMethods.HttpRequestUpdate :=
  {| RequestMethods.update_reportProgress := None;
     RequestMethods.update_responseType := None;
     RequestMethods.update_withCredentials := None;
     RequestMethods.update_body := BUndefined;
     RequestMethods.update_method := None;
     RequestMethods.update_url := None;
     RequestMethods.update_params := None;
     RequestMethods.update_setParams := None |}.

(** The mapping after [set(k, v)] for every entry of [setParams], in
    order. *)
Definition with_params_set (setParams : list (string * string)) (am : amap) : amap :=
  fold_left (fun acc (e : string * string) => map_set e.1 [PStr e.2] acc) setParams am.

(** What the [params] option of a client call serializes to: nothing
    when absent, the entries of a plain object under the default codec,
    and what a given container stands for, under its own codec. *)
Definition params_text (h : heap) (params : option Client.ParamsLike) : option string :=
  match params with
  | None => Some EmptyString
  | Some (Client.ParamsObject fo) => Some (serialize HttpUrlEncodingCodec (of_object h fo))
  | Some (Client.ParamsInstance p) =>
      (fun o : HttpParams => serialize (encoder o) (logical h o)) <$> objs h !! p
  end.

(** A client call that returns, for the request [req], what [request]
    returns for it (or throws what [request] throws). *)
Definition sends {W : Type} (this : Client.HttpClient W)
  (call : M (Observable (Client.state W) Client.emitted))
  (h : heap) (observe : option string) (req : HttpRequest) : Prop :=
  exists h', call h = match Client.request W this req observe with
                      | Ok obs => Ok (obs, h')
                      | Throw e => Throw e
                      end.

(** An update that writes no array that existed before it is replayed:
    [set], and [delete] of a whole key. *)
Definition writes_fresh (u : Update) : bool :=
  match op u, value u with
  | OpS, _ => true
  | OpD, None => true
  | _, _ => false
  end.

(** No instance of the store has an [append], or a [delete] of a single
    value, in its log. *)
Definition no_pending_append (h : heap) : Prop :=
  Forall (fun o => forallb writes_fresh (default [] (updates o)) = true) (objs h).

#[global] Instance no_pending_append_dec h : Decision (no_pending_append h).
Proof. unfold no_pending_append. apply _. Defined.

(** A computation that, from a store without pending appends with at
    least [n] arrays, leaves such a store, with the first [n] arrays as
    they were, and returns a result that satisfies [R]. *)
Definition keeps (n : nat) {A : Type} (c : M A) (R : A -> Prop) : Prop :=
  forall h a h',
    no_pending_append h -> n <= length (arrs h) -> c h = Ok (a, h') ->
    no_pending_append h' /\ n <= length (arrs h')
    /\ (forall i, i < n -> arrs h' !! i = arrs h !! i)
    /\ R a.

(** Two states of an instance that differ at most in that the second
    has an empty map where the first had none. *)
Definition same_shape (o o' : HttpParams) : Prop :=
  cloneFrom o' = cloneFrom o /\ updates o' = updates o
  /\ default [] (map o') = default [] (map o).

(** A piece of a query string as one writes it with the default codec
    for a key and, when there is one, a value; and the pair it stands
    for. *)
Definition written_piece (e : string * option string) : string :=
  match e.2 with
  | Some v => standardEncoding e.1 +:+ "=" +:+ standardEncoding v
  | None => standardEncoding e.1
  end.

Definition writable (e : string * option string) : bool :=
  utf8_ok e.1 && no_char "=" e.1
  && match e.2 with
     | Some v => utf8_ok v
     | None => true
     end.

(** A text with a [%] that does not start an escape. *)
Definition stray_percent (x : string) : Prop :=
  exists u v, x = u +:+ String "%" v /\ no_escape v = true.

End Vocabulary.

(** The entries resolved to instances in registration order, in the
    specification's words: [resolved_in_order entries w resolved w'] holds
    when, entry by entry from the first to the last, an instance stands
    for itself and leaves the world as it is, and a function is called
    once, on the world the entries before it have left, and stands for
    the interceptor it returns; [w'] is the world after the last call.
    The resolver of the sources is compared with it. *)
Inductive resolved_in_order {W : Type}
  : list (InterceptorLike W) -> W -> list (HttpInterceptor W) -> W -> Prop :=
  | resolved_nil (w : W) : resolved_in_order [] w [] w
  | resolved_instance (r : nat) (i : HttpInterceptor W) entries w resolved w' :
      resolved_in_order entries w resolved w' ->
      resolved_in_order ({| ref := r; item := Instance_ W i |} :: entries) w
                        (i :: resolved) w'
  | resolved_factory (r : nat) (f : W -> HttpInterceptor W * W) entries w i w1 resolved w' :
      f w = (i, w1) ->
      resolved_in_order entries w1 resolved w' ->
      resolved_in_order ({| ref := r; item := Factory W f |} :: entries) w
                        (i :: resolved) w'.

(** * Properties *)

(** ** The interceptor chain assembler *)

Section ManagerFacts.

Context {W : Type}.

Implicit Types (m : HttpInterceptingManager W) (T adapter : HttpHandler W).
Implicit Types (i : HttpInterceptor W) (l : list (HttpInterceptor W)).

Lemma reduceRight_fold_right {A B} (f : B -> A -> B) (b : B) (xs : list A) :
  reduceRight f b xs = fold_right (fun x acc => f acc x) b xs.
Proof.
  unfold reduceRight. induction xs as [|x xs IH]; simpl; [done|].
  rewrite fold_left_app. simpl. by rewrite IH.
Qed.

Lemma wraps_cons i l T req (w : W) :
  wraps (i :: l) T req w = intercept W i req (wraps l T) w.
Proof. reflexivity. Qed.

(** A dispatch on an assembler without a cached chain builds the right
    fold over the resolved entries, caches it and calls it. *)
Lemma handle_unbuilt m adapter req (w : W) :
  chain W m = None ->
  handle W m adapter req w =
    let '(resolved, w1) := _getInterceptorsResoved W (interceptorList W m) w in
    let '(o, w2) := wraps resolved adapter req w1 in
    (o, {| chain := Some (wraps resolved adapter);
           interceptorList := interceptorList W m |}, w2).
Proof.
  intros Hc. unfold handle. rewrite Hc.
  destruct (_getInterceptorsResoved W (interceptorList W m) w) as [resolved w1].
  by rewrite reduceRight_fold_right.
Qed.

(** The resolver resolves the entries in registration order. *)
Lemma resolve_spec (entries : list (InterceptorLike W)) (w : W) :
  resolved_in_order entries w (_getInterceptorsResoved W entries w).1
                              (_getInterceptorsResoved W entries w).2.
Proof.
  revert w. induction entries as [|[r [i|f]] entries IH]; intros w; simpl.
  - constructor.
  - specialize (IH w).
    destruct (_getInterceptorsResoved W entries w) as [rest w2]. by constructor.
  - destruct (f w) as [i w1] eqn:Ef. specialize (IH w1).
    destruct (_getInterceptorsResoved W entries w1) as [rest w2].
    by apply (resolved_factory r f entries w i w1).
Qed.

(** The same, for the entries as the specification resolves them. *)
Lemma handle_unbuilt_resolved m adapter req (w : W) :
  chain W m = None ->
  exists resolved w1,
    resolved_in_order (interceptorList W m) w resolved w1
    /\ handle W m adapter req w =
         let '(o, w2) := wraps resolved adapter req w1 in
         (o, {| chain := Some (wraps resolved adapter);
                interceptorList := interceptorList W m |}, w2).
Proof.
  intros Hc. rewrite (handle_unbuilt m adapter req w Hc).
  pose proof (resolve_spec (interceptorList W m) w) as Hres.
  destruct (_getInterceptorsResoved W (interceptorList W m) w) as [resolved w1].
  by exists resolved, w1.
Qed.

(** A dispatch on an assembler with a cached chain calls that chain and
    leaves the assembler as it is. *)
Lemma handle_built m adapter c req (w : W) :
  chain W m = Some c ->
  handle W m adapter req w = let '(o, w2) := c req w in (o, m, w2).
Proof. intros Hc. unfold handle. by rewrite Hc. Qed.


End ManagerFacts.

Section ProbeFacts.

Import Probe.

Lemma resolve_instances (n : nat) (l : list (HttpInterceptor log)) (w : log) :
  _getInterceptorsResoved log (instances n l) w = (l, w).
Proof.
  revert n. induction l as [|i l IH]; intros n; simpl; [done|].
  by rewrite IH.
Qed.

Lemma resolve_factories (n : nat) (names : list string) (w : log) :
  _getInterceptorsResoved log (factories n names) w
  = (forwarding <$> names, w ++ ((fun x => "new " +:+ x) <$> names)).
Proof.
  revert n w. induction names as [|x names IH]; intros n w; simpl.
  - by rewrite app_nil_r.
  - rewrite IH. by rewrite <- app_assoc.
Qed.

Lemma wraps_forwarding (names : list string) (t : string) req (w : log) :
  wraps (forwarding <$> names) (transport t) req w = (silent, w ++ names ++ [t]).
Proof.
  revert w. induction names as [|n names IH]; intros w; [done|].
  change (forwarding <$> n :: names) with (forwarding n :: (forwarding <$> names)).
  rewrite wraps_cons. simpl. rewrite IH. by rewrite <- app_assoc.
Qed.

Lemma wraps_short_circuit (pre : list string) (x : string) post T req (w : log) :
  wraps ((forwarding <$> pre) ++ short_circuit x :: post) T req w
  = (silent, w ++ pre ++ [x]).
Proof.
  revert w. induction pre as [|n pre IH]; intros w; [done|].
  change ((forwarding <$> n :: pre) ++ short_circuit x :: post)
    with (forwarding n :: ((forwarding <$> pre) ++ short_circuit x :: post)).
  rewrite wraps_cons. simpl. rewrite IH. by rewrite <- app_assoc.
Qed.

End ProbeFacts.

(** C2. On first dispatch the assembler resolves the entries in
    registration order (an instance stands for itself, a function is
    called once and stands for the interceptor it returns), then builds,
    caches and calls the right fold [I1 wraps (I2 wraps (... (In wraps
    T)))] of the resolved entries; the composed handler hands the request
    to [I1] together with the handler for the rest, so [I1] alone decides
    whether the rest is reached.  With forwarding interceptors the
    invocations are in registration order and the transport comes last
    (for [A; B] and [T]: [A], [B], [T]); an interceptor that answers by
    itself keeps everything after it from being invoked.  Entries given
    as functions are all called, first to last, before the request
    enters the chain, and the interceptors they return are invoked in
    registration order; a second dispatch goes through the cached chain
    and calls none of the functions again. *)
Theorem dispatch_is_right_fold_in_registration_order :
  (forall (W : Type) (entries : list (InterceptorLike W)) (T : HttpHandler W) req (w : W),
      exists resolved w1,
        resolved_in_order entries w resolved w1
        /\ handle W {| chain := None; interceptorList := entries |} T req w =
             let '(o, w2) := wraps resolved T req w1 in
             (o, {| chain := Some (wraps resolved T); interceptorList := entries |}, w2))
  /\ (forall (W : Type) (I1 : HttpInterceptor W) rest (T : HttpHandler W) req (w : W),
      wraps (I1 :: rest) T req w = intercept W I1 req (wraps rest T) w)
  /\ (forall (W : Type) (T : HttpHandler W), wraps [] T = T)
  /\ (forall (names : list string) (t : string) req,
      (handle Probe.log
         (new_HttpInterceptingManager Probe.log
            (Some (Probe.instances 0 (Probe.forwarding <$> names))))
         (Probe.transport t) req []).2 = names ++ [t])
  /\ (handle Probe.log
        (new_HttpInterceptingManager Probe.log
           (Some (Probe.instances 0 [Probe.forwarding "A"; Probe.forwarding "B"])))
        (Probe.transport "T") Probe.a_request []).2 = ["A"; "B"; "T"]
  /\ (forall (pre : list string) (x : string) post (t : string) req,
      (handle Probe.log
         (new_HttpInterceptingManager Probe.log
            (Some (Probe.instances 0
                     ((Probe.forwarding <$> pre) ++ Probe.short_circuit x :: post))))
         (Probe.transport t) req []).2 = pre ++ [x])
  /\ (forall (names : list string) (t : string) req,
      let m0 := new_HttpInterceptingManager Probe.log (Some (Probe.factories 0 names)) in
      (handle Probe.log m0 (Probe.transport t) req []).2
      = ((fun x => "new " +:+ x) <$> names) ++ names ++ [t]
      /\ (handle Probe.log (handle Probe.log m0 (Probe.transport t) req []).1.2
            (Probe.transport t) req []).2 = names ++ [t])
  /\ (handle Probe.log
        (new_HttpInterceptingManager Probe.log
           (Some [ {| ref := 0; item := Factory Probe.log (Probe.making "A") |};
                   {| ref := 1; item := Instance_ Probe.log (Probe.forwarding "B") |};
                   {| ref := 2; item := Factory Probe.log (Probe.making "C") |} ]))
        (Probe.transport "T") Probe.a_request []).2
     = ["new A"; "new C"; "A"; "B"; "C"; "T"].
Proof.
  split; [|split; [|split; [|split; [|split; [|split; [|split]]]]]].
  - intros W l T req w.
    by apply (handle_unbuilt_resolved {| chain := None; interceptorList := l |}).
  - done.
  - done.
  - intros. rewrite handle_unbuilt by done. simpl.
    rewrite resolve_instances, wraps_forwarding. done.
  - reflexivity.
  - intros. rewrite handle_unbuilt by done. simpl.
    rewrite resolve_instances, wraps_short_circuit. done.
  - intros names t req m0. unfold m0.
    rewrite handle_unbuilt by done. simpl.
    rewrite resolve_factories, wraps_forwarding. simpl. split; [done|].
    rewrite (handle_built
               {| chain := Some (wraps (Probe.forwarding <$> names) (Probe.transport t));
                  interceptorList := Probe.factories 0 names |}
               (Probe.transport t) _ req [] eq_refl).
    by rewrite wraps_forwarding.
  - reflexivity.
Qed.

Section ManagerEdits.

Context {W : Type}.

Lemma splice_at_in_range {A} (k : nat) (xs : list A) :
  k <= length xs -> splice_at (Z.of_nat k) xs = base.delete k xs.
Proof.
  intros Hk. unfold splice_at.
  destruct (Z.ltb_spec (Z.of_nat k) 0) as [Hneg|_]; [lia|].
  f_equal. lia.
Qed.




End ManagerEdits.



(** C10. Once a dispatch has built the chain, a later dispatch calls the
    cached chain, which ends in the adapter of the call that built it: the
    adapter passed later is not used and the assembler stays as it is.
    After [add], [removeByIndex] or [remove] the cache is empty and the
    next dispatch builds a chain that ends in the adapter of that call. *)
Theorem cached_chain_keeps_its_adapter :
  forall (W : Type) (entries : list (InterceptorLike W)) (T1 T2 T3 : HttpHandler W)
         req1 req2 req3 (w : W),
    let m0 := {| chain := None; interceptorList := entries |} in
    let '(resolved, _) := _getInterceptorsResoved W entries w in
    let '(o1, m1, w1) := handle W m0 T1 req1 w in
    chain W m1 = Some (wraps resolved T1)
    /\ handle W m1 T2 req2 w1 =
         (let '(o2, w2) := wraps resolved T1 req2 w1 in (o2, m1, w2))
    /\ (forall (x : InterceptorLike W) (index : Z) (m2 : HttpInterceptingManager W) (w' : W),
          m2 = add W m1 x \/ m2 = removeByIndex W m1 index \/ m2 = remove W m1 x ->
          handle W m2 T3 req3 w' =
            let '(resolved', w1') := _getInterceptorsResoved W (interceptorList W m2) w' in
            let '(o3, w3) := wraps resolved' T3 req3 w1' in
            (o3, {| chain := Some (wraps resolved' T3);
                    interceptorList := interceptorList W m2 |}, w3)).
Proof.
  intros W entries T1 T2 T3 req1 req2 req3 w m0.
  pose proof (handle_unbuilt m0 T1 req1 w eq_refl) as H1. simpl in H1.
  destruct (_getInterceptorsResoved W entries w) as [resolved w0].
  destruct (wraps resolved T1 req1 w0) as [o w1'] eqn:E1.
  rewrite H1. split; [reflexivity|]. split.
  - by rewrite (handle_built
                  {| chain := Some (wraps resolved T1); interceptorList := entries |}
                  T2 (wraps resolved T1) req2 w1' eq_refl).
  - intros x index m2 w' Hm2. apply handle_unbuilt.
    by destruct Hm2 as [->|[->| ->]].
Qed.

(** ** The body projection of [HttpClient.request] *)

Section ClientFacts.

Context {W : Type}.

Lemma filter_responses_last (pre : list HttpEvent) (b : jsbody) :
  forallb (fun e => negb (Client.is_response e)) pre = true ->
  List.filter Client.is_response (pre ++ [EResponse b]) = [EResponse b].
Proof.
  induction pre as [|e pre IH]; simpl; [done|].
  intros [He Hpre]%andb_true_iff.
  destruct (Client.is_response e); [done|]. by apply IH.
Qed.

(** In [body] mode (the default), [request] returns a stream without
    throwing; subscribed, it delivers the projection of the responses. *)
Lemma request_body (this : Client.HttpClient W) req observe :
  observe = None \/ observe = Some "body" ->
  Client.request W this req observe =
    Ok (pipe (pipe (defer (Client.dispatch W this req)) (filter_op Client.is_response))
             (map_op (fun r => match Client.project_body (responseType req) r with
                               | Ok b => Ok (inr b)
                               | Throw e => Throw e
                               end))).
Proof. by intros [->| ->]. Qed.

End ClientFacts.

(** C8, as the code has it.  [request] in [body] mode never throws at call
    time.  When the dispatch delivers a terminal response with body [b]
    (after events that are not responses) the [body]-observed stream
    fails with the shape error of the request's response type exactly
    when [b] is not [null] and not of that type ([arraybuffer]: not an
    ArrayBuffer, [blob]: not a Blob, [text]: not a string); a [null] body
    and every body under [json] is delivered and the stream completes. *)
Theorem body_shape_mismatch_fails_the_stream :
  forall (W : Type) (this : Client.HttpClient W) req observe
         (st st' : Client.state W) (pre : list HttpEvent) (b : jsbody),
    observe = None \/ observe = Some "body" ->
    defer (Client.dispatch W this req) st =
      ({| items := pre ++ [EResponse b]; fin := Completed |}, st') ->
    forallb (fun e => negb (Client.is_response e)) pre = true ->
    exists obs, Client.request W this req observe = Ok obs
                /\ obs st = (body_outcome (responseType req) b, st').
Proof.
  intros W this req observe st st' pre b Hobs Hsrc Hpre.
  eexists. split; [by apply request_body|].
  unfold pipe. rewrite Hsrc.
  unfold filter_op, map_op. simpl. rewrite (filter_responses_last pre b Hpre).
  unfold body_outcome.
  destruct (responseType req), b; reflexivity.
Qed.

(** The statement above for a GET with [responseType: "arraybuffer"] whose
    transport answers with a JSON body after a progress event. *)
Lemma body_shape_mismatch_fails_the_stream_witness :
  let this := {| Client.adapter := Probe.responding "T" [EOther 1; EResponse BObject] |} in
  let st := {| Client.interceptors := Some (new_HttpInterceptingManager Probe.log None);
               Client.world := [] |} in
  exists obs, Client.request Probe.log this (Probe.a_request_for arraybuffer) (Some "body") = Ok obs
              /\ (obs st).1 = {| items := [];
                                 fin := Failed (Error "Response is not an ArrayBuffer.") |}.
Proof.
  intros this st.
  destruct (body_shape_mismatch_fails_the_stream Probe.log this
              (Probe.a_request_for arraybuffer) (Some "body") st
              {| Client.interceptors :=
                   Some {| chain := Some (Probe.responding "T" [EOther 1; EResponse BObject]);
                           interceptorList := [] |};
                 Client.world := ["T"] |}
              [EOther 1] BObject) as [obs [Hreq Hrun]].
  - right. reflexivity.
  - reflexivity.
  - reflexivity.
  - exists obs. split; [exact Hreq|]. rewrite Hrun. reflexivity.
Defined.

(** C8 as stated fails for a [null] body: [null] is not an ArrayBuffer,
    yet the [body]-observed stream of an [arraybuffer] request delivers it
    and completes. *)
Lemma null_body_is_not_a_shape_error :
  let this := {| Client.adapter := Probe.responding "T" [EResponse BNull] |} in
  let st := {| Client.interceptors := None; Client.world := [] |} in
  Client.is_ArrayBuffer BNull = false
  /\ exists obs, Client.request Probe.log this (Probe.a_request_for arraybuffer) (Some "body") = Ok obs
                 /\ (obs st).1 = {| items := [inr BNull]; fin := Completed |}.
Proof.
  split; [reflexivity|]. eexists. split; reflexivity.
Qed.

(** ** The parameter container: maps *)

Section JsMapFacts.

Context {V : Type}.

Implicit Types (m : list (string * V)) (k : string).

Lemma map_get_None k m : map_get k m = None <-> k ∉ m.*1.
Proof.
  induction m as [|[k' a] m IH]; simpl.
  - split; [intros _; apply not_elem_of_nil | done].
  - destruct (String.eqb_spec k' k) as [->|Hne].
    + split; [done|]. intros H. exfalso. apply H. left.
    + rewrite IH, not_elem_of_cons. split; [by intros ?; split|by intros [_ ?]].
Qed.

Lemma map_get_Some_elem k m a : map_get k m = Some a -> (k, a) ∈ m.
Proof.
  induction m as [|[k' a'] m IH]; simpl; [done|].
  destruct (String.eqb_spec k' k) as [->|Hne].
  - intros [= ->]. left.
  - intros H. right. by apply IH.
Qed.

Lemma map_set_same k m a : map_get k m = Some a -> map_set k a m = m.
Proof.
  induction m as [|[k' a'] m IH]; simpl; [done|].
  destruct (String.eqb_spec k' k) as [->|Hne].
  - by intros [= ->].
  - intros H. by rewrite IH.
Qed.

Lemma map_set_absent k m a : map_get k m = None -> map_set k a m = m ++ [(k, a)].
Proof.
  induction m as [|[k' a'] m IH]; simpl; [done|].
  destruct (String.eqb_spec k' k) as [->|Hne]; [done|].
  intros H. by rewrite IH.
Qed.



Lemma map_set_keys_present k m a :
  k ∈ m.*1 -> (map_set k a m).*1 = m.*1.
Proof.
  induction m as [|[k' a'] m IH]; simpl.
  - intros H. by apply elem_of_nil in H.
  - destruct (String.eqb_spec k' k) as [->|Hne]; simpl; [done|].
    intros [?|H]%elem_of_cons; [congruence|]. f_equal. by apply IH.
Qed.

Lemma map_set_keys_NoDup k m a : NoDup m.*1 -> NoDup (map_set k a m).*1.
Proof.
  intros Hnd. destruct (map_get k m) as [a0|] eqn:E.
  - rewrite map_set_keys_present; [done|].
    apply map_get_Some_elem in E. apply (list_elem_of_fmap_2 fst) in E. done.
  - rewrite map_set_absent by done. rewrite fmap_app. simpl.
    apply NoDup_app. split; [done|]. split.
    + intros x Hx [->|H]%elem_of_cons.
      * by apply map_get_None in E.
      * by apply elem_of_nil in H.
    + apply NoDup_singleton.
Qed.

Lemma map_delete_sublist k m : sublist (map_delete k m) m.
Proof.
  induction m as [|[k' a'] m IH]; simpl; [done|].
  destruct (String.eqb k' k).
  - by apply sublist_cons.
  - by apply sublist_skip.
Qed.



(** Copying the entries of a map with distinct keys one by one, in key
    order, rebuilds the map. *)
Lemma copy_entries m1 m2 :
  NoDup (m1 ++ m2).*1 ->
  fold_left (fun acc k => match map_get k (m1 ++ m2) with
                          | Some a => map_set k a acc
                          | None => acc
                          end) (map_keys m2) m1 = m1 ++ m2.
Proof.
  revert m1. induction m2 as [|[k a] m2 IH]; intros m1 Hnd; simpl.
  - by rewrite app_nil_r.
  - assert (Hk : k ∉ m1.*1).
    { rewrite fmap_app in Hnd. apply NoDup_app in Hnd as (_ & Hd & _).
      intros Hin. apply (Hd k Hin). left. }
    assert (Hget : map_get k (m1 ++ (k, a) :: m2) = Some a).
    { clear -Hk. induction m1 as [|[k1 a1] m1 IH]; simpl.
      - by rewrite String.eqb_refl.
      - apply not_elem_of_cons in Hk as [Hne Hk]. simpl in Hne.
        destruct (String.eqb_spec k1 k); [congruence|]. by apply IH. }
    rewrite Hget. rewrite map_set_absent by (by apply map_get_None).
    specialize (IH (m1 ++ [(k, a)])).
    rewrite <- !app_assoc in IH. simpl in IH. by apply IH.
Qed.

End JsMapFacts.

(** ** The parameter container: views of the store *)

Section ViewFacts.

Implicit Types (h : heap) (m : jsmap) (k : string) (a : loc).

Lemma view_map_get h m k :
  map_get k (view h m) = (fun a => default [] (arrs h !! a)) <$> map_get k m.
Proof.
  induction m as [|[k' a'] m IH]; simpl; [done|].
  by destruct (String.eqb k' k).
Qed.

Lemma view_map_set h m k a :
  view h (map_set k a m) = map_set k (default [] (arrs h !! a)) (view h m).
Proof.
  induction m as [|[k' a'] m IH]; simpl; [done|].
  destruct (String.eqb k' k); simpl; [done|].
  f_equal. apply IH.
Qed.

Lemma view_map_delete h m k : view h (map_delete k m) = map_delete k (view h m).
Proof.
  induction m as [|[k' a'] m IH]; simpl; [done|].
  destruct (String.eqb k' k); simpl; [done|].
  f_equal. apply IH.
Qed.

Lemma view_keys h m : (view h m).*1 = m.*1.
Proof. unfold view. rewrite <- list_fmap_compose. by apply list_fmap_ext. Qed.

(** The view depends on the arrays the map refers to only. *)
Lemma view_ext h h' m :
  (forall a, a ∈ m.*2 -> arrs h' !! a = arrs h !! a) -> view h' m = view h m.
Proof.
  intros Hext. unfold view. apply Forall_fmap_ext_1, Forall_forall.
  intros [k a] Hin. simpl. rewrite Hext; [done|].
  by apply (list_elem_of_fmap_2 snd) in Hin.
Qed.

(** Writing the array a key refers to changes the values of that key. *)
Lemma view_write h h' m k a (l : list jsprim) :
  map_get k m = Some a -> NoDup m.*2 ->
  arrs h' !! a = Some l ->
  (forall b, b <> a -> arrs h' !! b = arrs h !! b) ->
  view h' m = map_set k l (view h m).
Proof.
  intros Hget Hnd Ha Hother.
  induction m as [|[k' a'] m IH]; simpl in *; [done|].
  apply NoDup_cons in Hnd as [Hnotin Hnd].
  destruct (String.eqb_spec k' k) as [->|Hne].
  - injection Hget as ->. rewrite Ha. simpl. f_equal.
    apply view_ext. intros b Hb. apply Hother. intros ->. done.
  - assert (a' <> a).
    { intros ->. apply Hnotin. apply map_get_Some_elem in Hget.
      by apply (list_elem_of_fmap_2 snd) in Hget. }
    rewrite Hother by done. f_equal. by apply IH.
Qed.

(** Writing the array of a key that is then deleted leaves the rest. *)
Lemma view_write_delete h h' m k a :
  map_get k m = Some a -> NoDup m.*2 ->
  (forall b, b <> a -> arrs h' !! b = arrs h !! b) ->
  view h' (map_delete k m) = map_delete k (view h m).
Proof.
  intros Hget Hnd Hother.
  rewrite <- view_map_delete. apply view_ext.
  intros b Hb. apply Hother. intros ->.
  clear Hother. induction m as [|[k' a'] m IH]; simpl in *; [done|].
  apply NoDup_cons in Hnd as [Hnotin Hnd].
  destruct (String.eqb_spec k' k) as [->|Hne].
  - injection Hget as ->. done.
  - simpl in Hb. apply elem_of_cons in Hb as [->|Hb].
    + apply Hnotin. apply map_get_Some_elem in Hget.
      by apply (list_elem_of_fmap_2 snd) in Hget.
    + by apply IH.
Qed.

Lemma map_ok_grow h h' m :
  length (arrs h) <= length (arrs h') -> map_ok h m -> map_ok h' m.
Proof.
  intros Hlen (Hk & Hl & Hv). repeat split; [done..|].
  eapply Forall_impl; [exact Hv|]. simpl. intros a Ha. lia.
Qed.

Lemma map_ok_get h m k a : map_ok h m -> map_get k m = Some a -> a < length (arrs h).
Proof.
  intros (_ & _ & Hv) Hget. rewrite Forall_forall in Hv. apply Hv.
  apply map_get_Some_elem in Hget. by apply (list_elem_of_fmap_2 snd) in Hget.
Qed.

Lemma map_ok_set_fresh h m k a :
  map_ok h m -> length (arrs h) <= a -> forall h', a < length (arrs h') ->
  length (arrs h) <= length (arrs h') -> map_ok h' (map_set k a m).
Proof.
  intros (Hk & Hl & Hv) Hfresh h' Ha Hlen.
  assert (Hnotin : a ∉ m.*2).
  { intros Hin. rewrite Forall_forall in Hv. specialize (Hv a Hin). lia. }
  split; [by apply map_set_keys_NoDup|].
  clear Hk. induction m as [|[k' a'] m IH]; simpl in *.
  - split; [apply NoDup_singleton|]. by repeat constructor.
  - apply NoDup_cons in Hl as [Hn Hl]. apply Forall_cons in Hv as [Hv1 Hv].
    apply not_elem_of_cons in Hnotin as [Hne Hnotin].
    destruct (String.eqb k' k); simpl.
    + split.
      * apply NoDup_cons. done.
      * apply Forall_cons. split; [done|].
        eapply Forall_impl; [exact Hv|]. simpl. intros; lia.
    + destruct (IH Hl Hv Hnotin) as [IH1 IH2]. split.
      * apply NoDup_cons. split; [|done].
        clear -Hn Hne. induction m as [|[k0 a0] m IHm]; simpl in *.
        -- apply not_elem_of_cons. split; [done|apply not_elem_of_nil].
        -- apply not_elem_of_cons in Hn as [Hn1 Hn].
           destruct (String.eqb k0 k); simpl; apply not_elem_of_cons; split; auto.
      * apply Forall_cons. split; [lia|done].
Qed.

Lemma map_ok_delete h m k : map_ok h m -> map_ok h (map_delete k m).
Proof.
  intros (Hk & Hl & Hv). pose proof (map_delete_sublist k m) as Hs.
  repeat split.
  - eapply sublist_NoDup; [exact Hk|]. by apply fmap_sublist.
  - eapply sublist_NoDup; [exact Hl|]. by apply fmap_sublist.
  - rewrite Forall_forall in Hv |- *. intros a Ha. apply Hv.
    eapply elem_of_sublist; [exact Ha|]. by apply fmap_sublist.
Qed.

End ViewFacts.

(** ** The parameter container: a program logic for the store *)

Section WpRules.

Lemma bind_ok {A B} (c : M A) (f : A -> M B) h a h' :
  c h = Ok (a, h') -> (c ≫= f) h = f a h'.
Proof. intros Hc. unfold mbind, M_bind, bind. by rewrite Hc. Qed.

Lemma bind_throw {A B} (c : M A) (f : A -> M B) h e :
  c h = Throw e -> (c ≫= f) h = Throw e.
Proof. intros Hc. unfold mbind, M_bind, bind. by rewrite Hc. Qed.

Lemma wp_ret {A} (a : A) h (Q : A -> heap -> Prop) : Q a h -> wp (ret a) h Q.
Proof. intros HQ. by exists a, h. Qed.

Lemma wp_bind {A B} (c : M A) (f : A -> M B) h (Q : B -> heap -> Prop) :
  wp c h (fun a h' => wp (f a) h' Q) -> wp (c ≫= f) h Q.
Proof.
  intros (a & h' & Hc & b & h'' & Hf & HQ). exists b, h''. split; [|done].
  unfold mbind, M_bind, bind. by rewrite Hc.
Qed.

Lemma wp_conseq {A} (c : M A) h (Q Q' : A -> heap -> Prop) :
  wp c h Q -> (forall a h', Q a h' -> Q' a h') -> wp c h Q'.
Proof. intros (a & h' & Hc & HQ) Himp. exists a, h'. auto. Qed.

Lemma wp_run {A} (c : M A) h (Q : A -> heap -> Prop) :
  wp c h Q -> exists a h', c h = Ok (a, h') /\ run c h = Ok a /\ Q a h'.
Proof.
  intros (a & h' & Hc & HQ). exists a, h'. unfold run. by rewrite Hc.
Qed.

Lemma wp_unwrap {A} (o : option A) (a : A) h (Q : A -> heap -> Prop) :
  o = Some a -> Q a h -> wp (unwrap o) h Q.
Proof. intros -> HQ. by exists a, h. Qed.

Lemma wp_getObj p o h (Q : HttpParams -> heap -> Prop) :
  objs h !! p = Some o -> Q o h -> wp (getObj p) h Q.
Proof. intros Ho HQ. exists o, h. unfold getObj. by rewrite Ho. Qed.

Lemma wp_setObj p o h (Q : unit -> heap -> Prop) :
  Q tt (upd_obj p o h) -> wp (setObj p o) h Q.
Proof. intros HQ. by exists tt, (upd_obj p o h). Qed.

Lemma wp_allocObj o h (Q : loc -> heap -> Prop) :
  Q (length (objs h)) (new_obj o h) -> wp (allocObj o) h Q.
Proof. intros HQ. by exists (length (objs h)), (new_obj o h). Qed.

Lemma wp_getArr a l h (Q : list jsprim -> heap -> Prop) :
  arrs h !! a = Some l -> Q l h -> wp (getArr a) h Q.
Proof. intros Ha HQ. exists l, h. unfold getArr. by rewrite Ha. Qed.

Lemma wp_setArr a l h (Q : unit -> heap -> Prop) :
  Q tt (upd_arr a l h) -> wp (setArr a l) h Q.
Proof. intros HQ. by exists tt, (upd_arr a l h). Qed.

Lemma wp_allocArr l h (Q : loc -> heap -> Prop) :
  Q (length (arrs h)) (new_arr l h) -> wp (allocArr l) h Q.
Proof. intros HQ. by exists (length (arrs h)), (new_arr l h). Qed.

Lemma wp_push a v l h (Q : unit -> heap -> Prop) :
  arrs h !! a = Some l -> Q tt (upd_arr a (l ++ [v]) h) -> wp (push a v) h Q.
Proof.
  intros Ha HQ. unfold push. apply wp_bind.
  eapply wp_getArr; [done|]. by apply wp_setArr.
Qed.

Lemma wp_splice1 a i l h (Q : unit -> heap -> Prop) :
  arrs h !! a = Some l -> Q tt (upd_arr a (base.delete i l) h) -> wp (splice1 a i) h Q.
Proof.
  intros Ha HQ. unfold splice1. apply wp_bind.
  eapply wp_getArr; [done|]. by apply wp_setArr.
Qed.

Lemma wp_this_map this o m h (Q : jsmap -> heap -> Prop) :
  objs h !! this = Some o -> map o = Some m -> Q m h -> wp (Params.this_map this) h Q.
Proof.
  intros Ho Hm HQ. unfold Params.this_map. apply wp_bind.
  eapply wp_getObj; [done|]. by eapply wp_unwrap.
Qed.

Lemma wp_set_this_map this o m h (Q : unit -> heap -> Prop) :
  objs h !! this = Some o -> Q tt (upd_obj this (set_map o m) h) ->
  wp (Params.set_this_map this m) h Q.
Proof.
  intros Ho HQ. unfold Params.set_this_map. apply wp_bind.
  eapply wp_getObj; [done|]. by apply wp_setObj.
Qed.

End WpRules.

(** ** The parameter container: the replay loop *)

Section ReplayFacts.

Implicit Types (h : heap) (m : jsmap) (o : HttpParams) (u : Update).

Lemma lookup_arr_valid h a : a < length (arrs h) -> exists l, arrs h !! a = Some l.
Proof. intros Ha. by apply lookup_lt_is_Some_2. Qed.

Lemma applyUpdate_append_or_set h this o m u :
  objs h !! this = Some o -> map o = Some m -> map_ok h m ->
  op u = OpA \/ op u = OpS ->
  wp (Params.applyUpdate this u) h (fun _ h' => replayed this o m h (step u) h').
Proof.
  intros Ho Hm Hok Hop. unfold Params.applyUpdate.
  set (v := PStr (Params.valueToString (value u))).
  assert (Hbody :
    wp (m0 ← Params.this_map this;
        base ← match (match op u with OpA => map_get (param u) m0 | _ => None end) with
                | Some a => ret a
                | None => allocArr []
                end;
        push base v;;
        m' ← Params.this_map this;
        Params.set_this_map this (map_set (param u) base m')) h
       (fun _ h' => replayed this o m h (step u) h')).
  2:{ destruct Hop as [HA | HS]; [rewrite HA in * | rewrite HS in *]; exact Hbody. }
  apply wp_bind. eapply wp_this_map; [done..|].
  apply wp_bind.
  destruct (match op u with OpA => map_get (param u) m | _ => None end) as [a|] eqn:Ebase.
  - (* append to the array the key already has *)
    assert (op u = OpA /\ map_get (param u) m = Some a) as [HA Hget].
    { destruct (op u); try done. }
    apply wp_ret. apply wp_bind.
    destruct (lookup_arr_valid h a) as [l Hl]; [by eapply map_ok_get|].
    eapply wp_push; [done|].
    apply wp_bind. eapply wp_this_map; [done..|].
    eapply wp_set_this_map; [done|].
    exists m. rewrite map_set_same by done. unfold upd_obj, upd_arr. simpl.
    split; [done|]. split; [by eapply map_ok_grow; [|done]; simpl; rewrite length_insert|].
    split; [|by rewrite length_insert].
    unfold step. rewrite HA. rewrite view_map_get, Hget. simpl. rewrite Hl. simpl.
    eapply view_write; [done|apply Hok|..].
    + simpl. apply list_lookup_insert_eq. by eapply lookup_lt_Some.
    + intros b Hb. simpl. by apply list_lookup_insert_ne.
  - (* a fresh array *)
    apply wp_allocArr. apply wp_bind.
    eapply (wp_push _ _ []); [simpl; by apply list_lookup_middle|].
    apply wp_bind. eapply wp_this_map; [done..|].
    eapply wp_set_this_map; [done|].
    exists (map_set (param u) (length (arrs h)) m). unfold upd_obj, upd_arr, new_arr. simpl.
    assert (Harr : <[length (arrs h) := [v]]> (arrs h ++ [[]]) = arrs h ++ [[v]]).
    { rewrite insert_app_r_alt by lia. by rewrite Nat.sub_diag. }
    rewrite Harr.
    split; [done|]. split.
    { eapply map_ok_set_fresh; [done|done|..]; simpl; rewrite length_app; simpl; lia. }
    split; [|rewrite length_app; simpl; lia].
    rewrite view_map_set. simpl. rewrite list_lookup_middle by done. simpl.
    assert (Hview : view {| objs := <[this:=set_map o (map_set (param u) (length (arrs h)) m)]> (objs h);
                            arrs := arrs h ++ [[v]] |} m = view h m).
    { apply view_ext. intros b Hb. simpl. apply lookup_app_l.
      destruct Hok as (_ & _ & Hv). rewrite Forall_forall in Hv. by apply Hv. }
    rewrite Hview. unfold step.
    destruct Hop as [HA | HS].
    + rewrite HA in *. rewrite view_map_get, Ebase. done.
    + rewrite HS. done.
Qed.

Lemma applyUpdate_delete_key h this o m u :
  objs h !! this = Some o -> map o = Some m -> map_ok h m ->
  op u = OpD -> value u = None ->
  wp (Params.applyUpdate this u) h (fun _ h' => replayed this o m h (step u) h').
Proof.
  intros Ho Hm Hok Hop Hval. unfold Params.applyUpdate. rewrite Hop, Hval.
  apply wp_bind. eapply wp_this_map; [done..|].
  eapply wp_set_this_map; [done|].
  exists (map_delete (param u) m). unfold upd_obj. simpl.
  split; [done|]. split; [by apply map_ok_delete|]. split; [|done].
  unfold step. rewrite Hop, Hval. rewrite <- view_map_delete. by apply view_ext.
Qed.

Lemma applyUpdate_delete_value h this o m u v0 :
  objs h !! this = Some o -> map o = Some m -> map_ok h m ->
  op u = OpD -> value u = Some v0 ->
  wp (Params.applyUpdate this u) h (fun _ h' => replayed this o m h (step u) h').
Proof.
  intros Ho Hm Hok Hop Hval. unfold Params.applyUpdate. rewrite Hop, Hval.
  change (Params.valueToString (Some v0)) with (ToString v0).
  apply wp_bind. eapply wp_this_map; [done..|].
  apply wp_bind.
  destruct (map_get (param u) m) as [a|] eqn:Hget.
  - apply wp_ret.
    destruct (lookup_arr_valid h a) as [l Hl]; [by eapply map_ok_get|].
    apply wp_bind. eapply wp_getArr; [done|].
    set (l' := remove_first (PStr (ToString v0)) l).
    (* whichever way the search ends, the array then holds [l'] *)
    assert (Hfinish : forall h1,
      objs h1 = objs h -> arrs h1 = <[a := l']> (arrs h) ->
      wp (l'' ← getArr a;
          m' ← Params.this_map this;
          if (0 <? length l'')%nat then Params.set_this_map this (map_set (param u) a m')
          else Params.set_this_map this (map_delete (param u) m')) h1
         (fun _ h' => replayed this o m h (step u) h')).
    { intros h1 Hobjs Harrs.
      assert (Ha1 : arrs h1 !! a = Some l').
      { rewrite Harrs. apply list_lookup_insert_eq. by eapply lookup_lt_Some. }
      assert (Hother : forall b, b <> a -> arrs h1 !! b = arrs h !! b).
      { intros b Hb. rewrite Harrs. by apply list_lookup_insert_ne. }
      assert (Hlen : length (arrs h1) = length (arrs h)).
      { rewrite Harrs. apply length_insert. }
      apply wp_bind. eapply wp_getArr; [done|].
      apply wp_bind. eapply wp_this_map; [by rewrite Hobjs|done|].
      assert (Hstep : step u (view h m) =
                      if (0 <? length l')%nat then map_set (param u) l' (view h m)
                      else map_delete (param u) (view h m)).
      { unfold step. rewrite Hop, Hval. rewrite view_map_get, Hget. simpl.
        rewrite Hl. done. }
      destruct (0 <? length l')%nat eqn:Hnonempty.
      - eapply wp_set_this_map; [by rewrite Hobjs|].
        exists m. rewrite map_set_same by done. unfold upd_obj. simpl.
        split; [by rewrite Hobjs|].
        split; [eapply map_ok_grow; [|done]; simpl; lia|].
        split; [|simpl; lia].
        rewrite Hstep. eapply view_write; [done|apply Hok|done|done].
      - eapply wp_set_this_map; [by rewrite Hobjs|].
        exists (map_delete (param u) m). unfold upd_obj. simpl.
        split; [by rewrite Hobjs|].
        split; [apply map_ok_delete; eapply map_ok_grow; [|done]; simpl; lia|].
        split; [|simpl; lia].
        rewrite Hstep. eapply view_write_delete; [done|apply Hok|done]. }
    apply wp_bind. unfold l', remove_first in *.
    destruct (list_indexOf (PStr (ToString v0)) l) as [idx|] eqn:Hidx.
    + eapply wp_splice1; [done|]. by apply Hfinish.
    + apply wp_ret. apply Hfinish; [done|]. by rewrite list_insert_id.
  - (* the key is absent: the search runs on a fresh empty array *)
    apply wp_allocArr.
    apply wp_bind. eapply (wp_getArr _ []); [simpl; by apply list_lookup_middle|].
    apply wp_bind. simpl. apply wp_ret.
    apply wp_bind. eapply (wp_getArr _ []); [simpl; by apply list_lookup_middle|].
    apply wp_bind. eapply wp_this_map; [done..|]. simpl.
    eapply wp_set_this_map; [done|].
    exists (map_delete (param u) m). unfold upd_obj, new_arr. simpl.
    split; [done|].
    split; [apply map_ok_delete; eapply map_ok_grow; [|done]; simpl; rewrite length_app; lia|].
    split; [|rewrite length_app; lia].
    unfold step. rewrite Hop, Hval. rewrite view_map_get, Hget. simpl.
    rewrite <- view_map_delete. apply view_ext.
    intros b Hb. simpl. apply lookup_app_l.
    destruct Hok as (_ & _ & Hv). rewrite Forall_forall in Hv. apply Hv.
    eapply elem_of_sublist; [exact Hb|]. apply fmap_sublist, map_delete_sublist.
Qed.

(** One turn of the replay loop, whatever the update. *)
Lemma applyUpdate_sim h this o m u :
  objs h !! this = Some o -> map o = Some m -> map_ok h m ->
  wp (Params.applyUpdate this u) h (fun _ h' => replayed this o m h (step u) h').
Proof.
  intros Ho Hm Hok. destruct (op u) eqn:Hop.
  - apply applyUpdate_append_or_set; auto.
  - destruct (value u) as [v0|] eqn:Hval.
    + by eapply applyUpdate_delete_value.
    + by apply applyUpdate_delete_key.
  - apply applyUpdate_append_or_set; auto.
Qed.

Lemma set_map_idem o m1 m2 : set_map (set_map o m1) m2 = set_map o m2.
Proof. reflexivity. Qed.

(** The whole replay loop. *)
Lemma replay_sim us h this o m :
  objs h !! this = Some o -> map o = Some m -> map_ok h m ->
  wp (forEach (Params.applyUpdate this) us) h
     (fun _ h' => replayed this o m h (replay us) h').
Proof.
  revert h o m. induction us as [|u us IH]; intros h o m Ho Hm Hok; simpl.
  - apply wp_ret. exists m. split; [|done].
    rewrite list_insert_id; [done|]. rewrite Ho. f_equal.
    destruct o; simpl in *. by rewrite Hm.
  - apply wp_bind. eapply wp_conseq; [by apply applyUpdate_sim|].
    intros [] h1 (m1 & Hobjs1 & Hok1 & Hview1 & Hlen1). simpl.
    assert (Ho1 : objs h1 !! this = Some (set_map o m1)).
    { rewrite Hobjs1. apply list_lookup_insert_eq. by eapply lookup_lt_Some. }
    eapply wp_conseq; [by apply (IH h1 (set_map o m1) m1)|].
    intros [] h2 (m2 & Hobjs2 & Hok2 & Hview2 & Hlen2). simpl.
    exists m2. split; [|split; [done|split]].
    + rewrite Hobjs2, Hobjs1. by rewrite list_insert_insert_eq.
    + unfold replay in *. simpl. by rewrite Hview2, Hview1.
    + lia.
Qed.

End ReplayFacts.

(** ** The parameter container: [init] *)

Section InitFacts.

Implicit Types (h : heap) (m sm : jsmap) (o os : HttpParams).

Lemma set_map_self o m : map o = Some m -> set_map o m = o.
Proof. destruct o; simpl; by intros ->. Qed.

(** [init] on an instance that is not pending only makes sure it has a
    map. *)
Lemma init_fuel_not_pending f h this o :
  objs h !! this = Some o -> cloneFrom o = None ->
  wp (Params.init_fuel (S f) this) h
     (fun _ h' => objs h' = <[this := set_map o (default [] (map o))]> (objs h)
                  /\ arrs h' = arrs h).
Proof.
  intros Ho Hc. simpl. apply wp_bind. eapply wp_getObj; [done|].
  apply wp_bind. destruct (map o) as [m|] eqn:Hm.
  - apply wp_ret. rewrite Hc. apply wp_ret. simpl. split; [|done].
    rewrite set_map_self by done. by rewrite list_insert_id.
  - eapply wp_set_this_map; [done|]. rewrite Hc. apply wp_ret. done.
Qed.

(** The loop that copies the entries of the source. *)
Lemma copy_loop ks h this src o os sm acc :
  src <> this ->
  objs h !! this = Some (set_map o acc) ->
  objs h !! src = Some os -> map os = Some sm ->
  (forall k, k ∈ ks -> is_Some (map_get k sm)) ->
  wp (forEach (fun key =>
                 sm' ← Params.this_map src;
                 a ← unwrap (map_get key sm');
                 m ← Params.this_map this;
                 Params.set_this_map this (map_set key a m)) ks) h
     (fun _ h' =>
        objs h' = <[this := set_map o
                     (fold_left (fun acc k => match map_get k sm with
                                              | Some a => map_set k a acc
                                              | None => acc
                                              end) ks acc)]> (objs h)
        /\ arrs h' = arrs h).
Proof.
  intros Hne. revert h acc.
  induction ks as [|k ks IH]; intros h acc Hthis Hsrc Hsm Hks; simpl.
  - apply wp_ret. split; [|done]. by rewrite list_insert_id.
  - destruct (Hks k) as [a Ha]; [left|]. rewrite Ha.
    apply wp_bind. apply wp_bind. eapply wp_this_map; [done..|].
    apply wp_bind. eapply wp_unwrap; [done|].
    apply wp_bind. eapply wp_this_map; [done..|].
    eapply wp_set_this_map; [done|].
    eapply wp_conseq.
    + apply (IH _ (map_set k a acc)).
      * unfold upd_obj. simpl. apply list_lookup_insert_eq. by eapply lookup_lt_Some.
      * unfold upd_obj. simpl. by rewrite list_lookup_insert_ne.
      * done.
      * intros k' Hk'. apply Hks. by right.
    + intros [] h' [Hobjs Harrs]. simpl in *.
      rewrite Hobjs, Harrs. unfold upd_obj. simpl.
      by rewrite list_insert_insert_eq.
Qed.

Lemma init_fuel_pending f h this src o os us :
  objs h !! this = Some o -> cloneFrom o = Some src -> map o = None ->
  updates o = Some us ->
  objs h !! src = Some os -> cloneFrom os = None ->
  (forall sm, map os = Some sm -> map_ok h sm) ->
  wp (Params.init_fuel (S (S f)) this) h
     (fun _ h' => resolved_from this src o os us h h').
Proof.
  intros Ho Hc Hm Hus Hos Hcs Hsm.
  assert (Hne : src <> this) by (intros ->; congruence).
  set (sm := default [] (map os)).
  assert (Hsmok : map_ok h sm).
  { unfold sm. destruct (map os) as [sm0|]; simpl; [by apply Hsm|].
    repeat split; constructor. }
  change (Params.init_fuel (S (S f)) this) with
    (o0 ← getObj this;
     match map o0 with
     | None => Params.set_this_map this []
     | Some _ => ret tt
     end;;
     match cloneFrom o0 with
     | None => ret tt
     | Some src =>
         Params.init_fuel (S f) src;;
         Params.init_fuel (S f) src;;
         sm ← Params.this_map src;
         forEach (fun key =>
                    sm' ← Params.this_map src;
                    a ← unwrap (map_get key sm');
                    m ← Params.this_map this;
                    Params.set_this_map this (map_set key a m)) (map_keys sm);;
         o1 ← getObj this;
         us ← unwrap (updates o1);
         forEach (Params.applyUpdate this) us;;
         o2 ← getObj this;
         setObj this {| map := map o2; encoder := encoder o2;
                        updates := None; cloneFrom := None |}
     end).
  apply wp_bind. eapply wp_getObj; [done|]. rewrite Hm, Hc.
  apply wp_bind. eapply wp_set_this_map; [done|].
  (* the source, twice *)
  set (h1 := upd_obj this (set_map o []) h).
  assert (Hos1 : objs h1 !! src = Some os).
  { unfold h1, upd_obj. simpl. by rewrite list_lookup_insert_ne. }
  apply wp_bind. eapply wp_conseq; [by apply init_fuel_not_pending|].
  intros [] h2 [Hobjs2 Harrs2]. simpl. fold sm in Hobjs2.
  assert (Hos2 : objs h2 !! src = Some (set_map os sm)).
  { rewrite Hobjs2. apply list_lookup_insert_eq. by eapply lookup_lt_Some. }
  apply wp_bind. eapply wp_conseq; [by apply init_fuel_not_pending|].
  intros [] h3 [Hobjs3 Harrs3].
  change (set_map (set_map os sm) (default [] (map (set_map os sm))))
    with (set_map os sm) in Hobjs3.
  rewrite list_insert_id in Hobjs3 by done.
  rewrite Hobjs2 in Hobjs3. rewrite Harrs2 in Harrs3. simpl in Harrs3.
  clear h2 Hobjs2 Harrs2 Hos2.
  assert (Hos3 : objs h3 !! src = Some (set_map os sm)).
  { rewrite Hobjs3. apply list_lookup_insert_eq. by eapply lookup_lt_Some. }
  assert (Hthis3 : objs h3 !! this = Some (set_map o [])).
  { rewrite Hobjs3. rewrite list_lookup_insert_ne by done.
    unfold h1, upd_obj. simpl. apply list_lookup_insert_eq. by eapply lookup_lt_Some. }
  (* the copy *)
  apply wp_bind. eapply wp_this_map; [done..|].
  apply wp_bind. eapply wp_conseq.
  { eapply (copy_loop (map_keys sm) h3 this src o (set_map os sm) sm []); try done.
    intros k Hk. destruct (map_get k sm) eqn:E; [done|].
    apply map_get_None in E. done. }
  intros [] h4 [Hobjs4 Harrs4]. simpl.
  pose proof (copy_entries [] sm) as Hcopy. simpl in Hcopy.
  rewrite Hcopy in Hobjs4 by apply Hsmok. clear Hcopy.
  assert (Hthis4 : objs h4 !! this = Some (set_map o sm)).
  { rewrite Hobjs4. apply list_lookup_insert_eq. by eapply lookup_lt_Some. }
  (* the replay *)
  apply wp_bind. eapply wp_getObj; [done|].
  apply wp_bind. eapply wp_unwrap; [done|].
  apply wp_bind. eapply wp_conseq.
  { apply (replay_sim us h4 this (set_map o sm) sm); [done|done|].
    eapply map_ok_grow; [|done]. rewrite Harrs4, Harrs3. done. }
  intros [] h5 (m' & Hobjs5 & Hok5 & Hview5 & Hlen5). simpl.
  assert (Hthis5 : objs h5 !! this = Some (set_map o m')).
  { rewrite Hobjs5. apply list_lookup_insert_eq. by eapply lookup_lt_Some. }
  apply wp_bind. eapply wp_getObj; [done|].
  apply wp_setObj. simpl.
  exists m'. unfold upd_obj. simpl. split; [|split; [|split]].
  - rewrite Hobjs5, Hobjs4, Hobjs3. unfold h1, upd_obj. simpl.
    rewrite !list_insert_insert_eq.
    rewrite (list_insert_insert_ne _ src this) by done.
    by rewrite list_insert_insert_eq.
  - eapply map_ok_grow; [|done]. done.
  - transitivity (view h5 m'); [by apply view_ext|].
    rewrite Hview5. f_equal. apply view_ext. intros a _. by rewrite Harrs4, Harrs3.
  - rewrite Harrs4, Harrs3 in Hlen5. done.
Qed.

End InitFacts.

(** ** The parameter container: the invariant is kept *)

Section WfFacts.

Implicit Types (h : heap) (m : jsmap) (o os : HttpParams).

Lemma heap_eta h : {| objs := objs h; arrs := arrs h |} = h.
Proof. by destruct h. Qed.

Lemma heap_eq h1 h2 : objs h1 = objs h2 -> arrs h1 = arrs h2 -> h1 = h2.
Proof. destruct h1, h2; simpl; by intros -> ->. Qed.

Lemma wf_lookup h p o : wf h -> objs h !! p = Some o -> obj_ok h o.
Proof. intros Hwf Ho. unfold wf in Hwf. rewrite Forall_lookup in Hwf. by eapply Hwf. Qed.

Lemma obj_ok_mono h h' o : extends h h' -> obj_ok h o -> obj_ok h' o.
Proof.
  intros [Hlen Hkeep] [Hmap Hclone]. split.
  - destruct (map o); [|done]. by eapply map_ok_grow.
  - destruct (cloneFrom o) as [src|]; [|done].
    destruct Hclone as (Hm & Hus & Hsrc). split; [done|]. split; [done|].
    destruct (objs h !! src) as [os|] eqn:Hos; [|done].
    destruct (Hkeep src os Hos Hsrc) as (os' & -> & Hc'). done.
Qed.

Lemma map_ok_nil h : map_ok h [].
Proof. repeat split; constructor. Qed.

Lemma wf_settle h h' this o m' (others : list HttpParams) :
  wf h -> objs h !! this = Some o ->
  length (arrs h) <= length (arrs h') ->
  map_ok h' m' ->
  objs h' = <[this := settled o m']> others ->
  length others = length (objs h) ->
  (forall p, p <> this -> others !! p = objs h !! p
             \/ exists op, objs h !! p = Some op /\ cloneFrom op = None /\ updates op = None
                           /\ others !! p = Some (set_map op (default [] (map op)))) ->
  wf h'.
Proof.
  intros Hwf Ho Hlen Hok Hobjs Hlenothers Hothers.
  assert (Hext : extends h h').
  { split; [done|]. intros src os Hos Hc. rewrite Hobjs.
    destruct (decide (src = this)) as [->|Hne].
    - eexists. split; [apply list_lookup_insert_eq|done].
      rewrite Hlenothers. by eapply lookup_lt_Some.
    - rewrite list_lookup_insert_ne by done.
      destruct (Hothers src Hne) as [->|(op & Hop & Hcop & _ & ->)]; [by eauto|].
      eexists. split; [done|]. done. }
  unfold wf. rewrite Forall_lookup. intros p o' Ho'. rewrite Hobjs in Ho'.
  destruct (decide (p = this)) as [->|Hne].
  - rewrite list_lookup_insert_eq in Ho'
      by (rewrite Hlenothers; by eapply lookup_lt_Some).
    injection Ho' as <-. split; simpl; done.
  - rewrite list_lookup_insert_ne in Ho' by done.
    destruct (Hothers p Hne) as [Hsame|(op & Hop & Hcop & Huop & Hnew)].
    + rewrite Hsame in Ho'. eapply obj_ok_mono; [done|]. by eapply wf_lookup.
    + rewrite Hnew in Ho'. injection Ho' as <-.
      pose proof (wf_lookup h p op Hwf Hop) as [Hm _].
      split; simpl; [|by rewrite Hcop].
      destruct (map op) as [mp|]; simpl; [by eapply map_ok_grow|apply map_ok_nil].
Qed.

Lemma wp_init this h (Q : unit -> heap -> Prop) :
  wp (Params.init_fuel (S (length (objs h))) this) h Q -> wp (Params.init this) h Q.
Proof. done. Qed.

(** [init] on any instance of a sound store: it returns, the store is
    sound again, and the instance is settled on a map whose view is the
    mapping the instance stood for. *)
Lemma init_spec h this o :
  wf h -> objs h !! this = Some o ->
  wp (Params.init this) h
     (fun _ h' => exists m',
        objs h' !! this = Some (settled o m') /\ map_ok h' m'
        /\ view h' m' = logical h o /\ wf h'
        /\ length (objs h') = length (objs h)).
Proof.
  intros Hwf Ho. pose proof (wf_lookup h this o Hwf Ho) as [Hmap Hclone].
  assert (Hthis : this < length (objs h)) by (by eapply lookup_lt_Some).
  apply wp_init. unfold logical.
  destruct (cloneFrom o) as [src|] eqn:Hc.
  - destruct Hclone as (Hm & [us Hus] & Hsrc).
    destruct (objs h !! src) as [os|] eqn:Hos; [|done].
    assert (Hne : src <> this) by (intros ->; congruence).
    assert (Hlen2 : exists f, length (objs h) = S f).
    { destruct (objs h); simpl in *; [lia|eauto]. }
    destruct Hlen2 as [f Hf]. rewrite Hf.
    pose proof (wf_lookup h src os Hwf Hos) as [Hmaps Hclones].
    rewrite Hsrc in Hclones.
    eapply wp_conseq.
    { eapply (init_fuel_pending f h this src o os us); try done.
      intros sm Hsm. by rewrite Hsm in Hmaps. }
    intros [] h' (m' & Hobjs & Hok & Hview & Hlen). simpl.
    exists m'. split; [|split; [done|split; [|split]]].
    + rewrite Hobjs. apply list_lookup_insert_eq. by rewrite length_insert.
    + rewrite Hview, Hus. done.
    + eapply (wf_settle h h' this o m'); try done.
      * by rewrite length_insert.
      * intros p Hp. destruct (decide (p = src)) as [->|Hps].
        -- right. exists os. repeat split; try done.
           apply list_lookup_insert_eq. by eapply lookup_lt_Some.
        -- left. by rewrite list_lookup_insert_ne.
    + rewrite Hobjs. by rewrite !length_insert.
  - eapply wp_conseq; [by apply init_fuel_not_pending|].
    intros [] h' [Hobjs Harrs]. simpl.
    assert (Hset : set_map o (default [] (map o)) = settled o (default [] (map o))).
    { unfold set_map, settled. by rewrite Hc, Hclone. }
    rewrite Hset in Hobjs.
    assert (Hok' : map_ok h' (default [] (map o))).
    { destruct (map o) as [m|]; simpl; [|apply map_ok_nil].
      eapply map_ok_grow; [|done]. by rewrite Harrs. }
    exists (default [] (map o)). split; [|split; [done|split; [|split]]].
    + rewrite Hobjs. by apply list_lookup_insert_eq.
    + apply view_ext. intros a _. by rewrite Harrs.
    + eapply (wf_settle h h' this o); try done.
      * by rewrite Harrs.
      * intros p Hp. by left.
    + rewrite Hobjs. by rewrite length_insert.
Qed.

End WfFacts.

(** ** The parameter container: what the read operations return *)

Section ReadFacts.

Implicit Types (h : heap) (m : jsmap) (o : HttpParams) (k : string).

(** [init] on a settled instance changes nothing. *)
Lemma init_settled h this o m :
  objs h !! this = Some o -> cloneFrom o = None -> map o = Some m ->
  Params.init this h = Ok (tt, h).
Proof.
  intros Ho Hc Hm.
  destruct (init_fuel_not_pending (length (objs h)) h this o Ho Hc)
    as ([] & h' & Hrun & Hobjs & Harrs).
  unfold Params.init. rewrite Hrun. do 2 f_equal.
  apply heap_eq; [|done]. rewrite Hobjs, Hm. simpl.
  rewrite set_map_self by done. by apply list_insert_id.
Qed.

Lemma wp_init_settled h this o m (Q : unit -> heap -> Prop) :
  objs h !! this = Some o -> cloneFrom o = None -> map o = Some m ->
  Q tt h -> wp (Params.init this) h Q.
Proof. intros Ho Hc Hm HQ. exists tt, h. split; [by eapply init_settled|done]. Qed.

Lemma rebuild_from_keys (am : amap) :
  NoDup am.*1 -> (fun k => (k, default [] (map_get k am))) <$> am.*1 = am.
Proof.
  induction am as [|[k vs] am IH]; simpl; [done|].
  intros [Hk Hnd]%NoDup_cons. rewrite String.eqb_refl. simpl. f_equal.
  rewrite <- (IH Hnd) at 2. apply Forall_fmap_ext_1, Forall_forall.
  intros k' Hk'. destruct (String.eqb_spec k k') as [->|_]; [done|done].
Qed.

Lemma fmap_via_keys {B} (F : string -> list jsprim -> B) (am : amap) :
  NoDup am.*1 ->
  (fun k => F k (default [] (map_get k am))) <$> am.*1 = (fun e => F e.1 e.2) <$> am.
Proof.
  intros Hnd.
  transitivity ((fun e => F e.1 e.2) <$> ((fun k => (k, default [] (map_get k am))) <$> am.*1)).
  - exact (list_fmap_compose (fun k => (k, default [] (map_get k am)))
                             (fun e => F e.1 e.2) am.*1).
  - by rewrite rebuild_from_keys.
Qed.

Lemma view_get_valid h m k a :
  map_ok h m -> map_get k m = Some a ->
  exists l, arrs h !! a = Some l /\ map_get k (view h m) = Some l.
Proof.
  intros Hok Hget. destruct (lookup_arr_valid h a) as [l Hl]; [by eapply map_ok_get|].
  exists l. split; [done|]. rewrite view_map_get, Hget. simpl. by rewrite Hl.
Qed.

Lemma view_get_allocated h m k a :
  Forall (fun a => a < length (arrs h)) m.*2 -> map_get k m = Some a ->
  exists l, arrs h !! a = Some l /\ map_get k (view h m) = Some l.
Proof.
  intros Hv Hget. destruct (lookup_arr_valid h a) as [l Hl].
  { rewrite Forall_forall in Hv. apply Hv.
    apply map_get_Some_elem in Hget. by apply (list_elem_of_fmap_2 snd) in Hget. }
  exists l. split; [done|]. rewrite view_map_get, Hget. simpl. by rewrite Hl.
Qed.

(** The reads of an instance that is not pending and has a map whose
    arrays exist; the arrays need not be distinct. *)
Section Readable.

Variables (h : heap) (this : loc) (o : HttpParams) (m : jsmap).
Hypothesis Ho : objs h !! this = Some o.
Hypothesis Hc : cloneFrom o = None.
Hypothesis Hm : map o = Some m.
Hypothesis Hv : Forall (fun a => a < length (arrs h)) m.*2.

Lemma keys_readable : Params.keys this h = Ok ((view h m).*1, h).
Proof.
  rewrite view_keys.
  assert (wp (Params.keys this) h (fun ks h' => ks = m.*1 /\ h' = h)) as (ks & h' & -> & -> & ->);
    [|done].
  unfold Params.keys. apply wp_bind. eapply wp_init_settled; [done..|].
  apply wp_bind. eapply wp_this_map; [done..|]. by apply wp_ret.
Qed.

Lemma getAll_readable k : Params.getAll this k h = Ok (map_get k (view h m), h).
Proof.
  assert (wp (Params.getAll this k) h (fun r h' => r = map_get k (view h m) /\ h' = h))
    as (r & h' & -> & -> & ->); [|done].
  unfold Params.getAll. apply wp_bind. eapply wp_init_settled; [done..|].
  apply wp_bind. eapply wp_this_map; [done..|].
  destruct (map_get k m) as [a|] eqn:Hget.
  - destruct (view_get_allocated h m k a Hv Hget) as (l & Hl & ->).
    apply wp_bind. eapply wp_getArr; [done|]. by apply wp_ret.
  - apply wp_ret. by rewrite view_map_get, Hget.
Qed.

Lemma has_readable k :
  Params.has this k h = Ok (bool_decide (is_Some (map_get k (view h m))), h).
Proof.
  assert (wp (Params.has this k) h
            (fun r h' => r = bool_decide (is_Some (map_get k (view h m))) /\ h' = h))
    as (r & h' & -> & -> & ->); [|done].
  unfold Params.has. apply wp_bind. eapply wp_init_settled; [done..|].
  apply wp_bind. eapply wp_this_map; [done..|]. apply wp_ret.
  rewrite view_map_get. by destruct (map_get k m).
Qed.

Lemma get_readable k :
  Params.get this k h =
    Ok (match map_get k (view h m) with
        | Some [] => Params.GUndefined
        | Some (v :: _) => Params.GValue v
        | None => Params.GNull
        end, h).
Proof.
  assert (wp (Params.get this k) h
            (fun r h' => r = match map_get k (view h m) with
                             | Some [] => Params.GUndefined
                             | Some (v :: _) => Params.GValue v
                             | None => Params.GNull
                             end /\ h' = h))
    as (r & h' & -> & -> & ->); [|done].
  unfold Params.get. apply wp_bind. eapply wp_init_settled; [done..|].
  apply wp_bind. eapply wp_this_map; [done..|].
  destruct (map_get k m) as [a|] eqn:Hget.
  - destruct (view_get_allocated h m k a Hv Hget) as (l & Hl & ->).
    apply wp_bind. eapply wp_getArr; [done|]. by apply wp_ret.
  - apply wp_ret. by rewrite view_map_get, Hget.
Qed.

End Readable.

Section Settled.

Variables (h : heap) (this : loc) (o : HttpParams) (m : jsmap).
Hypothesis Ho : objs h !! this = Some o.
Hypothesis Hc : cloneFrom o = None.
Hypothesis Hm : map o = Some m.
Hypothesis Hok : map_ok h m.

Lemma keys_settled : Params.keys this h = Ok ((view h m).*1, h).
Proof. apply (keys_readable h this o m Ho Hc Hm). Qed.

Lemma getAll_settled k : Params.getAll this k h = Ok (map_get k (view h m), h).
Proof. apply (getAll_readable h this o m Ho Hc Hm). apply Hok. Qed.

Lemma has_settled k :
  Params.has this k h = Ok (bool_decide (is_Some (map_get k (view h m))), h).
Proof. apply (has_readable h this o m Ho Hc Hm). Qed.

Lemma get_settled k :
  Params.get this k h =
    Ok (match map_get k (view h m) with
        | Some [] => Params.GUndefined
        | Some (v :: _) => Params.GValue v
        | None => Params.GNull
        end, h).
Proof. apply (get_readable h this o m Ho Hc Hm). apply Hok. Qed.

Lemma mapM_settled {B} (f : string -> M B) (g : string -> B) ks :
  (forall k, k ∈ ks -> f k h = Ok (g k, h)) ->
  Params.mapM f ks h = Ok (g <$> ks, h).
Proof.
  induction ks as [|k ks IH]; intros Hf; simpl; [done|].
  unfold mbind, M_bind, bind. rewrite Hf by left.
  rewrite IH; [done|]. intros k' Hk'. apply Hf. by right.
Qed.

Lemma snapshot_settled : Mapping.snapshot this h = Ok (view h m, h).
Proof.
  unfold Mapping.snapshot. unfold mbind, M_bind, bind at 1. rewrite keys_settled.
  rewrite (mapM_settled _ (fun k => (k, default [] (map_get k (view h m))))).
  - rewrite rebuild_from_keys; [done|]. rewrite view_keys. apply Hok.
  - intros k _. unfold bind. by rewrite getAll_settled.
Qed.

Lemma toString_settled :
  Params.toString this h = Ok (serialize (encoder o) (view h m), h).
Proof.
  unfold Params.toString. unfold mbind, M_bind.
  unfold bind at 1. rewrite (init_settled h this o m) by done.
  unfold bind at 1. rewrite keys_settled.
  unfold bind at 1. unfold getObj. rewrite Ho. simpl.
  unfold bind at 1.
  rewrite (mapM_settled _
             (fun key => join "&" ((fun value => encodeKey (encoder o) key +:+ "=" +:+
                                                 encodeValue (encoder o) (ToString value))
                                     <$> default [] (map_get key (view h m))))).
  - unfold ret, serialize. do 4 f_equal.
    apply (fmap_via_keys
             (fun key l => join "&" ((fun value => encodeKey (encoder o) key +:+ "=" +:+
                                                   encodeValue (encoder o) (ToString value))
                                       <$> l))).
    rewrite view_keys. apply Hok.
  - intros k Hk. rewrite view_keys in Hk.
    destruct (map_get k m) as [a|] eqn:Hget.
    2:{ apply map_get_None in Hget. done. }
    destruct (view_get_valid h m k a Hok Hget) as (l & Hl & ->).
    unfold bind, Params.this_map, mbind, M_bind, bind, getObj. rewrite Ho. simpl.
    rewrite Hm. simpl. rewrite Hget. simpl. unfold getArr. rewrite Hl. done.
Qed.

End Settled.


End ReadFacts.

Section ReadSpec.

Implicit Types (h : heap) (o : HttpParams) (k : string).

Lemma bind_eq {A B} (c : M A) (f : A -> M B) h h' :
  c h = c h' -> (c ≫= f) h = (c ≫= f) h'.
Proof. intros Hc. unfold mbind, M_bind, bind. by rewrite Hc. Qed.

(** Every read operation, on any instance of a sound store: it returns
    what the mapping the instance stands for determines, and leaves a
    sound store in which the instance is settled. *)
Lemma reads_spec h this o :
  wf h -> objs h !! this = Some o ->
  exists h',
    wf h' /\ length (objs h') = length (objs h)
    /\ NoDup (logical h o).*1
    /\ Params.init this h = Ok (tt, h')
    /\ Mapping.snapshot this h = Ok (logical h o, h')
    /\ Params.toString this h = Ok (serialize (encoder o) (logical h o), h')
    /\ Params.keys this h = Ok ((logical h o).*1, h')
    /\ (forall k, Params.getAll this k h = Ok (map_get k (logical h o), h'))
    /\ (forall k, Params.has this k h =
                  Ok (bool_decide (is_Some (map_get k (logical h o))), h'))
    /\ (forall k, Params.get this k h =
                  Ok (match map_get k (logical h o) with
                      | Some [] => Params.GUndefined
                      | Some (v :: _) => Params.GValue v
                      | None => Params.GNull
                      end, h')).
Proof.
  intros Hwf Ho.
  destruct (init_spec h this o Hwf Ho)
    as ([] & h' & Hinit & m' & Ho' & Hok' & Hview & Hwf' & Hlen).
  exists h'. rewrite <- Hview.
  assert (Hinit' : Params.init this h = Params.init this h').
  { rewrite Hinit. symmetry. by apply (init_settled h' this _ m' Ho'). }
  assert (Hkeys : Params.keys this h = Ok ((view h' m').*1, h')).
  { transitivity (Params.keys this h').
    - unfold Params.keys. by apply bind_eq.
    - by eapply keys_settled. }
  repeat split; try done.
  - rewrite view_keys. apply Hok'.
  - transitivity (Mapping.snapshot this h').
    + unfold Mapping.snapshot. apply bind_eq.
      rewrite Hkeys. symmetry. by eapply keys_settled.
    + by eapply snapshot_settled.
  - transitivity (Params.toString this h').
    + unfold Params.toString. by apply bind_eq.
    + by apply (toString_settled h' this (settled o m') m').
  - intros k. transitivity (Params.getAll this k h').
    + unfold Params.getAll. by apply bind_eq.
    + by eapply getAll_settled.
  - intros k. transitivity (Params.has this k h').
    + unfold Params.has. by apply bind_eq.
    + by eapply has_settled.
  - intros k. transitivity (Params.get this k h').
    + unfold Params.get. by apply bind_eq.
    + by eapply get_settled.
Qed.

End ReadSpec.

(** ** The parameter container: [clone] *)

Section CloneFacts.

Implicit Types (h : heap) (o : HttpParams) (us : list Update).

Lemma replay_app us1 us2 (am : amap) : replay (us1 ++ us2) am = replay us2 (replay us1 am).
Proof. unfold replay. by rewrite fold_left_app. Qed.

(** [clone] only adds the new instance, which is pending; the store stays
    sound, and the new instance stands for the replay of the given
    updates over the mapping the receiver stands for. *)
Lemma clone_spec h this o update :
  wf h -> objs h !! this = Some o ->
  let q := length (objs h) in
  let h1 := new_obj (cloned this o update) h in
  Params.clone this update h = Ok (q, h1)
  /\ wf h1
  /\ objs h1 !! q = Some (cloned this o update)
  /\ logical h1 (cloned this o update) = replay (default [] update) (logical h o).
Proof.
  intros Hwf Ho q h1.
  pose proof (wf_lookup h this o Hwf Ho) as [Hmap Hclone].
  assert (Hrun : Params.clone this update h = Ok (q, h1)).
  { unfold Params.clone, mbind, M_bind, bind, getObj. rewrite Ho. simpl.
    rewrite list_lookup_middle by done. simpl. unfold setObj. simpl.
    do 2 f_equal. unfold h1, new_obj, cloned, q. f_equal.
    rewrite insert_app_r_alt by lia. by rewrite Nat.sub_diag. }
  assert (Hobjs1 : objs h1 = objs h ++ [cloned this o update]) by done.
  assert (Harrs1 : arrs h1 = arrs h) by done.
  clearbody h1.
  assert (Hq : objs h1 !! q = Some (cloned this o update)).
  { rewrite Hobjs1. by apply list_lookup_middle. }
  assert (Hold : forall p op, objs h !! p = Some op -> objs h1 !! p = Some op).
  { intros p op Hp. rewrite Hobjs1. by apply lookup_app_l_Some. }
  split; [done|]. split; [|split; [done|]].
  - assert (Hext : extends h h1).
    { split; [by rewrite Harrs1|]. intros src os Hos Hc.
      exists os. split; [by apply Hold|done]. }
    unfold wf. rewrite Hobjs1.
    apply Forall_app. split.
    + eapply Forall_impl; [exact Hwf|]. intros op. by apply obj_ok_mono.
    + apply Forall_singleton. split; simpl; [done|].
      split; [done|]. split; [by eexists|].
      destruct (cloneFrom o) as [src|] eqn:Hc; simpl.
      * destruct Hclone as (_ & _ & Hsrc).
        destruct (objs h !! src) as [os|] eqn:Hos; [|done].
        by rewrite (Hold src os Hos).
      * by rewrite (Hold this o Ho).
  - unfold logical at 1. simpl.
    assert (Hview : forall m, view h1 m = view h m).
    { intros m. apply view_ext. intros a _. by rewrite Harrs1. }
    rewrite Hview. unfold logical.
    destruct (cloneFrom o) as [src|] eqn:Hc; simpl.
    + destruct Hclone as (_ & [us0 Hus0] & Hsrc).
      destruct (objs h !! src) as [os|] eqn:Hos; [|done].
      rewrite (Hold src os Hos). rewrite Hus0. simpl.
      destruct update as [us|]; simpl; [by rewrite replay_app|done].
    + rewrite (Hold this o Ho). rewrite Hclone. simpl.
      destruct update as [us|]; done.
Qed.

(** The mapping read from a fresh clone. *)
Lemma clone_then_read h this o update :
  wf h -> objs h !! this = Some o ->
  let am := replay (default [] update) (logical h o) in
  NoDup am.*1
  /\ run (q ← Params.clone this update; Mapping.snapshot q) h = Ok am
  /\ run (q ← Params.clone this update; Params.toString q) h = Ok (serialize (encoder o) am)
  /\ run (q ← Params.clone this update; Params.keys q) h = Ok am.*1
  /\ (forall k, run (q ← Params.clone this update; Params.getAll q k) h = Ok (map_get k am))
  /\ (forall k, run (q ← Params.clone this update; Params.has q k) h
                = Ok (bool_decide (is_Some (map_get k am)))).
Proof.
  intros Hwf Ho am.
  destruct (clone_spec h this o update Hwf Ho) as (Hclone & Hwf1 & Hq & Hlog).
  destruct (reads_spec _ _ _ Hwf1 Hq)
    as (h2 & _ & _ & Hnd & _ & Hsnap & Hstr & Hkeys & HgetAll & Hhas & _).
  rewrite Hlog in *. fold am in Hnd, Hsnap, Hstr, Hkeys, HgetAll, Hhas.
  split; [done|].
  unfold run, mbind, M_bind, bind. rewrite Hclone.
  rewrite Hsnap, Hstr, Hkeys. repeat split; try done.
  - intros k. by rewrite HgetAll.
  - intros k. by rewrite Hhas.
Qed.

End CloneFacts.

(** ** The parameter container: one update on a mapping *)

Section StepFacts.

Implicit Types (am : amap) (k : string) (v : jsprim) (l : list jsprim).















End StepFacts.

Section UpdateFacts.

Implicit Types (h : heap) (o : HttpParams) (u : Update).

Lemma run_bind {A B} (c : M A) (f : A -> M B) h a h' :
  c h = Ok (a, h') -> run (c ≫= f) h = run (f a) h'.
Proof. intros Hc. unfold run, mbind, M_bind, bind. by rewrite Hc. Qed.


End UpdateFacts.

(** C3 on the code: what [delete(k, v)] yields depends on what was read
    before.  With [r] built from [a=1], [p = r.append("a", "2")] and
    [q = p.delete("a", "2")], the container [q] read on its own has the
    value [1] for [a], as the update semantics says.  Read after [p], it
    still has the deleted value: reading [p] pushed [2] onto the array of
    [r], from which [q] replays its own log (append [2], delete the first
    [2]), so [q] shows [1] and [2]. *)
Theorem a_deleted_value_is_still_there_after_the_receiver_was_read :
  run (r ← Params.new_HttpParams {| Params.fromString := Some "a=1";
                                    Params.fromObject := None;
                                    Params.options_encoder := None |};
       p ← Params.append r "a" (PStr "2");
       q ← Params.delete p "a" (Some (PStr "2"));
       Params.getAll q "a") empty_heap
  = Ok (Some [PStr "1"])
  /\ run (r ← Params.new_HttpParams {| Params.fromString := Some "a=1";
                                       Params.fromObject := None;
                                       Params.options_encoder := None |};
          p ← Params.append r "a" (PStr "2");
          q ← Params.delete p "a" (Some (PStr "2"));
          receiver ← Params.getAll p "a";
          derived ← Params.getAll q "a";
          ret (receiver, derived)) empty_heap
     = Ok (Some [PStr "1"; PStr "2"], Some [PStr "1"; PStr "2"]).
Proof. split; vm_compute; reflexivity. Qed.



(** [delete(k, v)] with an absent [v] is not always without effect: on a
    container built from [{a: []}] the key [a] is there, and
    [delete("a", "x")] yields a container without it. *)
Lemma delete_of_an_absent_value_is_not_always_a_no_op :
  run (empty ← allocArr [];
       p ← Params.new_HttpParams {| Params.fromString := None;
                                    Params.fromObject := Some [("a", Params.VArray empty)];
                                    Params.options_encoder := None |};
       before ← Params.has p "a";
       vs ← Params.getAll p "a";
       q ← Params.delete p "a" (Some (PStr "x"));
       after ← Params.has q "a";
       ret (before, vs, after)) empty_heap
  = Ok (true, Some [], false).
Proof. vm_compute. reflexivity. Qed.

(** ** The parameter container: the constructor *)

Section ConstructorFacts.

Implicit Types (h : heap) (m : jsmap) (am : amap).

Lemma fresh_map_set n h h' m k a :
  fresh_map n h m -> length (arrs h) <= a -> a < length (arrs h') ->
  length (arrs h) <= length (arrs h') -> n <= length (arrs h) ->
  fresh_map n h' (map_set k a m).
Proof.
  intros [Hok Hfresh] Ha Ha' Hlen Hn. split; [by eapply map_ok_set_fresh|].
  rewrite Forall_forall in Hfresh |- *. intros b Hb.
  assert (b = a \/ b ∈ m.*2) as [->|Hin]; [|lia|by apply Hfresh].
  clear -Hb. induction m as [|[k' a'] m IH]; simpl in *.
  - apply list_elem_of_singleton in Hb. by left.
  - destruct (String.eqb k' k); simpl in Hb.
    + apply elem_of_cons in Hb as [->|Hb]; [by left|]. right. by right.
    + apply elem_of_cons in Hb as [->|Hb]; [right; left|].
      destruct (IH Hb) as [->|Hin]; [by left|]. right. by right.
Qed.

(** One piece of the raw string. *)
Lemma push_value_sim n h m k v :
  fresh_map n h m -> n <= length (arrs h) ->
  wp (list ← match map_get k m with
               | Some a => ret a
               | None => allocArr []
               end;
      push list v;;
      ret (map_set k list m)) h
     (fun m' h' => built n h (add_value k v (view h m)) m' h').
Proof.
  intros [Hok Hfresh] Hn. apply wp_bind. unfold add_value.
  destruct (map_get k m) as [a|] eqn:Hget.
  - apply wp_ret. destruct (view_get_valid h m k a Hok Hget) as (l & Hl & Hv).
    apply wp_bind. eapply wp_push; [exact Hl|]. apply wp_ret.
    rewrite (map_set_same k m a) by done. unfold upd_arr. simpl.
    assert (Hna : n <= a).
    { rewrite Forall_forall in Hfresh. apply Hfresh.
      apply map_get_Some_elem in Hget. by apply (list_elem_of_fmap_2 snd) in Hget. }
    unfold built. simpl.
    split; [done|]. split; [by rewrite length_insert|]. split; [|split].
    + intros b Hb. apply list_lookup_insert_ne. lia.
    + split; [|done]. eapply map_ok_grow; [|done]. simpl. by rewrite length_insert.
    + rewrite Hv. simpl. eapply view_write; [done|apply Hok|..].
      * simpl. apply list_lookup_insert_eq. by eapply lookup_lt_Some.
      * intros b Hb. simpl. by apply list_lookup_insert_ne.
  - apply wp_allocArr. apply wp_bind.
    eapply (wp_push _ _ []); [simpl; by apply list_lookup_middle|]. apply wp_ret.
    unfold upd_arr, new_arr. simpl.
    assert (Harr : <[length (arrs h) := [v]]> (arrs h ++ [[]]) = arrs h ++ [[v]]).
    { rewrite insert_app_r_alt by lia. by rewrite Nat.sub_diag. }
    unfold built. simpl. rewrite Harr.
    split; [done|]. split; [rewrite length_app; lia|]. split; [|split].
    + intros b Hb. apply lookup_app_l. lia.
    + eapply fresh_map_set; [done|done|..]; simpl; rewrite ?length_app; simpl; lia.
    + rewrite view_map_set. simpl. rewrite list_lookup_middle by done. simpl.
      rewrite view_map_get, Hget. simpl. f_equal.
      apply view_ext. intros b Hb. simpl. apply lookup_app_l.
      destruct Hok as (_ & _ & Hv). rewrite Forall_forall in Hv. by apply Hv.
Qed.

Lemma built_trans n h h1 h2 am1 am2 m1 m2 :
  built n h am1 m1 h1 -> built n h1 am2 m2 h2 -> built n h am2 m2 h2.
Proof.
  intros (Ho1 & Hl1 & Hk1 & _ & _) (Ho2 & Hl2 & Hk2 & Hf2 & Hv2).
  split; [congruence|]. split; [lia|]. split; [|done].
  intros a Ha. rewrite Hk2 by done. by apply Hk1.
Qed.

(** The loop of [paramParser]. *)
Lemma parse_loop codec n pieces h m :
  fresh_map n h m -> n <= length (arrs h) ->
  let body := fun (m : jsmap) (param : string) =>
    '(key, val) ← lift (Params.decode_pair codec param);
    list ← match map_get key m with
            | Some a => ret a
            | None => allocArr []
            end;
    push list (PStr val);;
    ret (map_set key list m) in
  match parse_pieces codec pieces (view h m) with
  | Ok am => wp (foldM body m pieces) h (fun m' h' => built n h am m' h')
  | Throw e => foldM body m pieces h = Throw e
  end.
Proof.
  intros Hfresh Hn body. revert h m Hfresh Hn.
  induction pieces as [|piece pieces IH]; intros h m Hfresh Hn; simpl.
  - apply wp_ret. repeat split; try done; apply Hfresh.
  - destruct (Params.decode_pair codec piece) as [[key val]|e] eqn:Hdec.
    2:{ unfold mbind, M_bind, bind, body, mbind, M_bind, bind, lift. by rewrite Hdec. }
    destruct (push_value_sim n h m key (PStr val) Hfresh Hn)
      as (m1 & h1 & Hrun1 & Hbuilt1).
    assert (Hstep : body m piece h = Ok (m1, h1)).
    { unfold body, mbind, M_bind. unfold bind at 1. unfold lift. rewrite Hdec. exact Hrun1. }
    pose proof Hbuilt1 as (Ho1 & Hl1 & Hk1 & Hf1 & Hv1).
    specialize (IH h1 m1 Hf1 ltac:(lia)). rewrite Hv1 in IH.
    destruct (parse_pieces codec pieces (add_value key (PStr val) (view h m))) as [am|e].
    + apply wp_bind. exists m1, h1. split; [done|].
      eapply wp_conseq; [exact IH|]. intros m2 h2 Hb2. by eapply built_trans.
    + unfold mbind, M_bind, bind. by rewrite Hstep.
Qed.

Lemma fresh_map_nil n h : fresh_map n h [].
Proof. split; [apply map_ok_nil|constructor]. Qed.

Lemma built_refl n h : built n h [] [] h.
Proof. repeat split; try done; try constructor. Qed.

(** [paramParser] returns a fresh map whose view is the parsed mapping,
    or throws what decoding throws. *)
Lemma paramParser_spec codec s h :
  match parse codec s with
  | Ok am => wp (Params.paramParser s codec) h
               (fun m h' => built (length (arrs h)) h am m h')
  | Throw e => Params.paramParser s codec h = Throw e
  end.
Proof.
  unfold parse, Params.paramParser.
  destruct (0 <? String.length s)%nat.
  - apply (parse_loop codec (length (arrs h)) _ h []); [apply fresh_map_nil|done].
  - apply wp_ret. apply built_refl.
Qed.

Lemma map_set_vals k a m b : b ∈ (map_set k a m).*2 -> b = a \/ b ∈ m.*2.
Proof.
  induction m as [|[k' a'] m IH]; simpl.
  - intros Hb. apply list_elem_of_singleton in Hb. by left.
  - destruct (String.eqb k' k); simpl; intros Hb.
    + apply elem_of_cons in Hb as [->|Hb]; [by left|]. right. by right.
    + apply elem_of_cons in Hb as [->|Hb]; [right; left|].
      destruct (IH Hb) as [->|Hin]; [by left|]. right. by right.
Qed.

Lemma map_set_vals_NoDup k a m : NoDup m.*2 -> a ∉ m.*2 -> NoDup (map_set k a m).*2.
Proof.
  induction m as [|[k' a'] m IH]; simpl; intros Hnd Ha.
  - apply NoDup_singleton.
  - apply NoDup_cons in Hnd as [Hn Hnd]. apply not_elem_of_cons in Ha as [Hne Ha].
    destruct (String.eqb k' k); simpl.
    + by apply NoDup_cons.
    + apply NoDup_cons. split; [|by apply IH].
      intros Hin. apply map_set_vals in Hin as [->|Hin]; done.
Qed.

Lemma allocated_scalar h key v fo :
  allocated h ((key, Params.VScalar v) :: fo) <-> allocated h fo.
Proof. done. Qed.

Lemma allocated_array h key a fo :
  allocated h ((key, Params.VArray a) :: fo) <-> a < length (arrs h) /\ allocated h fo.
Proof. unfold allocated. cbn. by rewrite Forall_cons. Qed.

Lemma allocated_mono h h' fo :
  length (arrs h) <= length (arrs h') -> allocated h fo -> allocated h' fo.
Proof.
  intros Hlen Hall. unfold allocated in *.
  eapply Forall_impl; [exact Hall|]. intros a Ha. cbn beta in *. lia.
Qed.

(** What a [fromObject] map stands for does not change when the store
    grows. *)
Lemma object_fold_ext h h' fo am :
  allocated h fo ->
  (forall a, a < length (arrs h) -> arrs h' !! a = arrs h !! a) ->
  fold_left (fun am (e : string * Params.objval) =>
               map_set e.1 (object_values h' e.2) am) fo am
  = fold_left (fun am (e : string * Params.objval) =>
                 map_set e.1 (object_values h e.2) am) fo am.
Proof.
  intros Hall Hkept. revert am.
  induction fo as [|[key [v|a]] fo IH]; intros am; simpl; [done|by apply IH|].
  apply allocated_array in Hall as [Ha Hall].
  rewrite (Hkept a Ha). by apply IH.
Qed.

(** The loop over a [fromObject] map whose arrays exist: the map it
    builds has distinct keys and refers to arrays that exist, each key to
    the array given for it or to a fresh one; no array that existed is
    written.  The arrays of the map are distinct when those of the
    object are. *)
Lemma object_loop fo h m :
  NoDup m.*1 -> Forall (fun a => a < length (arrs h)) m.*2 -> allocated h fo ->
  wp (foldM (fun (m : jsmap) '(key, value) =>
               a ← match value with
                    | Params.VScalar v => allocArr [v]
                    | Params.VArray a => ret a
                    end;
               ret (map_set key a m)) m fo) h
     (fun m' h' =>
        objs h' = objs h /\ length (arrs h) <= length (arrs h')
        /\ (forall a, a < length (arrs h) -> arrs h' !! a = arrs h !! a)
        /\ NoDup m'.*1 /\ Forall (fun a => a < length (arrs h')) m'.*2
        /\ view h' m' = fold_left (fun am (e : string * Params.objval) =>
                                     map_set e.1 (object_values h e.2) am) fo (view h m)
        /\ (NoDup m.*2 -> NoDup (arrays_of fo) ->
            (forall a, a ∈ m.*2 -> a ∉ arrays_of fo) -> NoDup m'.*2)).
Proof.
  revert h m. induction fo as [|[key [v|a]] fo IH]; intros h m Hk Hv Hall.
  - apply wp_ret. by split_and!.
  - cbn [foldM]. apply wp_bind. apply wp_bind. apply wp_allocArr. apply wp_ret.
    set (h1 := new_arr [v] h). set (m1 := map_set key (length (arrs h)) m).
    assert (Hlen1 : length (arrs h1) = S (length (arrs h))).
    { unfold h1, new_arr. simpl. rewrite length_app. simpl. lia. }
    assert (Hkept1 : forall b, b < length (arrs h) -> arrs h1 !! b = arrs h !! b).
    { intros b Hb. unfold h1, new_arr. simpl. by apply lookup_app_l. }
    assert (Hfresh : length (arrs h) ∉ m.*2).
    { intros Hin. rewrite Forall_forall in Hv. specialize (Hv _ Hin). lia. }
    assert (Hv1 : Forall (fun b => b < length (arrs h1)) m1.*2).
    { apply Forall_forall. intros b Hb. apply map_set_vals in Hb as [->|Hb]; [lia|].
      rewrite Forall_forall in Hv. specialize (Hv _ Hb). lia. }
    apply allocated_scalar in Hall.
    assert (Hall1 : allocated h1 fo) by (apply (allocated_mono h); [lia|done]).
    assert (Hview1 : view h1 m1 = map_set key [v] (view h m)).
    { unfold m1. rewrite view_map_set. f_equal.
      - unfold h1, new_arr. simpl. by rewrite list_lookup_middle.
      - apply view_ext. intros b Hb. apply Hkept1.
        rewrite Forall_forall in Hv. by apply Hv. }
    eapply wp_conseq; [apply (IH h1 m1 (map_set_keys_NoDup _ _ _ Hk) Hv1 Hall1)|].
    intros m' h' (Ho & Hl & Hkept & Hk' & Hv' & Hview & Hnd).
    split; [done|]. split; [lia|]. split; [|split; [done|split; [done|split]]].
    + intros b Hb. rewrite Hkept by lia. by apply Hkept1.
    + rewrite Hview, Hview1. cbn [fold_left fst snd object_values].
      by apply object_fold_ext.
    + intros Hndm Hndf Hdis. apply Hnd.
      * by apply map_set_vals_NoDup.
      * done.
      * intros b Hb Hin. apply map_set_vals in Hb as [->|Hb].
        -- unfold allocated in Hall. rewrite Forall_forall in Hall.
           specialize (Hall _ Hin). lia.
        -- by apply (Hdis b Hb).
  - cbn [foldM]. apply wp_bind. apply wp_bind. apply wp_ret. apply wp_ret.
    apply allocated_array in Hall as [Ha Hall'].
    set (m1 := map_set key a m).
    assert (Hv1 : Forall (fun b => b < length (arrs h)) m1.*2).
    { apply Forall_forall. intros b Hb. apply map_set_vals in Hb as [->|Hb]; [done|].
      rewrite Forall_forall in Hv. by apply Hv. }
    eapply wp_conseq; [apply (IH h m1 (map_set_keys_NoDup _ _ _ Hk) Hv1 Hall')|].
    intros m' h' (Ho & Hl & Hkept & Hk' & Hv' & Hview & Hnd).
    split; [done|]. split; [done|]. split; [done|]. split; [done|]. split; [done|].
    split.
    + rewrite Hview. unfold m1. by rewrite view_map_set.
    + intros Hndm Hndf Hdis. cbn in Hndf. apply NoDup_cons in Hndf as [Hna Hndf].
      assert (Ham : a ∉ m.*2).
      { intros Hin. apply (Hdis a Hin). cbn. left. }
      apply Hnd.
      * by apply map_set_vals_NoDup.
      * done.
      * intros b Hb Hin. apply map_set_vals in Hb as [->|Hb]; [done|].
        apply (Hdis b Hb). cbn. by right.
Qed.

(** The loop over a [fromObject] map never throws. *)
Lemma object_loop_returns fo h m :
  exists m' h',
    foldM (fun (m : jsmap) '(key, value) =>
             a ← match value with
                  | Params.VScalar v => allocArr [v]
                  | Params.VArray a => ret a
                  end;
             ret (map_set key a m)) m fo h = Ok (m', h').
Proof.
  revert h m. induction fo as [|[key [v|a]] fo IH]; intros h m.
  - by eexists _, _.
  - cbn [foldM]. unfold mbind, M_bind, bind. simpl. apply IH.
  - cbn [foldM]. unfold mbind, M_bind, bind. simpl. apply IH.
Qed.

End ConstructorFacts.

Section NewFacts.

Implicit Types (h : heap) (o : HttpParams) (options : Params.HttpParamsOptions).

Lemma wf_new_obj h h' o :
  wf h -> objs h' = objs h ++ [o] -> length (arrs h) <= length (arrs h') ->
  cloneFrom o = None -> updates o = None ->
  (forall m, map o = Some m -> map_ok h' m) ->
  wf h'.
Proof.
  intros Hwf Hobjs Hlen Hc Hu Hm.
  assert (Hext : extends h h').
  { split; [done|]. intros src os Hos Hcs. exists os. split; [|done].
    rewrite Hobjs. by apply lookup_app_l_Some. }
  unfold wf. rewrite Hobjs. apply Forall_app. split.
  - eapply Forall_impl; [exact Hwf|]. intros op. by apply obj_ok_mono.
  - apply Forall_singleton. split.
    + destruct (map o) as [m|]; [by apply Hm|done].
    + by rewrite Hc.
Qed.

(** The constructor on a sound store: it throws what [constructed] says,
    or adds one instance, not pending, that stands for the mapping
    [constructed] says; the store stays sound and the arrays it had are
    as they were. *)
Lemma new_HttpParams_spec h options :
  wf h -> object_ok h (default [] (Params.fromObject options)) ->
  match constructed h options with
  | Ok am =>
      exists o h',
        Params.new_HttpParams options h = Ok (length (objs h), h')
        /\ wf h' /\ objs h' = objs h ++ [o]
        /\ cloneFrom o = None
        /\ encoder o = default Params.HttpClientDefaults_encoder (Params.options_encoder options)
        /\ logical h' o = am
        /\ (forall a, a < length (arrs h) -> arrs h' !! a = arrs h !! a)
  | Throw e => Params.new_HttpParams options h = Throw e
  end.
Proof.
  intros Hwf Hobj. unfold constructed, Params.new_HttpParams.
  set (enc := default Params.HttpClientDefaults_encoder (Params.options_encoder options)).
  assert (Hfinish : forall (c : M jsmap) am,
    wp c h (fun m h' => objs h' = objs h /\ length (arrs h) <= length (arrs h')
                        /\ (forall a, a < length (arrs h) -> arrs h' !! a = arrs h !! a)
                        /\ map_ok h' m /\ view h' m = am) ->
    exists o h',
      (m ← c; allocObj {| map := Some m; encoder := enc; updates := None; cloneFrom := None |}) h
        = Ok (length (objs h), h')
      /\ wf h' /\ objs h' = objs h ++ [o] /\ cloneFrom o = None /\ encoder o = enc
      /\ logical h' o = am
      /\ (forall a, a < length (arrs h) -> arrs h' !! a = arrs h !! a)).
  { intros c am (m & h1 & Hrun & Ho1 & Hl1 & Hk1 & Hok1 & Hv1).
    exists {| map := Some m; encoder := enc; updates := None; cloneFrom := None |},
           (new_obj {| map := Some m; encoder := enc; updates := None; cloneFrom := None |} h1).
    split.
    { unfold mbind, M_bind, bind. rewrite Hrun. unfold allocObj, new_obj. by rewrite Ho1. }
    unfold new_obj. simpl. rewrite Ho1.
    split; [|split; [done|split; [done|split; [done|split; [|done]]]]].
    - eapply (wf_new_obj h); simpl; [done|reflexivity|done|done|done|].
      intros m0 [= <-]. done.
    - unfold logical. simpl. rewrite <- Hv1. by apply view_ext. }
  destruct (Params.truthy_string (Params.fromString options)).
  - destruct (Params.fromObject options) as [fo|]; [done|].
    pose proof (paramParser_spec enc (default EmptyString (Params.fromString options)) h) as Hp.
    destruct (parse enc (default EmptyString (Params.fromString options))) as [am|e].
    + apply Hfinish. eapply wp_conseq; [exact Hp|].
      intros m h' (Ho1 & Hl1 & Hk1 & [Hok1 _] & Hv1). done.
    + unfold mbind, M_bind, bind. by rewrite Hp.
  - destruct (Params.fromObject options) as [fo|].
    + apply Hfinish. simpl in Hobj. destruct Hobj as [Hnd Hall].
      eapply wp_conseq; [apply (object_loop fo h [] (NoDup_nil_2) (Forall_nil_2 _) Hall)|].
      intros m h' (Ho1 & Hl1 & Hk1 & Hkeys & Hv & Hview & Hnd').
      split; [done|]. split; [done|]. split; [done|]. split; [|done].
      split; [done|]. split; [|done].
      apply Hnd'; [apply NoDup_nil_2|done|]. intros a Ha. by apply elem_of_nil in Ha.
    + exists {| map := None; encoder := enc; updates := None; cloneFrom := None |},
             (new_obj {| map := None; encoder := enc; updates := None; cloneFrom := None |} h).
      split; [reflexivity|]. unfold new_obj. simpl.
      split; [|split; [done|split; [done|split; [done|split; [done|done]]]]].
      eapply (wf_new_obj h); simpl; done.
Qed.

Lemma wf_empty : wf empty_heap.
Proof. constructor. Qed.

Lemma object_ok_nil h : object_ok h [].
Proof. split; [apply NoDup_nil_2|apply Forall_nil_2]. Qed.

End NewFacts.

(** ** The default codec: what decoding throws *)

Section DecodeThrows.

Lemma tokenize_throws s e : tokenize s = Throw e -> e = URIError.
Proof.
  remember (String.length s) as n eqn:Hn. revert s Hn.
  induction n as [n IH] using lt_wf_ind. intros s Hn. destruct s as [|c s1]; simpl; [done|].
  destruct (Ascii.eqb c "%").
  - destruct s1 as [|h1 [|h2 rest]]; try (by intros [= <-]).
    destruct (hex_value h1), (hex_value h2); try (by intros [= <-]).
    destruct (tokenize rest) eqn:E; [done|]. intros [= <-].
    eapply (IH (String.length rest)); [|reflexivity|exact E]. simpl in Hn. lia.
  - destruct (tokenize s1) eqn:E; [done|]. intros [= <-].
    eapply (IH (String.length s1)); [|reflexivity|exact E]. simpl in Hn. lia.
Qed.

Lemma of_octets_throws l k e :
  (forall e', k = Throw e' -> e' = URIError) -> of_octets l k = Throw e -> e = URIError.
Proof.
  intros Hk. unfold of_octets. destruct (valid_utf8_seq l); [|by intros [= <-]].
  destruct k; [done|]. intros [= <-]. by apply Hk.
Qed.

Lemma assemble_throws ts e : assemble ts = Throw e -> e = URIError.
Proof.
  remember (length ts) as n eqn:Hn. revert ts e Hn.
  induction n as [n IH] using lt_wf_ind. intros ts e Hn.
  assert (Hrec : forall ts', length ts' < n -> forall e', assemble ts' = Throw e' -> e' = URIError).
  { intros ts' Hlt e' He'. by eapply (IH (length ts')). }
  destruct ts as [|[c|b1] ts1]; simpl; [done| |].
  - destruct (assemble ts1) eqn:E; [done|]. intros [= <-].
    eapply Hrec; [|exact E]. simpl in Hn. lia.
  - destruct (leading_ones b1) as [|[|[|[|[|?]]]]]; try (by intros [= <-]).
    + destruct (assemble ts1) eqn:E; [done|]. intros [= <-].
      eapply Hrec; [|exact E]. simpl in Hn. lia.
    + destruct ts1 as [|[?|b2] ts2]; try (by intros [= <-]).
      apply of_octets_throws. apply Hrec. simpl in Hn. lia.
    + destruct ts1 as [|[?|b2] [|[?|b3] ts3]]; try (by intros [= <-]).
      apply of_octets_throws. apply Hrec. simpl in Hn. lia.
    + destruct ts1 as [|[?|b2] [|[?|b3] [|[?|b4] ts4]]]; try (by intros [= <-]).
      apply of_octets_throws. apply Hrec. simpl in Hn. lia.
Qed.

Lemma decodeURIComponent_throws s e : decodeURIComponent s = Throw e -> e = URIError.
Proof.
  unfold decodeURIComponent. destruct (tokenize s) eqn:E.
  - apply assemble_throws.
  - intros [= <-]. by eapply tokenize_throws.
Qed.

Lemma decode_pair_throws piece e :
  Params.decode_pair HttpUrlEncodingCodec piece = Throw e -> e = URIError.
Proof.
  unfold Params.decode_pair.
  change (decodeKey HttpUrlEncodingCodec) with decodeURIComponent.
  change (decodeValue HttpUrlEncodingCodec) with decodeURIComponent.
  destruct (indexOf "=" piece) as [i|].
  - destruct (decodeURIComponent (slice_to i piece)) eqn:E1.
    + destruct (decodeURIComponent (slice_from (S i) piece)) eqn:E2; [done|].
      intros [= <-]. by eapply decodeURIComponent_throws.
    + intros [= <-]. by eapply decodeURIComponent_throws.
  - destruct (decodeURIComponent piece) eqn:E1; [done|].
    intros [= <-]. by eapply decodeURIComponent_throws.
Qed.

Lemma parse_pieces_throws pieces am e :
  parse_pieces HttpUrlEncodingCodec pieces am = Throw e -> e = URIError.
Proof.
  revert am. induction pieces as [|piece pieces IH]; intros am; simpl; [done|].
  destruct (Params.decode_pair HttpUrlEncodingCodec piece) as [[k v]|e'] eqn:E.
  - apply IH.
  - intros [= <-]. by eapply decode_pair_throws.
Qed.

Lemma parse_throws s e : parse HttpUrlEncodingCodec s = Throw e -> e = URIError.
Proof.
  unfold parse. destruct (0 <? String.length s)%nat; [|done]. apply parse_pieces_throws.
Qed.

End DecodeThrows.

(** C9, as the code has it.  The constructor itself throws the
    configuration error, before anything is added to the store, exactly
    when [fromString] is a non-empty string and [fromObject] is given.
    In every other case (with the default codec) whatever it may throw is
    not this error, nor any [Error]; with [fromObject] alone, or with
    neither source, it returns. *)
Theorem both_sources_is_a_construction_error :
  forall (options : Params.HttpParamsOptions) (h : heap),
    let both := Params.truthy_string (Params.fromString options)
                && bool_decide (is_Some (Params.fromObject options)) in
    (both = true ->
       Params.new_HttpParams options h
       = Throw (Error "Cannot specify both fromString and fromObject."))
    /\ (both = false -> Params.options_encoder options = None ->
          forall msg, Params.new_HttpParams options h <> Throw (Error msg))
    /\ (Params.truthy_string (Params.fromString options) = false ->
          exists p h', Params.new_HttpParams options h = Ok (p, h')).
Proof.
  intros options h both. unfold both. clear both.
  unfold Params.new_HttpParams.
  destruct (Params.truthy_string (Params.fromString options)) eqn:Ht; cbn [andb].
  - split; [|split; [|done]].
    + intros Hboth. apply bool_decide_eq_true in Hboth as [fo Hfo]. by rewrite Hfo.
    + intros Hnot Henc msg. apply bool_decide_eq_false in Hnot.
      destruct (Params.fromObject options) as [fo|] eqn:Hfo; [exfalso; by apply Hnot|].
      rewrite Henc. cbn [default].
      pose proof (paramParser_spec HttpUrlEncodingCodec
                    (default EmptyString (Params.fromString options)) h) as Hp.
      unfold Params.HttpClientDefaults_encoder.
      destruct (parse HttpUrlEncodingCodec (default EmptyString (Params.fromString options)))
        as [am|e] eqn:Hparse.
      * destruct Hp as (m & h1 & Hrun & _). by rewrite (bind_ok _ _ _ _ _ Hrun).
      * rewrite (bind_throw _ _ _ _ Hp). intros [= ->]. by apply parse_throws in Hparse.
  - split; [done|]. split.
    + intros _ _ msg. destruct (Params.fromObject options) as [fo|]; [|done].
      destruct (object_loop_returns fo h []) as (m & h1 & Hrun).
      by rewrite (bind_ok _ _ _ _ _ Hrun).
    + intros _. destruct (Params.fromObject options) as [fo|]; [|by eexists _, _].
      destruct (object_loop_returns fo h []) as (m & h1 & Hrun).
      rewrite (bind_ok _ _ _ _ _ Hrun). by eexists _, _.
Qed.

(** The statement above at a constructor call with both sources, and at
    calls with one source each. *)
Lemma both_sources_is_a_construction_error_witness :
  Params.new_HttpParams {| Params.fromString := Some "a=1";
                           Params.fromObject := Some [("b", Params.VScalar (PNum (int 2)))];
                           Params.options_encoder := None |} empty_heap
  = Throw (Error "Cannot specify both fromString and fromObject.")
  /\ (forall msg,
        Params.new_HttpParams {| Params.fromString := Some "a=%";
                                 Params.fromObject := None;
                                 Params.options_encoder := None |} empty_heap
        <> Throw (Error msg))
  /\ (exists p h',
        Params.new_HttpParams {| Params.fromString := None;
                                 Params.fromObject := Some [("b", Params.VScalar (PNum (int 2)))];
                                 Params.options_encoder := None |} empty_heap
        = Ok (p, h')).
Proof.
  split; [|split].
  - apply (both_sources_is_a_construction_error
             {| Params.fromString := Some "a=1";
                Params.fromObject := Some [("b", Params.VScalar (PNum (int 2)))];
                Params.options_encoder := None |} empty_heap).
    reflexivity.
  - apply (both_sources_is_a_construction_error
             {| Params.fromString := Some "a=%"; Params.fromObject := None;
                Params.options_encoder := None |} empty_heap); reflexivity.
  - apply (both_sources_is_a_construction_error
             {| Params.fromString := None;
                Params.fromObject := Some [("b", Params.VScalar (PNum (int 2)))];
                Params.options_encoder := None |} empty_heap).
    reflexivity.
Defined.

(** C9 as stated fails for an empty raw string: with [fromString: ""] and
    a [fromObject] map both given, the constructor does not throw; it
    builds the container from the map. *)
Lemma empty_fromString_with_fromObject_is_accepted :
  run (p ← Params.new_HttpParams {| Params.fromString := Some "";
                                    Params.fromObject := Some [("b", Params.VScalar (PNum (int 2)))];
                                    Params.options_encoder := None |};
       Params.toString p) empty_heap
  = Ok "b=2".
Proof. vm_compute. reflexivity. Qed.

(** ** The parameter container: shared arrays *)

(** C1 on the code: [append] itself leaves the receiver's mapping alone,
    but once the derived container is read, the receiver shows the
    appended value too, because the derived container's map refers to the
    receiver's own array and [init] pushes onto it.  Likewise a derived
    [delete(k, v)] takes the value out of the receiver's array, which
    then keeps the key with no value. *)
Theorem reading_a_derived_container_changes_its_source :
  run (p ← Params.new_HttpParams {| Params.fromString := Some "a=1";
                                    Params.fromObject := None;
                                    Params.options_encoder := None |};
       before ← Params.getAll p "a";
       q ← Params.append p "a" (PStr "2");
       between ← Params.getAll p "a";
       derived ← Params.toString q;
       after ← Params.getAll p "a";
       text ← Params.toString p;
       ret (before, between, derived, after, text)) empty_heap
  = Ok (Some [PStr "1"], Some [PStr "1"], "a=1&a=2", Some [PStr "1"; PStr "2"], "a=1&a=2")
  /\ run (p ← Params.new_HttpParams {| Params.fromString := Some "a=1";
                                       Params.fromObject := None;
                                       Params.options_encoder := None |};
          before ← Params.get p "a";
          q ← Params.delete p "a" (Some (PStr "1"));
          derived ← Params.has q "a";
          after ← Params.get p "a";
          still ← Params.has p "a";
          ret (before, derived, after, still)) empty_heap
     = Ok (Params.GValue (PStr "1"), false, Params.GUndefined, true).
Proof. split; vm_compute; reflexivity. Qed.

(** C5 on the code: what a container resolves to depends on which other
    containers of its lineage were read before.  From [r] (parsed from
    [a=1]), [p = r.append("a", "2")] and [q = p.append("a", "3")]:
    reading [q] alone gives [1, 2, 3] for [a]; reading [p] first and then
    [q] gives [1, 2, 2, 3], because reading [p] has already pushed [2]
    onto the array that [q] starts from. *)
Theorem resolving_depends_on_what_was_resolved_before :
  run (r ← Params.new_HttpParams {| Params.fromString := Some "a=1";
                                    Params.fromObject := None;
                                    Params.options_encoder := None |};
       p ← Params.append r "a" (PStr "2");
       q ← Params.append p "a" (PStr "3");
       Params.getAll q "a") empty_heap
  = Ok (Some [PStr "1"; PStr "2"; PStr "3"])
  /\ run (r ← Params.new_HttpParams {| Params.fromString := Some "a=1";
                                       Params.fromObject := None;
                                       Params.options_encoder := None |};
          p ← Params.append r "a" (PStr "2");
          q ← Params.append p "a" (PStr "3");
          Params.getAll p "a";;
          Params.getAll q "a") empty_heap
     = Ok (Some [PStr "1"; PStr "2"; PStr "2"; PStr "3"]).
Proof. split; vm_compute; reflexivity. Qed.

(** Resolving is idempotent: on a sound store, [init] on any instance
    returns, and a second [init] on it changes nothing. *)
Theorem init_is_idempotent :
  forall (h : heap) (this : loc),
    wf h -> this < length (objs h) ->
    exists h', Params.init this h = Ok (tt, h')
               /\ Params.init this h' = Ok (tt, h')
               /\ wf h'.
Proof.
  intros h this Hwf Hthis.
  destruct (lookup_lt_is_Some_2 _ _ Hthis) as [o Ho].
  destruct (init_spec h this o Hwf Ho)
    as ([] & h' & Hinit & m' & Ho' & Hok' & _ & Hwf' & _).
  exists h'. split; [done|]. split; [|done].
  by apply (init_settled h' this (settled o m') m').
Qed.

Lemma init_is_idempotent_witness :
  exists h', Params.init 1 Probe.sample_store = Ok (tt, h')
             /\ Params.init 1 h' = Ok (tt, h')
             /\ wf h'.
Proof.
  apply (init_is_idempotent Probe.sample_store 1).
  - apply (bool_decide_unpack _). vm_compute. exact I.
  - vm_compute. lia.
Defined.

(** ** The request value: [urlWithParams] *)

Section UrlFacts.

Implicit Types (u s : string) (c : ascii).

Lemma indexOf_Some c u i :
  indexOf c u = Some i <->
  String.get i u = Some c /\ forall j, j < i -> String.get j u <> Some c.
Proof.
  revert i. induction u as [|a u IH]; intros i; simpl.
  - split; [done|]. intros [H _]. by destruct i.
  - destruct (Ascii.eqb_spec a c) as [->|Hne].
    + split.
      * intros [= <-]. split; [done|]. intros j Hj. lia.
      * intros [Hget Hfirst]. destruct i as [|i]; [done|].
        exfalso. apply (Hfirst 0); [lia|done].
    + destruct i as [|i].
      * split; [by destruct (indexOf c u)|]. intros [[= ->] _]. done.
      * assert (Hshift : (forall j, j < S i -> String.get j (String a u) <> Some c)
                         <-> (forall j, j < i -> String.get j u <> Some c)).
        { split.
          - intros H j Hj. apply (H (S j)). lia.
          - intros H [|j] Hj; [simpl; congruence|]. apply H. lia. }
        rewrite Hshift. change (String.get (S i) (String a u)) with (String.get i u).
        rewrite <- IH. destruct (indexOf c u); simpl; split; congruence.
Qed.

Lemma indexOf_None c u : indexOf c u = None <-> forall i, String.get i u <> Some c.
Proof.
  induction u as [|a u IH]; simpl.
  - split; [intros _ i; by destruct i|done].
  - destruct (Ascii.eqb_spec a c) as [->|Hne].
    + split; [done|]. intros H. exfalso. by apply (H 0).
    + destruct (indexOf c u) as [k|] eqn:E; simpl.
      * split; [done|]. intros H.
        assert (Hn : Some k = None); [|done].
        apply IH. intros i. apply (H (S i)).
      * split; [|done]. intros _ [|i]; [by intros [= ->]|]. by apply IH.
Qed.

Lemma get_bound i u c : String.get i u = Some c -> i < String.length u.
Proof.
  revert i. induction u as [|a u IH]; intros [|i]; simpl; try done; [lia|].
  intros H. apply IH in H. lia.
Qed.

(** The separator, case by case. *)
Lemma separator_cases u :
  ((forall i, String.get i u <> Some "?"%char) -> separator u = "?")
  /\ ((exists i, String.get i u = Some "?"%char /\ i + 1 < String.length u) ->
      separator u = "&")
  /\ (String.get (String.length u - 1) u = Some "?"%char ->
      (forall i, i + 1 < String.length u -> String.get i u <> Some "?"%char) ->
      separator u = "").
Proof.
  unfold separator. split; [|split].
  - intros Hno. by rewrite (proj2 (indexOf_None _ _) Hno).
  - intros (i & Hget & Hi).
    destruct (indexOf "?" u) as [k|] eqn:E.
    + apply indexOf_Some in E as [Hk Hfirst].
      assert (k <= i). { destruct (decide (k <= i)); [done|]. exfalso. apply (Hfirst i); [lia|done]. }
      destruct (Z.ltb_spec (Z.of_nat k) (Z.of_nat (String.length u) - 1)); [done|lia].
    + exfalso. by apply (proj1 (indexOf_None _ _) E i).
  - intros Hlast Honly.
    destruct (indexOf "?" u) as [k|] eqn:E.
    + apply indexOf_Some in E as [Hk Hfirst].
      pose proof (get_bound _ _ _ Hk) as Hb.
      destruct (Z.ltb_spec (Z.of_nat k) (Z.of_nat (String.length u) - 1)) as [Hlt|]; [|done].
      exfalso. apply (Honly k); [lia|done].
    + exfalso. by apply (proj1 (indexOf_None _ _) E (String.length u - 1)).
Qed.

Lemma length_zero_iff s : (String.length s =? 0)%nat = true <-> s = EmptyString.
Proof. destruct s; simpl; split; done. Qed.

End UrlFacts.

Section RequestFacts.

(** The constructor with a parameter container: it clones the container,
    serializes the clone, and writes the joined URL. *)
Lemma new_HttpRequest_spec h p o (options : HttpRequestInit) (u : string) :
  wf h -> objs h !! p = Some o -> init_params options = Some p ->
  init_url options = Some u ->
  let s := serialize (encoder o) (logical h o) in
  exists req,
    run (new_HttpRequest options) h = Ok req
    /\ url req = None
    /\ params req = length (objs h)
    /\ urlWithParams req =
         Some (if (String.length s =? 0)%nat then u else u +:+ separator u +:+ s).
Proof.
  intros Hwf Ho Hp Hu s. unfold new_HttpRequest. rewrite Hp, Hu.
  destruct (clone_spec h p o None Hwf Ho) as (Hclone & Hwf1 & Hq & Hlog).
  destruct (reads_spec _ _ _ Hwf1 Hq) as (h2 & _ & _ & _ & _ & _ & Hstr & _).
  rewrite Hlog in Hstr. simpl in Hstr. change (replay [] (logical h o)) with (logical h o) in Hstr.
  fold s in Hstr.
  unfold run. rewrite (bind_ok _ _ _ _ _ Hclone). rewrite (bind_ok _ _ _ _ _ Hstr).
  destruct (String.length s =? 0)%nat; eexists; (split; [reflexivity|]); done.
Qed.

End RequestFacts.

(** C6, as the code has it.  For a request built with URL [u] and a
    container [p] of a sound store that serializes to [s]: the request's
    [urlWithParams] is [u] when [s] is empty; otherwise it is [u], a
    separator and [s], where the separator is [?] when [u] contains no
    [?], [&] when a [?] occurs before the last character of [u], and
    nothing when the only [?] of [u] is its last character.  The field is
    written by the constructor: it is a component of the request value.
    A request with URL [/x?y=1] and parameters from [{z: 2}] has
    [urlWithParams] [/x?y=1&z=2]. *)
Theorem urlWithParams_joins_url_and_parameters :
  forall (h : heap) (p : loc) (s : string) (options : HttpRequestInit) (u : string),
    wf h -> p < length (objs h) ->
    init_params options = Some p ->
    init_url options = Some u ->
    run (Params.toString p) h = Ok s ->
    exists req,
      run (new_HttpRequest options) h = Ok req
      /\ (s = EmptyString -> urlWithParams req = Some u)
      /\ (s <> EmptyString ->
            ((forall i, String.get i u <> Some "?"%char) ->
               urlWithParams req = Some (u +:+ "?" +:+ s))
            /\ ((exists i, String.get i u = Some "?"%char /\ i + 1 < String.length u) ->
                  urlWithParams req = Some (u +:+ "&" +:+ s))
            /\ (String.get (String.length u - 1) u = Some "?"%char ->
                (forall i, i + 1 < String.length u -> String.get i u <> Some "?"%char) ->
                  urlWithParams req = Some (u +:+ s))).
Proof.
  intros h p s options u Hwf Hp Hparams Hu Hs.
  destruct (lookup_lt_is_Some_2 _ _ Hp) as [o Ho].
  destruct (reads_spec h p o Hwf Ho) as (h' & _ & _ & _ & _ & _ & Hstr & _).
  unfold run in Hs. rewrite Hstr in Hs. injection Hs as Hs.
  destruct (new_HttpRequest_spec h p o options u Hwf Ho Hparams Hu)
    as (req & Hrun & _ & _ & Huwp).
  rewrite Hs in Huwp.
  exists req. split; [done|].
  destruct (separator_cases u) as (Hq & Hamp & Hnone).
  split.
  - intros ->. by rewrite Huwp.
  - intros Hne.
    assert (Hlen : (String.length s =? 0)%nat = false).
    { destruct (String.length s =? 0)%nat eqn:E; [|done]. by apply length_zero_iff in E. }
    rewrite Hlen in Huwp. rewrite Huwp. split; [|split].
    + intros H. by rewrite (Hq H).
    + intros H. by rewrite (Hamp H).
    + intros H1 H2. by rewrite (Hnone H1 H2).
Qed.

(** The statement above for the URL [/x?y=1] and parameters built from
    [{z: 2}]. *)
Lemma urlWithParams_joins_url_and_parameters_witness :
  exists req,
    run (new_HttpRequest (Probe.get_with_params "/x?y=1" 0)) Probe.z2_store = Ok req
    /\ urlWithParams req = Some "/x?y=1&z=2".
Proof.
  destruct (urlWithParams_joins_url_and_parameters Probe.z2_store 0 "z=2"
              (Probe.get_with_params "/x?y=1" 0) "/x?y=1")
    as (req & Hrun & _ & Hjoin).
  - apply (bool_decide_unpack _). vm_compute. exact I.
  - vm_compute. lia.
  - reflexivity.
  - reflexivity.
  - vm_compute. reflexivity.
  - exists req. split; [exact Hrun|].
    destruct Hjoin as (_ & Hamp & _); [discriminate|].
    apply Hamp. exists 2. split; [reflexivity|]. vm_compute. lia.
Defined.

(** C6 as stated fails for a URL that ends in [?] and has an earlier [?]:
    [/x?a?] ends in [?], yet the parameters are joined with [&]. *)
Lemma a_url_ending_in_a_second_question_mark_is_joined_with_an_ampersand :
  let u := "/x?a?" in
  String.get (String.length u - 1) u = Some "?"%char
  /\ run (p ← Params.new_HttpParams Probe.z2_options;
          s ← Params.toString p;
          req ← new_HttpRequest (Probe.get_with_params u p);
          ret (s, urlWithParams req)) empty_heap
     = Ok ("z=2", Some "/x?a?&z=2")
  /\ "/x?a?&z=2" <> u +:+ "z=2".
Proof. split; [reflexivity|]. split; [vm_compute; reflexivity|discriminate]. Qed.

(** ** The default codec: decoding what it encoded *)

Section Bytes.

Lemma forall_ascii (P : ascii -> bool) :
  forallb P all_ascii = true -> forall c, P c = true.
Proof.
  intros Hall c. rewrite forallb_forall in Hall. apply Hall.
  rewrite <- (ascii_nat_embedding c). unfold all_ascii.
  apply in_map. apply in_seq. pose proof (nat_ascii_bounded c). lia.
Qed.

Lemma octet_facts_hold c : octet_facts c = true.
Proof. revert c. apply forall_ascii. vm_compute. reflexivity. Qed.

End Bytes.

Section StringFacts.

Implicit Types (a b s t : string) (c : ascii).

Lemma append_cons x a b : String x a +:+ b = String x (a +:+ b).
Proof. reflexivity. Qed.

Lemma append_nil_l b : EmptyString +:+ b = b.
Proof. reflexivity. Qed.

Lemma append_assoc_s a b s : (a +:+ b) +:+ s = a +:+ (b +:+ s).
Proof.
  induction a as [|x a IH]; [done|]. rewrite !append_cons. by f_equal.
Qed.

Lemma append_nil_r_s a : a +:+ EmptyString = a.
Proof. induction a as [|x a IH]; [done|]. rewrite append_cons. by f_equal. Qed.

Lemma no_char_cons c x a :
  no_char c (String x a) = negb (Ascii.eqb x c) && no_char c a.
Proof.
  unfold no_char. simpl. destruct (Ascii.eqb x c); [done|].
  by destruct (indexOf c a).
Qed.

Lemma no_char_app c a b : no_char c (a +:+ b) = no_char c a && no_char c b.
Proof.
  induction a as [|x a IH]; [done|].
  rewrite append_cons, !no_char_cons, IH. by rewrite andb_assoc.
Qed.

Lemma indexOf_app_sep c a b :
  no_char c a = true -> indexOf c (a +:+ String c b) = Some (String.length a).
Proof.
  induction a as [|x a IH].
  - intros _. rewrite append_nil_l. simpl. by rewrite Ascii.eqb_refl.
  - rewrite no_char_cons. intros [Hx Ha]%andb_true_iff.
    apply negb_true_iff in Hx. rewrite append_cons. simpl. rewrite Hx. by rewrite IH.
Qed.

Lemma indexOf_no_char c a : no_char c a = true -> indexOf c a = None.
Proof. unfold no_char. by destruct (indexOf c a). Qed.

Lemma slice_to_app a b : slice_to (String.length a) (a +:+ b) = a.
Proof.
  induction a as [|x a IH]; [by destruct b|].
  rewrite append_cons. simpl. by rewrite IH.
Qed.

Lemma slice_from_app c a b : slice_from (S (String.length a)) (a +:+ String c b) = b.
Proof. induction a as [|x a IH]; [done|]. rewrite append_cons. exact IH. Qed.

Lemma split_no_sep c a : no_char c a = true -> split c a = [a].
Proof.
  induction a as [|x a IH]; simpl; [done|].
  rewrite no_char_cons. intros [Hx Ha]%andb_true_iff.
  apply negb_true_iff in Hx. rewrite Hx. by rewrite IH.
Qed.

Lemma split_app_sep c a b :
  no_char c a = true -> split c (a +:+ String c b) = a :: split c b.
Proof.
  induction a as [|x a IH].
  - intros _. rewrite append_nil_l. simpl. by rewrite Ascii.eqb_refl.
  - rewrite no_char_cons. intros [Hx Ha]%andb_true_iff.
    apply negb_true_iff in Hx. rewrite append_cons. simpl. rewrite Hx. by rewrite IH.
Qed.

Lemma join_cons2 sep x y (l : list string) :
  join sep (x :: y :: l) = x +:+ sep +:+ join sep (y :: l).
Proof. reflexivity. Qed.

(** Splitting on the separator undoes joining with it. *)
Lemma split_join c (l : list string) :
  l <> [] -> Forall (fun x => no_char c x = true) l ->
  split c (join (String c EmptyString) l) = l.
Proof.
  induction l as [|x l IH]; [done|]. intros _ [Hx Hl]%Forall_cons.
  destruct l as [|y l].
  - simpl. by apply split_no_sep.
  - rewrite join_cons2. rewrite append_cons, append_nil_l.
    rewrite split_app_sep by done. f_equal. by apply IH.
Qed.

Lemma join_app sep (l1 l2 : list string) :
  l1 <> [] -> l2 <> [] ->
  join sep (l1 ++ l2) = join sep l1 +:+ sep +:+ join sep l2.
Proof.
  induction l1 as [|x l1 IH]; [done|]. intros _ Hl2.
  destruct l1 as [|y l1].
  - simpl. by destruct l2.
  - change ((x :: y :: l1) ++ l2) with (x :: y :: (l1 ++ l2)).
    rewrite !join_cons2. change (y :: (l1 ++ l2)) with ((y :: l1) ++ l2).
    rewrite IH by done. by rewrite !append_assoc_s.
Qed.

(** A join of joins of non-empty groups is the join of all. *)
Lemma join_concat sep (groups : list (list string)) :
  Forall (fun g => g <> []) groups ->
  join sep (join sep <$> groups) = join sep (concat groups).
Proof.
  induction groups as [|g groups IH]; [done|]. intros [Hg Hgs]%Forall_cons.
  destruct groups as [|g' groups].
  - simpl. by rewrite app_nil_r.
  - change (join sep <$> g :: g' :: groups)
      with (join sep g :: join sep g' :: (join sep <$> groups)).
    rewrite join_cons2.
    change (join sep g' :: (join sep <$> groups)) with (join sep <$> g' :: groups).
    rewrite IH by done. simpl (concat (g :: _)).
    rewrite join_app; [done|done|].
    apply Forall_cons in Hgs as [Hg' _]. simpl. by destruct g'.
Qed.

End StringFacts.

Section CodecFacts.

Implicit Types (c : ascii) (x rest : string).

Lemma octet_fact c :
  let X := hex_digit (code c / 16) in
  let Y := hex_digit (code c mod 16) in
  std1 c = (if literal c then String c EmptyString else percent c)
  /\ (uriUnescaped c = true -> c <> "%"%char)
  /\ (literal c = true -> c <> "%"%char /\ c <> "&"%char /\ (code c < 128)%N)
  /\ X <> "%"%char /\ Y <> "%"%char
  /\ (exists a b, hex_value X = Some a /\ hex_value Y = Some b /\ ascii_of_N (16 * a + b) = c)
  /\ no_char "&" (std1 c) = true
  /\ (c <> "="%char -> no_char "=" (std1 c) = true)
  /\ (c <> "?"%char -> first_is "?" (std1 c) = false)
  /\ std1 c <> EmptyString.
Proof.
  intros X Y. pose proof (octet_facts_hold c) as H. unfold octet_facts in H.
  fold X Y in H.
  apply andb_true_iff in H as [H Hne].
  apply andb_true_iff in H as [H Hq].
  apply andb_true_iff in H as [H Heq].
  apply andb_true_iff in H as [H Hamp].
  apply andb_true_iff in H as [H Hhex].
  apply andb_true_iff in H as [H HY].
  apply andb_true_iff in H as [H HX].
  apply andb_true_iff in H as [H Hlit].
  apply andb_true_iff in H as [Hshape Hun].
  split; [by apply String.eqb_eq|].
  split.
  { intros Hu. rewrite Hu in Hun. simpl in Hun. apply negb_true_iff in Hun.
    intros ->. done. }
  split.
  { intros Hl. rewrite Hl in Hlit. simpl in Hlit.
    apply andb_true_iff in Hlit as [[H1 H2]%andb_true_iff H3].
    apply negb_true_iff in H1, H2. apply N.ltb_lt in H3.
    split; [intros ->; done|]. split; [intros ->; done|done]. }
  split.
  { apply negb_true_iff in HX. intros E. rewrite E in HX. done. }
  split.
  { apply negb_true_iff in HY. intros E. rewrite E in HY. done. }
  split.
  { destruct (hex_value X) as [a|]; [|done]. destruct (hex_value Y) as [b|]; [|done].
    exists a, b. split; [done|]. split; [done|]. by apply Ascii.eqb_eq. }
  split; [done|].
  split.
  { intros Hc. apply orb_true_iff in Heq as [E|E]; [|done].
    apply Ascii.eqb_eq in E. done. }
  split.
  { intros Hc. apply orb_true_iff in Hq as [E|E].
    - apply Ascii.eqb_eq in E. done.
    - by apply negb_true_iff in E. }
  apply negb_true_iff in Hne. by apply String.eqb_neq in Hne.
Qed.

End CodecFacts.

Section RoundTripCodec.

Implicit Types (c : ascii) (x rest : string).

Lemma replace_other c s1 :
  c <> "%"%char -> replace_standard (String c s1) = String c (replace_standard s1).
Proof.
  intros Hc. apply Ascii.eqb_neq in Hc. simpl. rewrite Hc.
  destruct s1 as [|d [|h r]]; reflexivity.
Qed.

Lemma replace_percent X Y rest :
  X <> "%"%char -> Y <> "%"%char ->
  replace_standard (String "%" (String X (String Y rest)))
  = replace_standard (String "%" (String X (String Y EmptyString))) +:+ replace_standard rest.
Proof.
  intros HX HY.
  change (replace_standard (String "%" (String X (String Y rest))))
    with (if Ascii.eqb "%" "%" && is_decimal X && is_hex Y then
            match table_lookup (String X (String Y EmptyString)) STANDARD_ENCODING_REPLACEMENTS with
            | Some r => r +:+ replace_standard rest
            | None => String "%" (String X (String Y EmptyString)) +:+ replace_standard rest
            end
          else String "%" (replace_standard (String X (String Y rest)))).
  change (replace_standard (String "%" (String X (String Y EmptyString))))
    with (if Ascii.eqb "%" "%" && is_decimal X && is_hex Y then
            match table_lookup (String X (String Y EmptyString)) STANDARD_ENCODING_REPLACEMENTS with
            | Some r => r +:+ replace_standard EmptyString
            | None => String "%" (String X (String Y EmptyString)) +:+ replace_standard EmptyString
            end
          else String "%" (replace_standard (String X (String Y EmptyString)))).
  destruct (Ascii.eqb "%" "%" && is_decimal X && is_hex Y).
  - change (replace_standard EmptyString) with EmptyString.
    destruct (table_lookup _ _); by rewrite append_nil_r_s.
  - rewrite !(replace_other X), !(replace_other Y) by done. reflexivity.
Qed.

Lemma std_cons c x : standardEncoding (String c x) = std1 c +:+ standardEncoding x.
Proof.
  destruct (octet_fact c) as (_ & Hun & _ & HX & HY & _).
  unfold std1, standardEncoding.
  change (encodeURIComponent (String c x))
    with ((if uriUnescaped c then String c EmptyString else percent c) +:+ encodeURIComponent x).
  change (encodeURIComponent (String c EmptyString))
    with ((if uriUnescaped c then String c EmptyString else percent c) +:+ EmptyString).
  destruct (uriUnescaped c) eqn:Hu.
  - rewrite !append_cons, !append_nil_l. rewrite !(replace_other c) by auto. reflexivity.
  - unfold percent. rewrite !append_cons, !append_nil_l. by apply replace_percent.
Qed.

Lemma std_nil : standardEncoding EmptyString = EmptyString.
Proof. reflexivity. Qed.

Lemma std_no_amp x : no_char "&" (standardEncoding x) = true.
Proof.
  induction x as [|c x IH]; [done|].
  destruct (octet_fact c) as (_ & _ & _ & _ & _ & _ & Hamp & _).
  rewrite std_cons, no_char_app, Hamp, IH. done.
Qed.

Lemma std_no_eq x : no_char "=" x = true -> no_char "=" (standardEncoding x) = true.
Proof.
  induction x as [|c x IH]; [done|].
  rewrite no_char_cons. intros [Hc Hx]%andb_true_iff.
  apply negb_true_iff, Ascii.eqb_neq in Hc.
  destruct (octet_fact c) as (_ & _ & _ & _ & _ & _ & _ & Heq & _).
  rewrite std_cons, no_char_app, (Heq Hc), IH; done.
Qed.

Lemma first_is_app a s t : s <> EmptyString -> first_is a (s +:+ t) = first_is a s.
Proof. by destruct s. Qed.

Lemma std_first x rest :
  first_is "?" x = false ->
  first_is "?" (standardEncoding x +:+ String "=" rest) = false.
Proof.
  destruct x as [|c x]; [done|].
  change (first_is "?" (String c x)) with (Ascii.eqb "?" c).
  intros Hc. apply Ascii.eqb_neq in Hc.
  destruct (octet_fact c) as (_ & _ & _ & _ & _ & _ & _ & _ & Hq & Hne).
  rewrite std_cons, append_assoc_s, first_is_app by done. apply Hq. congruence.
Qed.

Lemma tokenize_std1 c rest :
  tokenize (std1 c +:+ rest)
  = match tokenize rest with
    | Ok ts => Ok (tok c :: ts)
    | Throw e => Throw e
    end.
Proof.
  destruct (octet_fact c) as (Hshape & _ & Hlit & _ & _ & (a & b & Ha & Hb & Hab) & _).
  rewrite Hshape. unfold tok. destruct (literal c) eqn:Hl.
  - destruct (Hlit eq_refl) as (Hpc & _). apply Ascii.eqb_neq in Hpc.
    rewrite append_cons, append_nil_l. simpl. by rewrite Hpc.
  - unfold percent. rewrite !append_cons, append_nil_l.
    change (tokenize (String "%" (String (hex_digit (code c / 16))
                                    (String (hex_digit (code c mod 16)) rest))))
      with (match hex_value (hex_digit (code c / 16)), hex_value (hex_digit (code c mod 16)) with
            | Some a, Some b =>
                match tokenize rest with
                | Ok ts => Ok (Esc (ascii_of_N (16 * a + b)) :: ts)
                | Throw e => Throw e
                end
            | _, _ => Throw URIError
            end).
    by rewrite Ha, Hb, Hab.
Qed.

Lemma tokenize_std x :
  tokenize (standardEncoding x) = Ok (tok <$> list_ascii_of_string x).
Proof.
  induction x as [|c x IH]; [done|].
  rewrite std_cons, tokenize_std1, IH. done.
Qed.

Lemma cont_not_literal c : is_cont c = true -> tok c = Esc c.
Proof.
  intros Hc. unfold tok. destruct (literal c) eqn:Hl; [|done].
  destruct (octet_fact c) as (_ & _ & Hlit & _).
  destruct (Hlit Hl) as (_ & _ & Hlt).
  unfold is_cont, in_range in Hc. apply andb_true_iff in Hc as [Hlo _].
  apply N.leb_le in Hlo. lia.
Qed.

Lemma lead_not_literal c n : leading_ones c = S n -> tok c = Esc c.
Proof.
  intros Hc. unfold tok. destruct (literal c) eqn:Hl; [|done].
  destruct (octet_fact c) as (_ & _ & Hlit & _).
  destruct (Hlit Hl) as (_ & _ & Hlt).
  unfold leading_ones in Hc. apply N.ltb_lt in Hlt. by rewrite Hlt in Hc.
Qed.

Lemma assemble_low c ts :
  leading_ones c = 0 ->
  assemble (tok c :: ts)
  = match assemble ts with Ok s => Ok (String c s) | Throw e => Throw e end.
Proof. intros Hc. unfold tok. destruct (literal c); simpl; [done|]. by rewrite Hc. Qed.

(** Well-formed strings survive encoding and decoding. *)
Lemma assemble_tok x :
  utf8_ok x = true -> assemble (tok <$> list_ascii_of_string x) = Ok x.
Proof.
  remember (String.length x) as n eqn:Hn. revert x Hn.
  induction n as [n IH] using lt_wf_ind. intros x Hn.
  destruct x as [|b1 x1]; [done|].
  assert (Hrec : forall y, String.length y < n -> utf8_ok y = true ->
                           assemble (tok <$> list_ascii_of_string y) = Ok y).
  { intros y Hy Hok. by apply (IH (String.length y)). }
  simpl in Hn. simpl (utf8_ok _).
  destruct (leading_ones b1) as [|[|[|[|[|?]]]]] eqn:Hlead; try done.
  - intros Hok. change (tok <$> list_ascii_of_string (String b1 x1))
      with (tok b1 :: (tok <$> list_ascii_of_string x1)).
    rewrite assemble_low by done. rewrite Hrec; [done|lia|done].
  - destruct x1 as [|b2 x2]; [done|]. intros [Hv Hok]%andb_true_iff.
    change (tok <$> list_ascii_of_string (String b1 (String b2 x2)))
      with (tok b1 :: tok b2 :: (tok <$> list_ascii_of_string x2)).
    rewrite (lead_not_literal b1 1 Hlead).
    assert (Hc2 : is_cont b2 = true).
    { simpl in Hv. by apply andb_true_iff in Hv as [_ ?]. }
    rewrite (cont_not_literal b2 Hc2). simpl. rewrite Hlead.
    change (valid_utf8_seq [b1; b2] = true) in Hv.
    unfold of_octets. rewrite Hv. rewrite Hrec; [done|simpl in *; lia|done].
  - destruct x1 as [|b2 [|b3 x3]]; try done. intros [Hv Hok]%andb_true_iff.
    change (tok <$> list_ascii_of_string (String b1 (String b2 (String b3 x3))))
      with (tok b1 :: tok b2 :: tok b3 :: (tok <$> list_ascii_of_string x3)).
    rewrite (lead_not_literal b1 2 Hlead).
    assert (Hc : is_cont b2 = true /\ is_cont b3 = true).
    { unfold valid_utf8_seq in Hv. 
      repeat (apply orb_true_iff in Hv as [Hv|Hv]);
        apply andb_true_iff in Hv as [[_ Hb2]%andb_true_iff Hb3];
        split; try done;
        unfold is_cont, in_range in *; apply andb_true_iff in Hb2 as [H1 H2];
        apply N.leb_le in H1, H2; apply andb_true_iff; split; apply N.leb_le; lia. }
    destruct Hc as [Hc2 Hc3].
    rewrite (cont_not_literal b2 Hc2), (cont_not_literal b3 Hc3). simpl. rewrite Hlead.
    change (valid_utf8_seq [b1; b2; b3] = true) in Hv.
    unfold of_octets. rewrite Hv. rewrite Hrec; [done|simpl in *; lia|done].
  - destruct x1 as [|b2 [|b3 [|b4 x4]]]; try done. intros [Hv Hok]%andb_true_iff.
    change (tok <$> list_ascii_of_string (String b1 (String b2 (String b3 (String b4 x4)))))
      with (tok b1 :: tok b2 :: tok b3 :: tok b4 :: (tok <$> list_ascii_of_string x4)).
    rewrite (lead_not_literal b1 3 Hlead).
    assert (Hc : is_cont b2 = true /\ is_cont b3 = true /\ is_cont b4 = true).
    { unfold valid_utf8_seq in Hv.
      repeat (apply orb_true_iff in Hv as [Hv|Hv]);
        apply andb_true_iff in Hv as [[[_ Hb2]%andb_true_iff Hb3]%andb_true_iff Hb4];
        (split; [|by split]);
        unfold is_cont, in_range in *; apply andb_true_iff in Hb2 as [H1 H2];
        apply N.leb_le in H1, H2; apply andb_true_iff; split; apply N.leb_le; lia. }
    destruct Hc as (Hc2 & Hc3 & Hc4).
    rewrite (cont_not_literal b2 Hc2), (cont_not_literal b3 Hc3), (cont_not_literal b4 Hc4).
    simpl. rewrite Hlead.
    change (valid_utf8_seq [b1; b2; b3; b4] = true) in Hv.
    unfold of_octets. rewrite Hv. rewrite Hrec; [done|simpl in *; lia|done].
Qed.

Lemma decode_encode x :
  utf8_ok x = true -> decodeURIComponent (standardEncoding x) = Ok x.
Proof.
  intros Hok. unfold decodeURIComponent. rewrite tokenize_std. by apply assemble_tok.
Qed.

End RoundTripCodec.

(** ** The parameter container: parsing what [toString] wrote *)

Section RoundTripMapping.

Implicit Types (am : amap) (k : string) (v : jsprim).

Lemma filter_all {A} (P : A -> Prop) `{forall x, Decision (P x)} (l : list A) :
  Forall P l -> filter P l = l.
Proof.
  induction 1 as [|x l Hx Hl IH]; [done|].
  rewrite filter_cons. destruct (decide (P x)); [|done]. by rewrite IH.
Qed.

Lemma join_nonempty sep x (l : list string) : x <> EmptyString -> join sep (x :: l) <> EmptyString.
Proof.
  intros Hx. destruct l as [|y l]; [done|]. rewrite join_cons2. by destruct x.
Qed.

Lemma piece_nonempty kv : piece_of kv <> EmptyString.
Proof.
  unfold piece_of. destruct (standardEncoding kv.1); [|done].
  rewrite append_nil_l. done.
Qed.

(** [toString] writes the pieces of all pairs, joined by [&]. *)
Lemma serialize_pairs am :
  Forall (fun e => e.2 <> []) am ->
  serialize HttpUrlEncodingCodec am = join "&" (piece_of <$> pairs am).
Proof.
  intros Hne. unfold serialize.
  set (groups := (fun e : string * list jsprim => piece_of <$> ((fun v => (e.1, v)) <$> e.2)) <$> am).
  assert (Hg : (fun e : string * list jsprim =>
                  join "&" ((fun value => encodeKey HttpUrlEncodingCodec e.1 +:+ "=" +:+
                               encodeValue HttpUrlEncodingCodec (ToString value)) <$> e.2)) <$> am
               = join "&" <$> groups).
  { unfold groups. rewrite <- list_fmap_compose. apply Forall_fmap_ext_1, Forall_forall.
    intros e _. simpl. f_equal. by rewrite <- list_fmap_compose. }
  rewrite Hg.
  assert (Hgne : Forall (fun g => g <> [] /\ Forall (fun x => x <> EmptyString) g) groups).
  { unfold groups. rewrite Forall_fmap. eapply Forall_impl; [exact Hne|].
    intros [k vs] Hvs. simpl in *. split; [by destruct vs|].
    rewrite !Forall_fmap. apply Forall_forall. intros v _. apply piece_nonempty. }
  rewrite filter_all.
  - rewrite join_concat by (eapply Forall_impl; [exact Hgne|]; by intros g [? _]).
    f_equal. unfold groups, pairs.
    clear. induction am as [|e am IH]; [done|].
    rewrite !fmap_cons. cbn [concat]. by rewrite fmap_app, IH.
  - rewrite Forall_fmap. eapply Forall_impl; [exact Hgne|].
    intros g [Hgn Hall]. simpl. destruct g as [|x g]; [done|].
    apply Forall_cons in Hall as [Hx _]. by apply join_nonempty.
Qed.

Lemma map_get_snoc am k l : k ∉ am.*1 -> map_get k (am ++ [(k, l)]) = Some l.
Proof.
  induction am as [|[k' l'] am IH]; simpl; intros Hk.
  - by rewrite String.eqb_refl.
  - apply not_elem_of_cons in Hk as [Hne Hk].
    destruct (String.eqb_spec k' k) as [->|_]; [done|]. by apply IH.
Qed.

Lemma map_set_snoc am k l l' :
  k ∉ am.*1 -> map_set k l' (am ++ [(k, l)]) = am ++ [(k, l')].
Proof.
  induction am as [|[k' l0] am IH]; simpl; intros Hk.
  - by rewrite String.eqb_refl.
  - apply not_elem_of_cons in Hk as [Hne Hk].
    destruct (String.eqb_spec k' k) as [->|_]; [done|]. by rewrite IH.
Qed.

(** Adding the values of one key, one after the other, to a mapping that
    ends with that key. *)
Lemma add_values_last am k l vs :
  k ∉ am.*1 ->
  fold_left (fun acc kv => add_value kv.1 kv.2 acc) ((fun v => (k, v)) <$> vs) (am ++ [(k, l)])
  = am ++ [(k, l ++ vs)].
Proof.
  intros Hk. revert l. induction vs as [|v vs IH]; intros l; simpl.
  - by rewrite app_nil_r.
  - assert (Hnext : add_value k v (am ++ [(k, l)]) = am ++ [(k, l ++ [v])]).
    { unfold add_value. rewrite (map_get_snoc am k l Hk). simpl.
      by apply map_set_snoc. }
    rewrite Hnext, IH. by rewrite <- app_assoc.
Qed.

(** Adding the pairs of a grouped mapping to a mapping with other keys
    puts the groups back, in order. *)
Lemma add_pairs am1 am2 :
  NoDup (am1 ++ am2).*1 -> Forall (fun e => e.2 <> []) am2 ->
  fold_left (fun acc kv => add_value kv.1 kv.2 acc) (pairs am2) am1 = am1 ++ am2.
Proof.
  revert am1. induction am2 as [|[k vs] am2 IH]; intros am1 Hnd Hne.
  - by rewrite app_nil_r.
  - apply Forall_cons in Hne as [Hvs Hne]. simpl in Hvs.
    assert (Hk : k ∉ am1.*1).
    { rewrite fmap_app in Hnd. apply NoDup_app in Hnd as (_ & Hdis & _).
      intros Hin. apply (Hdis k Hin). simpl. left. }
    unfold pairs. rewrite fmap_cons. cbn [concat]. simpl.
    rewrite fold_left_app.
    destruct vs as [|v vs]; [done|].
    rewrite fmap_cons. cbn [fold_left fst snd].
    apply map_get_None in Hk as Hget.
    assert (Hfirst : add_value k v am1 = am1 ++ [(k, [v])]).
    { unfold add_value. rewrite Hget. simpl. by apply map_set_absent. }
    rewrite Hfirst.
    rewrite (add_values_last am1 k [v] vs Hk). simpl.
    fold (pairs am2). rewrite IH; [by rewrite <- app_assoc|by rewrite <- app_assoc|done].
Qed.

Lemma regroup am :
  grouped am -> fold_left (fun acc kv => add_value kv.1 kv.2 acc) (pairs am) [] = am.
Proof. intros [Hnd Hne]. by rewrite (add_pairs [] am). Qed.

(** One piece the codec wrote decodes to the pair it was written from. *)
Lemma decode_piece k x :
  utf8_ok k = true -> no_char "=" k = true -> utf8_ok x = true ->
  Params.decode_pair HttpUrlEncodingCodec (piece_of (k, PStr x)) = Ok (k, x).
Proof.
  intros Hk Heq Hx. unfold Params.decode_pair, piece_of. cbn [fst snd].
  change ("=" +:+ standardEncoding (ToString (PStr x))) with (String "=" (standardEncoding x)).
  rewrite (indexOf_app_sep "=" _ _ (std_no_eq k Heq)).
  rewrite slice_to_app, slice_from_app.
  change (decodeKey HttpUrlEncodingCodec) with decodeURIComponent.
  change (decodeValue HttpUrlEncodingCodec) with decodeURIComponent.
  by rewrite !decode_encode.
Qed.

Lemma parse_pieces_written (l : list (string * jsprim)) acc :
  Forall (fun kv => utf8_ok kv.1 = true /\ no_char "=" kv.1 = true /\ text_value kv.2 = true) l ->
  parse_pieces HttpUrlEncodingCodec (piece_of <$> l) acc
  = Ok (fold_left (fun acc kv => add_value kv.1 kv.2 acc) l acc).
Proof.
  intros Hl. revert acc. induction Hl as [|[k v] l (Hk & Heq & Hv) _ IH]; intros acc; [done|].
  rewrite fmap_cons. destruct v as [x| |]; try done. simpl in *.
  cbn [parse_pieces]. rewrite (decode_piece k x Hk Heq Hv). apply IH.
Qed.

Lemma piece_no_amp kv : no_char "&" (piece_of kv) = true.
Proof.
  unfold piece_of.
  change ("=" +:+ standardEncoding (ToString kv.2))
    with (String "=" (standardEncoding (ToString kv.2))).
  rewrite no_char_app, no_char_cons, !std_no_amp. done.
Qed.

Lemma strip_not_first s : first_is "?" s = false -> strip_leading_question s = s.
Proof.
  destruct s as [|c s]; [done|]. simpl. intros Hc.
  destruct (Ascii.eqb_spec "?" c) as [<-|Hne]; [done|].
  unfold strip_leading_question.
  destruct c as [[] [] [] [] [] [] [] []]; try done.
Qed.

Lemma join_first_piece k v (l : list string) :
  first_is "?" k = false ->
  first_is "?" (join "&" (piece_of (k, v) :: l)) = false.
Proof.
  intros Hk. unfold piece_of. simpl fst. simpl snd.
  change ("=" +:+ standardEncoding (ToString v))
    with (String "=" (standardEncoding (ToString v))).
  destruct l as [|y l].
  - by apply std_first.
  - rewrite join_cons2. rewrite append_assoc_s, append_cons. by apply std_first.
Qed.

Lemma pairs_reparsable am :
  forallb (fun e => utf8_ok e.1 && no_char "=" e.1 && forallb text_value e.2) am = true ->
  Forall (fun kv => utf8_ok kv.1 = true /\ no_char "=" kv.1 = true /\ text_value kv.2 = true)
         (pairs am).
Proof.
  induction am as [|[k vs] am IH]; simpl; intros H; [constructor|].
  apply andb_true_iff in H as [H Ham].
  apply andb_true_iff in H as [H Hvs].
  apply andb_true_iff in H as [Hk Heq].
  unfold pairs. rewrite fmap_cons. cbn [concat]. apply Forall_app. split; [|by apply IH].
  rewrite Forall_fmap. apply Forall_forall. intros v Hv. simpl.
  repeat split; try done.
  apply Is_true_true, forallb_True in Hvs. rewrite Forall_forall in Hvs.
  by apply Is_true_true, Hvs.
Qed.

(** The mapping-level round trip: what the default codec wrote parses
    back to the mapping it was written from. *)
Lemma parse_serialize am :
  grouped am -> reparsable am = true ->
  parse HttpUrlEncodingCodec (serialize HttpUrlEncodingCodec am) = Ok am.
Proof.
  intros Hg Hr. pose proof Hg as [Hnd Hne].
  rewrite (serialize_pairs am Hne).
  destruct am as [|[k vs] am]; [done|].
  apply andb_true_iff in Hr as [Hall Hfirst].
  apply negb_true_iff in Hfirst. simpl in Hfirst.
  pose proof (pairs_reparsable _ Hall) as Hps.
  apply Forall_cons in Hne as Hne'. destruct Hne' as [Hvs _]. simpl in Hvs.
  destruct vs as [|v vs]; [done|].
  remember (pairs ((k, v :: vs) :: am)) as ps eqn:Eps.
  assert (Ecs : exists rest, ps = (k, v) :: rest).
  { subst ps. unfold pairs. simpl. eauto. }
  destruct Ecs as [rest Ecs].
  unfold parse.
  assert (Hlen : (0 <? String.length (join "&" (piece_of <$> ps)))%nat = true).
  { rewrite Ecs, fmap_cons.
    pose proof (join_nonempty "&" _ (piece_of <$> rest) (piece_nonempty (k, v))) as Hj.
    destruct (join "&" (piece_of (k, v) :: (piece_of <$> rest))); [done|]. done. }
  rewrite Hlen.
  rewrite strip_not_first by (rewrite Ecs, fmap_cons; by apply join_first_piece).
  change "&"%string with (String "&"%char EmptyString).
  rewrite split_join.
  - rewrite (parse_pieces_written ps [] Hps). f_equal. rewrite Eps. by apply regroup.
  - by rewrite Ecs.
  - rewrite Forall_fmap. apply Forall_forall. intros kv _. apply piece_no_amp.
Qed.

Lemma map_set_Forall {V} (P : string * V -> Prop) k (a : V) (m : list (string * V)) :
  Forall P m -> P (k, a) -> Forall P (map_set k a m).
Proof.
  intros Hm Hka. induction Hm as [|[k' a'] m Hx Hm IH]; simpl.
  - by constructor.
  - destruct (String.eqb k' k); constructor; done.
Qed.

Lemma add_value_grouped k v am : grouped am -> grouped (add_value k v am).
Proof.
  intros [Hnd Hne]. split.
  - by apply map_set_keys_NoDup.
  - apply map_set_Forall; [done|]. simpl. by destruct (default [] (map_get k am)).
Qed.

Lemma parse_pieces_grouped codec pieces am am' :
  grouped am -> parse_pieces codec pieces am = Ok am' -> grouped am'.
Proof.
  revert am. induction pieces as [|piece pieces IH]; intros am Hg; simpl.
  - by intros [= <-].
  - destruct (Params.decode_pair codec piece) as [[k v]|e]; [|done].
    apply IH. by apply add_value_grouped.
Qed.

Lemma grouped_nil : grouped [].
Proof. split; constructor. Qed.

(** Whatever [paramParser] builds has distinct keys and at least one
    value per key. *)
Lemma parse_grouped codec s am : parse codec s = Ok am -> grouped am.
Proof.
  unfold parse. destruct (0 <? String.length s)%nat.
  - apply parse_pieces_grouped, grouped_nil.
  - intros [= <-]. apply grouped_nil.
Qed.

Lemma constructed_fromString h s :
  constructed h (fromString_only s)
  = if negb (String.eqb s EmptyString) then parse HttpUrlEncodingCodec s else Ok [].
Proof. unfold constructed, fromString_only. simpl. by destruct (negb _). Qed.

Lemma constructed_grouped h s am : constructed h (fromString_only s) = Ok am -> grouped am.
Proof.
  rewrite constructed_fromString. destruct (negb _).
  - apply parse_grouped.
  - intros [= <-]. apply grouped_nil.
Qed.

Lemma constructed_serialize h am :
  grouped am -> reparsable am = true ->
  constructed h (fromString_only (serialize HttpUrlEncodingCodec am)) = Ok am.
Proof.
  intros Hg Hr. pose proof (parse_serialize am Hg Hr) as Hp.
  rewrite constructed_fromString.
  destruct (String.eqb_spec (serialize HttpUrlEncodingCodec am) EmptyString) as [E|_]; [|done].
  rewrite E in Hp. simpl. by rewrite <- Hp.
Qed.

(** Constructing from a string and reading, on a sound store. *)
Lemma construct_then_read h s :
  wf h ->
  match constructed h (fromString_only s) with
  | Ok am =>
      run (p ← Params.new_HttpParams (fromString_only s); snapshot p) h = Ok am
      /\ run (p ← Params.new_HttpParams (fromString_only s); Params.toString p) h
         = Ok (serialize HttpUrlEncodingCodec am)
  | Throw e =>
      run (p ← Params.new_HttpParams (fromString_only s); snapshot p) h = Throw e
  end.
Proof.
  intros Hwf.
  pose proof (new_HttpParams_spec h (fromString_only s) Hwf (object_ok_nil h)) as Hnew.
  destruct (constructed h (fromString_only s)) as [am|e].
  - destruct Hnew as (o & h' & Hrun & Hwf' & Hobjs & _ & Henc & Hlog & _).
    assert (Ho : objs h' !! length (objs h) = Some o).
    { rewrite Hobjs. by apply list_lookup_middle. }
    destruct (reads_spec h' _ o Hwf' Ho) as (h2 & _ & _ & _ & _ & Hsnap & Hstr & _).
    rewrite !(run_bind _ _ _ _ _ Hrun). unfold run.
    rewrite Hsnap, Hstr, Hlog, Henc. done.
  - unfold run. by rewrite (bind_throw _ _ _ _ Hnew).
Qed.

End RoundTripMapping.

(** C7, as the code has it.  On a sound store, let a raw query string [s]
    parse, with the default codec, to a mapping [am] in which keys and
    values are well-formed strings, no key contains [=], and the first
    key does not start with [?].  Then [toString()] of the container built
    from [s] returns a string [t], and the container built from [t], on
    any sound store, reads as the same mapping [am]: the same keys in the
    same order, each with the same values in the same order. *)
Theorem toString_parses_back_to_the_same_mapping :
  forall (h : heap) (s : string) (am : amap),
    wf h ->
    run (p ← Params.new_HttpParams (fromString_only s); snapshot p) h = Ok am ->
    reparsable am = true ->
    exists t,
      run (p ← Params.new_HttpParams (fromString_only s); Params.toString p) h = Ok t
      /\ forall h', wf h' ->
           run (q ← Params.new_HttpParams (fromString_only t); snapshot q) h' = Ok am.
Proof.
  intros h s am Hwf Hrun Hr.
  pose proof (construct_then_read h s Hwf) as Hfirst.
  destruct (constructed h (fromString_only s)) as [am0|e] eqn:Hc.
  - destruct Hfirst as [Hsnap Hstr]. rewrite Hsnap in Hrun. injection Hrun as ->.
    exists (serialize HttpUrlEncodingCodec am). split; [done|].
    intros h' Hwf'.
    pose proof (construct_then_read h' (serialize HttpUrlEncodingCodec am) Hwf') as Hsecond.
    rewrite (constructed_serialize h' am (constructed_grouped h s am Hc) Hr) in Hsecond.
    apply Hsecond.
  - by rewrite Hfirst in Hrun.
Qed.

(** The statement above at the query string [a=1&b=2&a=3], whose values
    of [a] are written next to each other. *)
Lemma toString_parses_back_to_the_same_mapping_witness :
  let s := "a=1&b=2&a=3" in
  let am := [("a", [PStr "1"; PStr "3"]); ("b", [PStr "2"])] in
  exists t,
    run (p ← Params.new_HttpParams (fromString_only s); Params.toString p) empty_heap = Ok t
    /\ run (q ← Params.new_HttpParams (fromString_only t); snapshot q) empty_heap = Ok am.
Proof.
  intros s am.
  destruct (toString_parses_back_to_the_same_mapping empty_heap s am) as (t & Ht & Hback).
  - exact wf_empty.
  - vm_compute. reflexivity.
  - vm_compute. reflexivity.
  - exists t. split; [exact Ht|]. apply Hback. exact wf_empty.
Defined.

(** A key whose decoded text contains [=] is written with the [=] as it
    is, and what was part of the key is read back as part of the value;
    a first key whose decoded text starts with [?] loses it. *)
Lemma an_equals_sign_in_a_key_moves_to_the_value :
  run (p ← Params.new_HttpParams (fromString_only "a%3Db=1");
       am ← snapshot p;
       t ← Params.toString p;
       q ← Params.new_HttpParams (fromString_only t);
       am' ← snapshot q;
       ret (am, t, am')) empty_heap
  = Ok ([("a=b", [PStr "1"])], "a=b=1", [("a", [PStr "b=1"])])
  /\ run (p ← Params.new_HttpParams (fromString_only "%3Fa=1");
          am ← snapshot p;
          t ← Params.toString p;
          q ← Params.new_HttpParams (fromString_only t);
          am' ← snapshot q;
          ret (am, t, am')) empty_heap
     = Ok ([("?a", [PStr "1"])], "?a=1", [("a", [PStr "1"])]).
Proof. split; vm_compute; reflexivity. Qed.

(** * Further properties of the sources *)

(** ** The default codec, octet by octet *)

Section CodecShape.

Implicit Types (c d : ascii) (x a b : string).

Lemma written_plain c : forallb plain (octets (written c)) = true.
Proof. revert c. apply forall_ascii. vm_compute. reflexivity. Qed.

Lemma hex_value_is_hex c : hex_value c = None <-> is_hex c = false.
Proof.
  unfold hex_value, is_hex.
  destruct (is_decimal c), (in_range 65 70 c), (in_range 97 102 c); simpl; split; done.
Qed.

Lemma octets_app a b : octets (a +:+ b) = octets a ++ octets b.
Proof.
  induction a as [|c a IH]; [done|].
  rewrite append_cons. unfold octets in *. simpl. by rewrite IH.
Qed.

Lemma std_octetwise x : standardEncoding x = octetwise written x.
Proof.
  induction x as [|c x IH]; [done|].
  destruct (octet_fact c) as (Hshape & _).
  rewrite std_cons, IH, Hshape. done.
Qed.

Lemma tokenize_raw x :
  no_char "%" x = true -> tokenize x = Ok (Raw <$> octets x).
Proof.
  induction x as [|c x IH]; [done|].
  rewrite no_char_cons. intros [Hc Hx]%andb_true_iff.
  apply negb_true_iff in Hc. simpl. rewrite Hc, (IH Hx). done.
Qed.

Lemma assemble_raw x : assemble (Raw <$> octets x) = Ok x.
Proof.
  induction x as [|c x IH]; [done|].
  change (assemble (Raw <$> octets (String c x)))
    with (match assemble (Raw <$> octets x) with
          | Ok s => Ok (String c s)
          | Throw e => Throw e
          end).
  by rewrite IH.
Qed.

(** A [%] that does not start an escape stops the first pass, whatever
    comes before it. *)
Lemma tokenize_stops a b :
  no_escape b = true -> tokenize (a +:+ String "%" b) = Throw URIError.
Proof.
  intros Hb. remember (String.length a) as n eqn:Hn. revert a Hn.
  induction n as [n IH] using lt_wf_ind. intros a Hn.
  assert (Hrec : forall a', String.length a' < n ->
                            tokenize (a' +:+ String "%" b) = Throw URIError).
  { intros a' Hlt. by apply (IH (String.length a')). }
  assert (Hstart : tokenize (String "%" b) = Throw URIError).
  { destruct b as [|h1 [|h2 rest]]; try done.
    simpl in Hb. apply negb_true_iff, andb_false_iff in Hb.
    simpl. destruct Hb as [H|H]; apply hex_value_is_hex in H; rewrite H; [done|].
    by destruct (hex_value h1). }
  destruct a as [|c a1].
  { by rewrite append_nil_l. }
  rewrite append_cons.
  destruct (Ascii.eqb_spec c "%") as [->|Hc].
  - destruct a1 as [|h1 [|h2 a2]].
    + rewrite append_nil_l. by destruct b.
    + rewrite append_cons, append_nil_l.
      change (tokenize (String "%" (String h1 (String "%" b))))
        with (match hex_value h1, hex_value "%"%char with
              | Some x, Some y =>
                  match tokenize b with
                  | Ok ts => Ok (Esc (ascii_of_N (16 * x + y)) :: ts)
                  | Throw e => Throw e
                  end
              | _, _ => Throw URIError
              end).
      by destruct (hex_value h1).
    + rewrite !append_cons.
      change (tokenize (String "%" (String h1 (String h2 (a2 +:+ String "%" b)))))
        with (match hex_value h1, hex_value h2 with
              | Some x, Some y =>
                  match tokenize (a2 +:+ String "%" b) with
                  | Ok ts => Ok (Esc (ascii_of_N (16 * x + y)) :: ts)
                  | Throw e => Throw e
                  end
              | _, _ => Throw URIError
              end).
      rewrite Hrec by (simpl in Hn; lia).
      by destruct (hex_value h1), (hex_value h2).
  - change (tokenize (String c (a1 +:+ String "%" b)))
      with (if Ascii.eqb c "%" then
              match a1 +:+ String "%" b with
              | String h1 (String h2 rest) =>
                  match hex_value h1, hex_value h2 with
                  | Some x, Some y =>
                      match tokenize rest with
                      | Ok ts => Ok (Esc (ascii_of_N (16 * x + y)) :: ts)
                      | Throw e => Throw e
                      end
                  | _, _ => Throw URIError
                  end
              | _ => Throw URIError
              end
            else match tokenize (a1 +:+ String "%" b) with
                 | Ok ts => Ok (Raw c :: ts)
                 | Throw e => Throw e
                 end).
    apply Ascii.eqb_neq in Hc. rewrite Hc.
    rewrite Hrec by (simpl in Hn; lia). done.
Qed.

End CodecShape.

(** [encodeKey] and [encodeValue] of the default codec write a text octet
    by octet: a letter, a digit, one of [- _ . ! ~ * ' ( )] and one of
    [@ : $ , ; + = ? /] is written as it is, every other octet as [%XX]
    with upper-case hexadecimal digits. *)
Theorem default_codec_writes_octet_by_octet :
  forall x : string,
    encodeKey HttpUrlEncodingCodec x = octetwise written x
    /\ encodeValue HttpUrlEncodingCodec x = octetwise written x.
Proof. intros x. split; apply std_octetwise. Qed.

(** What the default codec writes is plain ASCII and holds no [&], no [#]
    and no space, whatever the text. *)
Theorem encoded_text_holds_no_separator :
  forall x : string,
    forallb plain (octets (encodeKey HttpUrlEncodingCodec x)) = true
    /\ forallb plain (octets (encodeValue HttpUrlEncodingCodec x)) = true.
Proof.
  assert (H : forall x, forallb plain (octets (standardEncoding x)) = true).
  { intros x. rewrite std_octetwise. induction x as [|c x IH]; [done|].
    simpl. rewrite octets_app, forallb_app, written_plain, IH. done. }
  intros x. split; apply H.
Qed.

(** Decoding what the default codec wrote gives the text back, for every
    well-formed text, as a key and as a value. *)
Theorem decoding_an_encoded_text_gives_it_back :
  forall x : string,
    utf8_ok x = true ->
    decodeKey HttpUrlEncodingCodec (encodeKey HttpUrlEncodingCodec x) = Ok x
    /\ decodeValue HttpUrlEncodingCodec (encodeValue HttpUrlEncodingCodec x) = Ok x.
Proof. intros x Hx. split; by apply decode_encode. Qed.

(** The statement above at a text with delimiters, a space and a
    two-octet character. *)
Lemma decoding_an_encoded_text_gives_it_back_witness :
  let x := "a b&c=d/" +:+ String (ascii_of_nat 195) (String (ascii_of_nat 169) "?") in
  encodeKey HttpUrlEncodingCodec x = "a%20b%26c=d/%C3%A9?"
  /\ decodeKey HttpUrlEncodingCodec (encodeKey HttpUrlEncodingCodec x) = Ok x
  /\ decodeValue HttpUrlEncodingCodec (encodeValue HttpUrlEncodingCodec x) = Ok x.
Proof.
  intros x. split; [vm_compute; reflexivity|].
  apply (decoding_an_encoded_text_gives_it_back x). vm_compute. reflexivity.
Defined.

(** A text without [%] decodes to itself: nothing but percent escapes is
    decoded, and a [+] stays a [+]. *)
Theorem text_without_percent_decodes_to_itself :
  forall x : string,
    no_char "%" x = true ->
    decodeKey HttpUrlEncodingCodec x = Ok x
    /\ decodeValue HttpUrlEncodingCodec x = Ok x.
Proof.
  intros x Hx.
  assert (H : decodeURIComponent x = Ok x).
  { unfold decodeURIComponent. rewrite (tokenize_raw x Hx). apply assemble_raw. }
  by split.
Qed.

Lemma text_without_percent_decodes_to_itself_witness :
  decodeKey HttpUrlEncodingCodec "a+b c" = Ok "a+b c"
  /\ decodeValue HttpUrlEncodingCodec "a+b c" = Ok "a+b c".
Proof. apply (text_without_percent_decodes_to_itself "a+b c"). vm_compute. reflexivity. Defined.

(** Decoding throws nothing but [URIError], and throws it whenever the
    text holds a [%] that is not followed by two hexadecimal digits. *)
Theorem malformed_escape_is_a_URIError :
  forall a b : string,
    (forall x e, decodeKey HttpUrlEncodingCodec x = Throw e -> e = URIError)
    /\ (forall x e, decodeValue HttpUrlEncodingCodec x = Throw e -> e = URIError)
    /\ (no_escape b = true ->
          decodeKey HttpUrlEncodingCodec (a +:+ String "%" b) = Throw URIError
          /\ decodeValue HttpUrlEncodingCodec (a +:+ String "%" b) = Throw URIError).
Proof.
  intros a b. split; [apply decodeURIComponent_throws|].
  split; [apply decodeURIComponent_throws|].
  intros Hb.
  assert (H : decodeURIComponent (a +:+ String "%" b) = Throw URIError).
  { unfold decodeURIComponent. by rewrite tokenize_stops. }
  by split.
Qed.

Lemma malformed_escape_is_a_URIError_witness :
  decodeKey HttpUrlEncodingCodec "100%" = Throw URIError
  /\ decodeValue HttpUrlEncodingCodec "%4x" = Throw URIError.
Proof.
  split.
  - apply (malformed_escape_is_a_URIError "100" EmptyString). reflexivity.
  - apply (malformed_escape_is_a_URIError EmptyString "4x"). reflexivity.
Defined.

(** ** The parameter container: what the read operations show *)

Section ReadsMore.

Implicit Types (h : heap) (o : HttpParams) (am : amap) (k : string).

(** The first read settles the instance; the store it leaves is the one
    every read operation leaves. *)
Lemma reads_settle h this o :
  wf h -> objs h !! this = Some o ->
  exists h' m',
    objs h' !! this = Some (settled o m') /\ map_ok h' m'
    /\ view h' m' = logical h o /\ wf h'
    /\ length (objs h') = length (objs h)
    /\ Params.init this h = Ok (tt, h')
    /\ Mapping.snapshot this h = Ok (logical h o, h')
    /\ Params.toString this h = Ok (serialize (encoder o) (logical h o), h')
    /\ Params.keys this h = Ok ((logical h o).*1, h')
    /\ (forall k, Params.getAll this k h = Ok (map_get k (logical h o), h')).
Proof.
  intros Hwf Ho.
  destruct (init_spec h this o Hwf Ho)
    as ([] & h' & Hinit & m' & Ho' & Hok' & Hview & Hwf' & Hlen).
  destruct (reads_spec h this o Hwf Ho)
    as (h2 & _ & _ & _ & Hinit2 & Hsnap & Hstr & Hkeys & HgetAll & _).
  rewrite Hinit in Hinit2. injection Hinit2 as <-.
  exists h', m'. by split_and!.
Qed.

Lemma bind_bind {A B C} (c : M A) (f : A -> M B) (g : B -> M C) h :
  ((c ≫= f) ≫= g) h = (c ≫= (fun a => f a ≫= g)) h.
Proof. unfold mbind, M_bind, bind. by destruct (c h) as [[a h']|]. Qed.

Lemma run_ext {A} (c c' : M A) h : c h = c' h -> run c h = run c' h.
Proof. intros E. unfold run. by rewrite E. Qed.

Lemma run_ok {A} (c : M A) h a h' : c h = Ok (a, h') -> run c h = Ok a.
Proof. intros E. unfold run. by rewrite E. Qed.

Lemma map_get_in_keys am k : is_Some (map_get k am) <-> k ∈ am.*1.
Proof.
  destruct (map_get k am) as [l|] eqn:E.
  - split; [|by eauto]. intros _. apply map_get_Some_elem in E.
    apply list_elem_of_fmap. by exists (k, l).
  - split; [by intros [? ?]|]. intros Hin. by apply map_get_None in E.
Qed.


End ReadsMore.

(** The read operations of a container agree with each other.  [keys()]
    lists every key once; [has(k)] is true exactly for the keys listed,
    also for one whose list of values is empty; [getAll(k)] and [get(k)]
    are [null] exactly for the others, and [get(k)] is the first element
    of [getAll(k)] ([undefined] when that list is empty). *)
Theorem reads_agree_with_each_other :
  forall (h : heap) (p : loc),
    wf h -> p < length (objs h) ->
    exists ks,
      run (Params.keys p) h = Ok ks /\ NoDup ks
      /\ forall k,
           run (Params.has p k) h = Ok (bool_decide (k ∈ ks))
           /\ (k ∈ ks ->
                 exists vs, run (Params.getAll p k) h = Ok (Some vs)
                            /\ run (Params.get p k) h
                               = Ok (match vs with
                                     | [] => Params.GUndefined
                                     | v :: _ => Params.GValue v
                                     end))
           /\ (k ∉ ks ->
                 run (Params.getAll p k) h = Ok None
                 /\ run (Params.get p k) h = Ok Params.GNull).
Proof.
  intros h p Hwf Hp.
  destruct (lookup_lt_is_Some_2 _ _ Hp) as [o Ho].
  destruct (reads_spec h p o Hwf Ho)
    as (h' & _ & _ & Hnd & _ & _ & _ & Hkeys & HgetAll & Hhas & Hget).
  exists (logical h o).*1. split; [by eapply run_ok|]. split; [done|].
  intros k. split; [|split].
  - rewrite (run_ok _ _ _ _ (Hhas k)). f_equal.
    apply bool_decide_ext, map_get_in_keys.
  - intros Hin. apply map_get_in_keys in Hin as [vs Hvs]. exists vs.
    rewrite (run_ok _ _ _ _ (HgetAll k)), (run_ok _ _ _ _ (Hget k)), Hvs.
    split; [done|]. by destruct vs.
  - intros Hout. apply map_get_None in Hout.
    by rewrite (run_ok _ _ _ _ (HgetAll k)), (run_ok _ _ _ _ (Hget k)), Hout.
Qed.

(** The statement above at a container built from [{a: [], b: 1}]: [a]
    is a key without values. *)
Lemma reads_agree_with_each_other_witness :
  let h := match (empty ← allocArr [];
                  Params.new_HttpParams
                    {| Params.fromString := None;
                       Params.fromObject := Some [("a", Params.VArray empty);
                                                  ("b", Params.VScalar (PNum (int 1)))];
                       Params.options_encoder := None |}) empty_heap with
           | Ok (_, h) => h
           | Throw _ => empty_heap
           end in
  run (Params.keys 0) h = Ok ["a"; "b"]
  /\ run (Params.has 0 "a") h = Ok true
  /\ run (Params.get 0 "a") h = Ok Params.GUndefined
  /\ run (Params.getAll 0 "c") h = Ok None.
Proof.
  intros h.
  destruct (reads_agree_with_each_other h 0) as (ks & Hks & Hnd & Hall).
  - apply (bool_decide_unpack _). vm_compute. exact I.
  - vm_compute. lia.
  - assert (E : ks = ["a"; "b"]).
    { assert (E0 : run (Params.keys 0) h = Ok ["a"; "b"]) by (vm_compute; reflexivity).
      rewrite E0 in Hks. by injection Hks. }
    subst ks. split; [exact Hks|].
    destruct (Hall "a") as (Hhas & Hin & _).
    destruct (Hall "c") as (_ & _ & Hout).
    split; [exact Hhas|]. split; [vm_compute; reflexivity|].
    apply Hout. vm_compute. intros Hc. inversion Hc as [|? ? ? Hc']; subst.
    inversion Hc' as [|? ? ? Hc'']; subst. inversion Hc''.
Defined.

(** Once a container has been read, reading it again repeats the results
    and leaves the store as it is. *)
Theorem reads_repeat_once_a_container_is_read :
  forall (h : heap) (p : loc),
    wf h -> p < length (objs h) ->
    exists am t h',
      Mapping.snapshot p h = Ok (am, h') /\ Params.toString p h = Ok (t, h')
      /\ wf h'
      /\ Mapping.snapshot p h' = Ok (am, h')
      /\ Params.toString p h' = Ok (t, h')
      /\ Params.keys p h' = Ok (am.*1, h')
      /\ (forall k, Params.getAll p k h' = Ok (map_get k am, h')).
Proof.
  intros h p Hwf Hp.
  destruct (lookup_lt_is_Some_2 _ _ Hp) as [o Ho].
  destruct (reads_settle h p o Hwf Ho)
    as (h' & m' & Ho' & Hok' & Hview & Hwf' & _ & _ & Hsnap & Hstr & _).
  exists (logical h o), (serialize (encoder o) (logical h o)), h'.
  rewrite <- Hview in *.
  split; [done|]. split; [done|]. split; [done|].
  split; [by apply (snapshot_settled h' p (settled o m') m')|].
  split; [by apply (toString_settled h' p (settled o m') m')|].
  split; [by apply (keys_settled h' p (settled o m') m')|].
  intros k. by apply (getAll_settled h' p (settled o m') m').
Qed.

(** The statement above at a pending clone that appends [c=4] to a
    container parsed from [a=1&a=2&b=3]. *)
Lemma reads_repeat_once_a_container_is_read_witness :
  exists h',
    Params.toString 1 Probe.sample_store = Ok ("a=1&a=2&b=3&c=4", h')
    /\ Params.toString 1 h' = Ok ("a=1&a=2&b=3&c=4", h').
Proof.
  destruct (reads_repeat_once_a_container_is_read Probe.sample_store 1)
    as (am & t & h' & _ & Hstr & _ & _ & Hagain & _).
  - apply (bool_decide_unpack _). vm_compute. exact I.
  - vm_compute. lia.
  - assert (E : run (Params.toString 1) Probe.sample_store = Ok "a=1&a=2&b=3&c=4")
      by (vm_compute; reflexivity).
    unfold run in E. rewrite Hstr in E. injection E as ->.
    by exists h'.
Defined.



(** ** The parameter container: construction, [toString], [appendAll] *)

Section ConstructMore.

Implicit Types (h : heap) (o : HttpParams) (am : amap) (k : string).
Implicit Types (fo : list (string * Params.objval)).

(** Constructing and reading, on a sound store. *)
Lemma construct_and_read h options am :
  wf h -> object_ok h (default [] (Params.fromObject options)) ->
  constructed h options = Ok am ->
  let enc := default Params.HttpClientDefaults_encoder (Params.options_encoder options) in
  run (p ← Params.new_HttpParams options; Mapping.snapshot p) h = Ok am
  /\ run (p ← Params.new_HttpParams options; Params.toString p) h = Ok (serialize enc am)
  /\ run (p ← Params.new_HttpParams options; Params.keys p) h = Ok am.*1
  /\ (forall k, run (p ← Params.new_HttpParams options; Params.getAll p k) h
                = Ok (map_get k am))
  /\ (forall k, run (p ← Params.new_HttpParams options; Params.has p k) h
                = Ok (bool_decide (is_Some (map_get k am))))
  /\ (forall k, run (p ← Params.new_HttpParams options; Params.get p k) h
                = Ok (match map_get k am with
                      | Some [] => Params.GUndefined
                      | Some (v :: _) => Params.GValue v
                      | None => Params.GNull
                      end)).
Proof.
  intros Hwf Hobj Hc enc.
  pose proof (new_HttpParams_spec h options Hwf Hobj) as Hnew. rewrite Hc in Hnew.
  destruct Hnew as (o & h' & Hrun & Hwf' & Hobjs & _ & Henc & Hlog & _).
  assert (Ho : objs h' !! length (objs h) = Some o).
  { rewrite Hobjs. by apply list_lookup_middle. }
  destruct (reads_spec h' _ o Hwf' Ho)
    as (h2 & _ & _ & _ & _ & Hsnap & Hstr & Hkeys & HgetAll & Hhas & Hget).
  rewrite Hlog, ?Henc in *.
  split; [rewrite (run_bind _ _ _ _ _ Hrun); by eapply run_ok|].
  split; [rewrite (run_bind _ _ _ _ _ Hrun); by eapply run_ok|].
  split; [rewrite (run_bind _ _ _ _ _ Hrun); by eapply run_ok|].
  split; [intros k; rewrite (run_bind _ _ _ _ _ Hrun); by eapply run_ok|].
  split; [intros k; rewrite (run_bind _ _ _ _ _ Hrun); by eapply run_ok|].
  intros k; rewrite (run_bind _ _ _ _ _ Hrun); by eapply run_ok.
Qed.




(** The log [appendAll] hands to [clone]. *)
Lemma appendAll_updates h fo (acc : list Update) :
  allocated h fo ->
  foldM (fun (updates : list Update) '(param, value) =>
           match value with
           | Params.VArray a =>
               l ← getArr a;
               ret (updates ++ ((fun _value => {| param := param; value := Some _value;
                                                  op := OpA |}) <$> l))
           | Params.VScalar v =>
               ret (updates ++ [{| param := param; value := Some v; op := OpA |}])
           end) acc fo h
  = Ok (acc ++ ((fun kv : string * jsprim => upd OpA kv.1 (Some kv.2))
                  <$> pairs (entries h fo)), h).
Proof.
  revert acc. induction fo as [|[k [v|a]] fo IH]; intros acc Hall.
  - simpl. by rewrite app_nil_r.
  - apply allocated_scalar in Hall. cbn [foldM].
    unfold mbind, M_bind, bind. cbn [ret]. rewrite (IH _ Hall).
    unfold entries, pairs. rewrite !fmap_cons. cbn [concat fst snd object_values fmap list_fmap].
    by rewrite <- app_assoc.
  - apply allocated_array in Hall as [Ha Hall]. cbn [foldM].
    destruct (lookup_arr_valid h a Ha) as [l Hl].
    unfold mbind, M_bind. unfold bind at 1. unfold bind at 1. unfold getArr. rewrite Hl.
    cbn [unwrap ret]. rewrite (IH _ Hall).
    unfold entries, pairs. rewrite !fmap_cons. cbn [concat fst snd object_values].
    rewrite Hl. cbn [default]. rewrite fmap_app, <- app_assoc. do 3 f_equal.
    f_equal. unfold id. rewrite <- list_fmap_compose. by apply list_fmap_ext.
Qed.

Lemma run_bind_cong {A B} (c c' : M A) (f : A -> M B) h :
  c h = c' h -> run (c ≫= f) h = run (c' ≫= f) h.
Proof. intros E. unfold run, mbind, M_bind, bind. by rewrite E. Qed.

Lemma replay_appends (l : list (string * jsprim)) am :
  replay ((fun kv : string * jsprim => upd OpA kv.1 (Some kv.2)) <$> l) am
  = fold_left (fun acc kv => add_value kv.1 (PStr (ToString kv.2)) acc) l am.
Proof.
  revert am. induction l as [|kv l IH]; intros am; [done|].
  rewrite fmap_cons. unfold replay in *. simpl. by rewrite IH.
Qed.

(** A chain of [append] calls, read at its end. *)
Lemma append_chain (l : list (string * jsprim)) h p o :
  wf h -> objs h !! p = Some o ->
  run (q ← foldM (fun q (kv : string * jsprim) => Params.append q kv.1 kv.2) p l;
       Mapping.snapshot q) h
  = Ok (fold_left (fun acc kv => add_value kv.1 (PStr (ToString kv.2)) acc) l (logical h o)).
Proof.
  revert h p o. induction l as [|[k v] l IH]; intros h p o Hwf Ho.
  - destruct (reads_spec h p o Hwf Ho) as (h' & _ & _ & _ & _ & Hsnap & _).
    simpl. by eapply run_ok.
  - cbn [foldM fold_left fst snd].
    erewrite run_ext by apply bind_bind.
    destruct (clone_spec h p o (Some [upd OpA k (Some v)]) Hwf Ho)
      as (Hclone & Hwf1 & Hq & Hlog).
    pose proof (IH _ _ _ Hwf1 Hq) as Hrec. rewrite Hlog in Hrec.
    unfold Params.append, upd in *.
    rewrite (run_bind _ _ _ _ _ Hclone). exact Hrec.
Qed.

End ConstructMore.

(** A container constructed without a source (no [fromObject], and no
    [fromString] or the empty one) is empty: [keys()] is empty,
    [toString()] is the empty string, and every key is absent. *)
Theorem a_container_without_a_source_is_empty :
  forall (h : heap) (options : Params.HttpParamsOptions),
    wf h ->
    Params.truthy_string (Params.fromString options) = false ->
    Params.fromObject options = None ->
    run (p ← Params.new_HttpParams options; Params.keys p) h = Ok []
    /\ run (p ← Params.new_HttpParams options; Params.toString p) h = Ok EmptyString
    /\ forall k,
         run (p ← Params.new_HttpParams options; Params.has p k) h = Ok false
         /\ run (p ← Params.new_HttpParams options; Params.get p k) h = Ok Params.GNull
         /\ run (p ← Params.new_HttpParams options; Params.getAll p k) h = Ok None.
Proof.
  intros h options Hwf Hs Ho.
  assert (Hc : constructed h options = Ok []).
  { unfold constructed. by rewrite Hs, Ho. }
  assert (Hobj : object_ok h (default [] (Params.fromObject options))).
  { rewrite Ho. apply object_ok_nil. }
  destruct (construct_and_read h options [] Hwf Hobj Hc)
    as (_ & Hstr & Hkeys & HgetAll & Hhas & Hget).
  split; [done|]. split; [done|].
  intros k. split; [by rewrite Hhas|]. split; [by rewrite Hget|]. by rewrite HgetAll.
Qed.

Lemma a_container_without_a_source_is_empty_witness :
  run (p ← Params.new_HttpParams (fromString_only EmptyString); Params.keys p) empty_heap
  = Ok []
  /\ run (p ← Params.new_HttpParams (fromString_only EmptyString); Params.toString p)
         empty_heap = Ok EmptyString.
Proof.
  destruct (a_container_without_a_source_is_empty empty_heap (fromString_only EmptyString))
    as (Hkeys & Hstr & _).
  - exact wf_empty.
  - reflexivity.
  - reflexivity.
  - by split.
Defined.





(** [appendAll(params)] on a sound store (no container holds one array
    under two keys) and for an object whose arrays exist: the container
    it returns, read before any other container is, reads as the
    receiver with every listed value appended as a string, the keys in
    [Object.keys] order and the values of an array, as they are at the
    call, in their order: exactly what the chain of [append] calls, one
    per value, reads as. *)
Theorem appendAll_reads_as_a_chain_of_appends :
  forall (h : heap) (p : loc) (fo : list (string * Params.objval)),
    wf h -> p < length (objs h) -> allocated h fo ->
    exists am,
      run (Mapping.snapshot p) h = Ok am
      /\ let appended :=
           fold_left (fun acc kv => add_value kv.1 (PStr (ToString kv.2)) acc)
                     (pairs (entries h fo)) am in
         run (q ← Params.appendAll p fo; Mapping.snapshot q) h = Ok appended
         /\ run (q ← foldM (fun q (kv : string * jsprim) => Params.append q kv.1 kv.2)
                           p (pairs (entries h fo));
                 Mapping.snapshot q) h = Ok appended.
Proof.
  intros h p fo Hwf Hp Hall.
  destruct (lookup_lt_is_Some_2 _ _ Hp) as [o Ho].
  destruct (reads_spec h p o Hwf Ho) as (h' & _ & _ & _ & _ & Hsnap & _).
  exists (logical h o). split; [by eapply run_ok|].
  intros appended. split.
  - set (us := (fun kv : string * jsprim => upd OpA kv.1 (Some kv.2))
                 <$> pairs (entries h fo)).
    assert (Happ : Params.appendAll p fo h = Params.clone p (Some us) h).
    { unfold Params.appendAll. by rewrite (bind_ok _ _ _ _ _ (appendAll_updates h fo [] Hall)). }
    rewrite (run_bind_cong _ _ _ _ Happ).
    destruct (clone_then_read h p o (Some us) Hwf Ho) as (_ & Hcsnap & _).
    rewrite Hcsnap. f_equal. apply replay_appends.
  - by apply append_chain.
Qed.

Lemma appendAll_reads_as_a_chain_of_appends_witness :
  let h := new_arr [PNum (int 7); PBool true] Probe.sample_store in
  let fo := [("a", Params.VArray 2); ("d", Params.VScalar (PStr "x"))] in
  run (q ← Params.appendAll 0 fo; Mapping.snapshot q) h
  = Ok [("a", [PStr "1"; PStr "2"; PStr "7"; PStr "true"]); ("b", [PStr "3"]);
        ("d", [PStr "x"])]
  /\ run (q1 ← Params.append 0 "a" (PNum (int 7));
          q2 ← Params.append q1 "a" (PBool true);
          q3 ← Params.append q2 "d" (PStr "x");
          Mapping.snapshot q3) h
     = run (q ← Params.appendAll 0 fo; Mapping.snapshot q) h.
Proof.
  intros h fo.
  destruct (appendAll_reads_as_a_chain_of_appends h 0 fo)
    as (am & Hsnap & Hall & Hchain).
  - apply (bool_decide_unpack _). vm_compute. exact I.
  - vm_compute. lia.
  - apply (bool_decide_unpack _). vm_compute. exact I.
  - assert (E : run (Mapping.snapshot 0) h
                = Ok [("a", [PStr "1"; PStr "2"]); ("b", [PStr "3"])])
      by (vm_compute; reflexivity).
    rewrite E in Hsnap. injection Hsnap as <-.
    split; [rewrite Hall; vm_compute; reflexivity|]. rewrite Hall. vm_compute. reflexivity.
Defined.

(** ** The parameter container: malformed escapes *)

Section StrayPercent.

Implicit Types (x y u v s : string) (c d : ascii).

Lemma string_length_app x y : String.length (x +:+ y) = String.length x + String.length y.
Proof.
  induction x as [|c x IH]; [done|]. rewrite append_cons. simpl. by rewrite IH.
Qed.

Lemma no_escape_cut x y : no_escape (x +:+ y) = true -> no_escape x = true.
Proof.
  destruct x as [|h1 [|h2 x]]; [done|done|].
  by rewrite !append_cons.
Qed.

Lemma stray_cons c x : stray_percent x -> stray_percent (String c x).
Proof.
  intros (u & v & -> & Hv). exists (String c u), v. by rewrite append_cons.
Qed.

(** Cutting a text at a delimiter leaves the stray [%] in one of the two
    parts. *)
Lemma stray_cut x d y :
  d <> "%"%char ->
  stray_percent (x +:+ String d y) -> stray_percent x \/ stray_percent y.
Proof.
  intros Hp. induction x as [|c x IH]; intros (u & v & E & Hv).
  - rewrite append_nil_l in E. destruct u as [|c' u].
    + rewrite append_nil_l in E. by injection E.
    + rewrite append_cons in E. injection E as _ ->. right. by exists u, v.
  - rewrite append_cons in E. destruct u as [|c' u].
    + rewrite append_nil_l in E. injection E as -> <-.
      left. exists EmptyString, x. rewrite append_nil_l. split; [done|].
      by eapply no_escape_cut.
    + rewrite append_cons in E. injection E as _ E.
      destruct IH as [H|H]; [by exists u, v| |by right].
      left. by apply stray_cons.
Qed.

Lemma decode_stray x : stray_percent x -> decodeURIComponent x = Throw URIError.
Proof.
  intros (u & v & -> & Hv). unfold decodeURIComponent. by rewrite tokenize_stops.
Qed.

Lemma cut_at_index c s i :
  indexOf c s = Some i ->
  s = slice_to i s +:+ String c (slice_from (S i) s)
  /\ no_char c (slice_to i s) = true.
Proof.
  revert i. induction s as [|a s IH]; intros i; simpl; [done|].
  destruct (Ascii.eqb_spec a c) as [->|Hne].
  - intros [= <-]. by rewrite append_nil_l.
  - destruct (indexOf c s) as [j|] eqn:E; [|done]. simpl. intros [= <-].
    destruct (IH j eq_refl) as [Hs Hn]. simpl.
    rewrite append_cons, no_char_cons, Hn. split; [by f_equal|].
    apply Ascii.eqb_neq in Hne. by rewrite Hne.
Qed.

Lemma decode_pair_stray x :
  stray_percent x -> Params.decode_pair HttpUrlEncodingCodec x = Throw URIError.
Proof.
  intros Hx. unfold Params.decode_pair.
  change (decodeKey HttpUrlEncodingCodec) with decodeURIComponent.
  change (decodeValue HttpUrlEncodingCodec) with decodeURIComponent.
  destruct (indexOf "=" x) as [i|] eqn:E.
  - destruct (cut_at_index _ _ _ E) as [Hcut _]. rewrite Hcut in Hx.
    apply stray_cut in Hx as [Hk|Hv]; [| |done].
    + by rewrite (decode_stray _ Hk).
    + rewrite (decode_stray _ Hv).
      destruct (decodeURIComponent (slice_to i x)) eqn:Ek; [done|].
      f_equal. by eapply decodeURIComponent_throws.
  - by rewrite (decode_stray _ Hx).
Qed.

Lemma split_stray s : stray_percent s -> Exists stray_percent (split "&" s).
Proof.
  remember (String.length s) as n eqn:Hn. revert s Hn.
  induction n as [n IH] using lt_wf_ind. intros s Hn Hs.
  destruct (indexOf "&" s) as [i|] eqn:E.
  - destruct (cut_at_index _ _ _ E) as [Hcut Hno].
    assert (Hlen : String.length (slice_from (S i) s) < n).
    { rewrite Hn. rewrite Hcut at 2. rewrite string_length_app. simpl. lia. }
    rewrite Hcut, (split_app_sep _ _ _ Hno).
    rewrite Hcut in Hs. apply stray_cut in Hs as [Hx|Hy]; [| |done].
    + by apply Exists_cons_hd.
    + apply Exists_cons_tl. by apply (IH _ Hlen).
  - rewrite split_no_sep by (unfold no_char; by rewrite E).
    by apply Exists_cons_hd.
Qed.

Lemma parse_pieces_stray pieces am :
  Exists stray_percent pieces ->
  parse_pieces HttpUrlEncodingCodec pieces am = Throw URIError.
Proof.
  intros Hex. revert am. induction Hex as [x l Hx|x l _ IH]; intros am; simpl.
  - by rewrite (decode_pair_stray x Hx).
  - destruct (Params.decode_pair HttpUrlEncodingCodec x) as [[k v]|e] eqn:E; [apply IH|].
    f_equal. by eapply decode_pair_throws.
Qed.

Lemma parse_stray s : stray_percent s -> parse HttpUrlEncodingCodec s = Throw URIError.
Proof.
  intros Hs. unfold parse.
  assert (Hne : (0 <? String.length s)%nat = true).
  { destruct Hs as (u & v & -> & _). by destruct u. }
  rewrite Hne. apply parse_pieces_stray, split_stray.
  destruct Hs as (u & v & -> & Hv).
  destruct u as [|c u]; [by exists EmptyString, v|].
  rewrite append_cons.
  destruct (Ascii.eqb_spec c "?") as [->|Hc].
  - by exists u, v.
  - assert (E : strip_leading_question (String c (u +:+ String "%" v))
                = String c (u +:+ String "%" v)).
    { unfold strip_leading_question.
      destruct c as [[] [] [] [] [] [] [] []]; try done. }
    rewrite E. exists (String c u), v. by rewrite append_cons.
Qed.

End StrayPercent.

(** Constructing a container from a string (with the default codec), on
    a sound store, either returns or throws [URIError], nothing else; and
    it throws, the error of the codec not being caught, whenever the
    string holds a [%] that is not followed by two hexadecimal digits. *)
Theorem a_malformed_escape_fails_the_construction :
  forall h : heap,
    wf h ->
    (forall s,
       (exists p h', Params.new_HttpParams (fromString_only s) h = Ok (p, h') /\ wf h')
       \/ Params.new_HttpParams (fromString_only s) h = Throw URIError)
    /\ (forall a b,
          no_escape b = true ->
          Params.new_HttpParams (fromString_only (a +:+ String "%" b)) h = Throw URIError).
Proof.
  intros h Hwf. split.
  - intros s. pose proof (new_HttpParams_spec h (fromString_only s) Hwf (object_ok_nil h)) as Hnew.
    rewrite constructed_fromString in Hnew.
    destruct (negb (String.eqb s EmptyString)).
    + destruct (parse HttpUrlEncodingCodec s) as [am|e] eqn:E.
      * destruct Hnew as (o & h' & Hrun & Hwf' & _). left. by exists (length (objs h)), h'.
      * right. rewrite Hnew. f_equal. by eapply parse_throws.
    + destruct Hnew as (o & h' & Hrun & Hwf' & _). left. by exists (length (objs h)), h'.
  - intros a b Hb.
    pose proof (new_HttpParams_spec h (fromString_only (a +:+ String "%" b)) Hwf
                  (object_ok_nil h)) as Hnew.
    rewrite constructed_fromString in Hnew.
    assert (Hne : negb (String.eqb (a +:+ String "%" b) EmptyString) = true) by (by destruct a).
    rewrite Hne in Hnew.
    rewrite (parse_stray (a +:+ String "%" b)) in Hnew; [done|].
    by exists a, b.
Qed.

Lemma a_malformed_escape_fails_the_construction_witness :
  Params.new_HttpParams (fromString_only "a=1&rate=100%&b=2") empty_heap = Throw URIError.
Proof.
  destruct (a_malformed_escape_fails_the_construction empty_heap wf_empty) as [_ H].
  apply (H "a=1&rate=100" "&b=2"). reflexivity.
Defined.

(** ** The interceptor chain assembler: removals *)

Section RemovalFacts.

Context {W : Type}.

Implicit Types (m : HttpInterceptingManager W) (x y : InterceptorLike W).
Implicit Types (l : list (InterceptorLike W)).

Lemma indexOf_ref_first l1 y l2 (r : nat) :
  Forall (fun z => ref W z <> r) l1 -> ref W y = r ->
  indexOf_ref W r (l1 ++ y :: l2) = Some (length l1).
Proof.
  intros Hl1 Hy. induction Hl1 as [|z l1 Hz _ IH]; simpl.
  - apply Nat.eqb_eq in Hy. by rewrite Hy.
  - apply Nat.eqb_neq in Hz. by rewrite Hz, IH.
Qed.

Lemma remove_first_registration m x l1 y l2 :
  interceptorList W m = l1 ++ y :: l2 ->
  Forall (fun z => ref W z <> ref W x) l1 -> ref W y = ref W x ->
  interceptorList W (remove W m x) = l1 ++ l2.
Proof.
  intros Hm Hl1 Hy. unfold remove. simpl. rewrite Hm.
  rewrite (indexOf_ref_first l1 y l2 _ Hl1 Hy).
  rewrite splice_at_in_range by (rewrite length_app; simpl; lia).
  apply delete_middle.
Qed.

End RemovalFacts.

(** [remove(x)] takes out the first entry that is [x] (by reference) and
    leaves every other entry, in order, a later registration of [x]
    included.  So [remove(x)] after [add(x)] restores the list when [x]
    was not registered before, and removes the earlier registration, not
    the one just added, when it was. *)
Theorem remove_takes_out_the_first_registration :
  forall (W : Type) (m : HttpInterceptingManager W) (x : InterceptorLike W),
    (forall l1 y l2,
       interceptorList W m = l1 ++ y :: l2 ->
       Forall (fun z => ref W z <> ref W x) l1 -> ref W y = ref W x ->
       interceptorList W (remove W m x) = l1 ++ l2
       /\ interceptorList W (remove W (add W m x) x) = l1 ++ l2 ++ [x])
    /\ (Forall (fun z => ref W z <> ref W x) (interceptorList W m) ->
          interceptorList W (remove W (add W m x) x) = interceptorList W m).
Proof.
  intros W m x. split.
  - intros l1 y l2 Hm Hl1 Hy. split; [by eapply remove_first_registration|].
    apply (remove_first_registration (add W m x) x l1 y (l2 ++ [x])); [|done|done].
    simpl. rewrite Hm. by rewrite <- app_assoc.
  - intros Hall.
    rewrite (remove_first_registration (add W m x) x (interceptorList W m) x []);
      [by rewrite app_nil_r|done|done|done].
Qed.

Lemma remove_takes_out_the_first_registration_witness :
  let A := {| ref := 0; item := Instance_ Probe.log (Probe.forwarding "A") |} in
  let B := {| ref := 1; item := Instance_ Probe.log (Probe.forwarding "B") |} in
  let m := new_HttpInterceptingManager Probe.log (Some [A; B; A]) in
  interceptorList Probe.log (remove Probe.log m B) = [A; A]
  /\ interceptorList Probe.log (remove Probe.log (add Probe.log m B) B) = [A; A; B].
Proof.
  intros A B m.
  destruct (remove_takes_out_the_first_registration Probe.log m B) as [H _].
  apply (H [A] B [A]).
  - reflexivity.
  - constructor; [|constructor]. simpl. lia.
  - reflexivity.
Defined.

(** [removeByIndex(i)] for any integer [i]: an index at or past the end
    removes nothing; an index from [0] removes the entry there; a negative
    index counts from the end, and one below minus the length removes the
    first entry. *)
Theorem removeByIndex_at_every_index :
  forall (W : Type) (m : HttpInterceptingManager W) (i : Z),
    let l := interceptorList W m in
    let len := Z.of_nat (length l) in
    interceptorList W (removeByIndex W m i)
    = if (len <=? i)%Z then l
      else if (0 <=? i)%Z then take (Z.to_nat i) l ++ drop (S (Z.to_nat i)) l
      else if (- len <=? i)%Z then
        take (Z.to_nat (len + i)) l ++ drop (S (Z.to_nat (len + i))) l
      else drop 1 l.
Proof.
  intros W m i l len. unfold removeByIndex. simpl. fold l. unfold splice_at. fold len.
  destruct (Z.leb_spec len i) as [Hge|Hlt].
  - assert (E : (i <? 0)%Z = false) by (apply Z.ltb_ge; lia). rewrite E.
    rewrite Z.min_r by lia. rewrite delete_take_drop.
    rewrite take_ge, drop_ge, app_nil_r by lia. done.
  - destruct (Z.leb_spec 0 i) as [H0|Hneg].
    + assert (E : (i <? 0)%Z = false) by (apply Z.ltb_ge; lia). rewrite E.
      rewrite Z.min_l by lia. apply delete_take_drop.
    + assert (E : (i <? 0)%Z = true) by (apply Z.ltb_lt; lia). rewrite E.
      destruct (Z.leb_spec (- len) i) as [Hin|Hout].
      * rewrite Z.max_l by lia. apply delete_take_drop.
      * rewrite Z.max_r by lia. simpl. by destruct l.
Qed.

(** ** The request API: what the observe modes show *)

Section ObserveFacts.

Context {W : Type}.

Lemma map_items_total {A B} (f : A -> B) (l : list A) :
  map_items (fun x => Ok (f x)) l = (f <$> l, None).
Proof. induction l as [|x l IH]; simpl; [done|]. by rewrite IH. Qed.

(** A projection that may throw delivers the results up to the first
    throw. *)
Lemma map_items_prefix {A B} (project : A -> result B) (f : A -> B) (ok : A -> bool)
  (err : jserror) (l : list A) :
  (forall x, project x = if ok x then Ok (f x) else Throw err) ->
  exists n,
    (map_items project l).1 = f <$> take n l
    /\ Forall (fun x => ok x = true) (take n l)
    /\ ((n = length l /\ (map_items project l).2 = None)
        \/ (exists x, l !! n = Some x /\ ok x = false
                      /\ (map_items project l).2 = Some err)).
Proof.
  intros Hp. induction l as [|x l IH]; simpl.
  - exists 0. split; [done|]. split; [constructor|]. by left.
  - rewrite (Hp x). destruct (ok x) eqn:Hx.
    + destruct IH as (n & Hitems & Hall & Hend).
      destruct (map_items project l) as [ys e]. simpl in *.
      exists (S n). simpl. split; [by rewrite Hitems|].
      split; [by constructor|].
      destruct Hend as [[-> ->]|(y & Hy & Hbad & ->)]; [by left|].
      right. by exists y.
    + exists 0. simpl. split; [done|]. split; [constructor|].
      right. by exists x.
Qed.

Lemma project_body_checked rt (r : HttpEvent) :
  (match Client.project_body rt r with
   | Ok b => Ok (inr b : Client.emitted)
   | Throw e => Throw e
   end)
  = if shape_ok rt (Client.body_of r) then Ok (inr (Client.body_of r))
    else Throw (Error (shape_error rt)).
Proof.
  unfold Client.project_body, shape_ok, shape_error.
  destruct rt; [| |done|];
    by destruct (Client.is_null (Client.body_of r)),
                (Client.is_ArrayBuffer (Client.body_of r)),
                (Client.is_Blob (Client.body_of r)),
                (Client.is_string (Client.body_of r)).
Qed.

End ObserveFacts.

(** The three observe modes show one and the same dispatch.  Subscribed
    on the same state, [events] delivers every event, [response] delivers
    the responses among them in the same order, and [body] under [json]
    delivers the bodies of those responses; all three end as the dispatch
    ends and leave the same state. *)
Theorem observe_modes_show_the_same_dispatch :
  forall (W : Type) (this : Client.HttpClient W) (req : HttpRequest) (st : Client.state W),
    exists oe ores ob,
      Client.request W this req (Some "events") = Ok oe
      /\ Client.request W this req (Some "response") = Ok ores
      /\ Client.request W this req None = Ok ob
      /\ let '(t, st') := defer (Client.dispatch W this req) st in
         let responses := List.filter Client.is_response (items t) in
         oe st = ({| items := inl <$> items t; fin := fin t |}, st')
         /\ ores st = ({| items := inl <$> responses; fin := fin t |}, st')
         /\ (responseType req = json ->
               ob st = ({| items := (fun r => inr (Client.body_of r)) <$> responses;
                           fin := fin t |}, st')).
Proof.
  intros W this req st.
  eexists _, _, _. split; [reflexivity|]. split; [reflexivity|].
  split; [by apply request_body; left|].
  unfold pipe. destruct (defer (Client.dispatch W this req) st) as [t st'].
  unfold map_op, filter_op. simpl. rewrite !map_items_total.
  split; [done|]. split; [done|].
  intros Hjson. rewrite Hjson. simpl.
  by rewrite (map_items_total (fun r => inr (Client.body_of r))).
Qed.

(** In [body] mode the stream delivers the bodies of the responses of the
    dispatch, in order, as long as they pass the check of the request's
    response type, and nothing else.  It ends as the dispatch ends when
    all pass; at the first that does not it fails with the error of that
    check, and what follows is not delivered. *)
Theorem body_stream_is_a_checked_prefix_of_the_responses :
  forall (W : Type) (this : Client.HttpClient W) (req : HttpRequest) (observe : option string)
         (st : Client.state W),
    observe = None \/ observe = Some "body" ->
    exists obs,
      Client.request W this req observe = Ok obs
      /\ let '(t, st') := defer (Client.dispatch W this req) st in
         let responses := List.filter Client.is_response (items t) in
         let rt := responseType req in
         exists n,
           (obs st).2 = st'
           /\ items (obs st).1 = (fun r => inr (Client.body_of r)) <$> take n responses
           /\ Forall (fun r => shape_ok rt (Client.body_of r) = true) (take n responses)
           /\ ((n = length responses /\ fin (obs st).1 = fin t)
               \/ (exists r, responses !! n = Some r
                             /\ shape_ok rt (Client.body_of r) = false
                             /\ fin (obs st).1 = Failed (Error (shape_error rt)))).
Proof.
  intros W this req observe st Hobs.
  eexists. split; [by apply request_body|].
  unfold pipe. destruct (defer (Client.dispatch W this req) st) as [t st'].
  set (responses := List.filter Client.is_response (items t)).
  set (rt := responseType req).
  destruct (map_items_prefix
              (fun r => match Client.project_body rt r with
                        | Ok b => Ok (inr b : Client.emitted)
                        | Throw e => Throw e
                        end)
              (fun r => inr (Client.body_of r))
              (fun r => shape_ok rt (Client.body_of r))
              (Error (shape_error rt)) responses (project_body_checked rt))
    as (n & Hitems & Hall & Hend).
  exists n. unfold map_op, filter_op. simpl. fold responses. fold rt.
  destruct (map_items _ responses) as [ys e]. simpl in *.
  destruct Hend as [[-> ->]|(r & Hr & Hbad & ->)]; simpl.
  - split; [done|]. split; [done|]. split; [done|]. by left.
  - split; [done|]. split; [done|]. split; [done|]. right. by exists r.
Qed.

Lemma body_stream_is_a_checked_prefix_of_the_responses_witness :
  let this := {| Client.adapter :=
                   Probe.responding "T" [EResponse (BString "a"); EOther 1;
                                         EResponse BObject; EResponse (BString "b")] |} in
  let st := {| Client.interceptors := None; Client.world := [] |} in
  exists obs,
    Client.request Probe.log this (Probe.a_request_for text) None = Ok obs
    /\ (obs st).1 = {| items := [inr (BString "a")];
                       fin := Failed (Error "Response is not a string.") |}.
Proof.
  intros this st.
  destruct (body_stream_is_a_checked_prefix_of_the_responses
              Probe.log this (Probe.a_request_for text) None st (or_introl eq_refl))
    as (obs & Hreq & _).
  exists obs. split; [exact Hreq|].
  injection Hreq as <-. reflexivity.
Defined.

(** ** The request value: construction, serialization, [clone] *)

Section RequestMore.

Implicit Types (h : heap) (o : HttpParams) (am : amap) (options : HttpRequestInit).

(** Whatever the constructor returns is the value [built_request]
    describes. *)
Lemma new_HttpRequest_fields h options req h' :
  new_HttpRequest options h = Ok (req, h') ->
  exists q u, req = built_request options q u.
Proof.
  unfold new_HttpRequest. destruct (init_params options) as [p0|].
  - unfold mbind, M_bind, bind.
    destruct (Params.clone p0 None h) as [[q h1]|]; [|done].
    destruct (Params.toString q h1) as [[t h2]|]; [|done].
    destruct (String.length t =? 0)%nat; [intros [= <- <-]; by eexists _, _|].
    destruct (init_url options); [|done].
    intros [= <- <-]. by eexists _, _.
  - unfold mbind, M_bind, bind.
    destruct (Params.new_HttpParams _ h) as [[q h1]|]; [|done].
    intros [= <- <-]. by eexists _, _.
Qed.

(** The constructor with a container of a sound store: the store it
    leaves is sound, and the request keeps a new instance, settled, that
    reads as the given container did. *)
Lemma new_HttpRequest_full h p o options (u : string) :
  wf h -> objs h !! p = Some o -> init_params options = Some p ->
  init_url options = Some u ->
  let q := length (objs h) in
  exists h' m',
    new_HttpRequest options h
    = Ok (built_request options q
            (Some (join_url u (serialize (encoder o) (logical h o)))), h')
    /\ wf h'
    /\ objs h' !! q = Some (settled (cloned p o None) m')
    /\ map_ok h' m' /\ view h' m' = logical h o.
Proof.
  intros Hwf Ho Hp Hu q.
  destruct (clone_spec h p o None Hwf Ho) as (Hclone & Hwf1 & Hq & Hlog).
  destruct (reads_settle _ _ _ Hwf1 Hq)
    as (h' & m' & Ho' & Hok' & Hview & Hwf' & _ & _ & _ & Hstr & _).
  rewrite Hlog in Hstr, Hview.
  change (replay (default [] None) (logical h o)) with (logical h o) in Hstr, Hview.
  change (encoder (cloned p o None)) with (encoder o) in Hstr.
  exists h', m'. split; [|done].
  unfold new_HttpRequest. rewrite Hp, Hu.
  rewrite (bind_ok _ _ _ _ _ Hclone), (bind_ok _ _ _ _ _ Hstr).
  unfold join_url, built_request.
  by destruct (String.length (serialize (encoder o) (logical h o)) =? 0)%nat.
Qed.

(** The constructor without a URL: with nothing to join it leaves
    [urlWithParams] undefined; with parameters to join it throws. *)
Lemma new_HttpRequest_no_url h p o options :
  wf h -> objs h !! p = Some o -> init_params options = Some p ->
  init_url options = None ->
  let s := serialize (encoder o) (logical h o) in
  (s = EmptyString ->
   exists h', new_HttpRequest options h
              = Ok (built_request options (length (objs h)) None, h'))
  /\ (s <> EmptyString -> new_HttpRequest options h = Throw TypeError).
Proof.
  intros Hwf Ho Hp Hu s.
  destruct (clone_spec h p o None Hwf Ho) as (Hclone & Hwf1 & Hq & Hlog).
  destruct (reads_settle _ _ _ Hwf1 Hq)
    as (h' & m' & Ho' & Hok' & Hview & Hwf' & _ & _ & _ & Hstr & _).
  rewrite Hlog in Hstr.
  change (replay (default [] None) (logical h o)) with (logical h o) in Hstr.
  change (encoder (cloned p o None)) with (encoder o) in Hstr.
  fold s in Hstr.
  unfold new_HttpRequest. rewrite Hp, Hu.
  rewrite (bind_ok _ _ _ _ _ Hclone), (bind_ok _ _ _ _ _ Hstr).
  split.
  - intros ->. by exists h'.
  - intros Hne. destruct s; [done|reflexivity].
Qed.

(** A chain of [set] calls: the instance it ends at, in a sound store,
    stands for the mapping with every key set in order. *)
Lemma set_chain (setParams : list (string * string)) h p o :
  wf h -> objs h !! p = Some o ->
  exists q oq h',
    foldM (fun params '(param, v) => Params.set params param (PStr v)) p setParams h
    = Ok (q, h')
    /\ wf h' /\ objs h' !! q = Some oq
    /\ encoder oq = encoder o
    /\ logical h' oq = with_params_set setParams (logical h o).
Proof.
  revert h p o. induction setParams as [|[k v] sp IH]; intros h p o Hwf Ho.
  - by exists p, o, h.
  - destruct (clone_spec h p o (Some [upd OpS k (Some (PStr v))]) Hwf Ho)
      as (Hclone & Hwf1 & Hq & Hlog).
    destruct (IH _ _ _ Hwf1 Hq) as (q & oq & h' & Hrun & Hwf' & Hoq & Henc & Hlogq).
    exists q, oq, h'. split; [|split; [done|split; [done|split; [done|]]]].
    + cbn [foldM]. unfold Params.set at 1. unfold upd in Hclone.
      by rewrite (bind_ok _ _ _ _ _ Hclone).
    + rewrite Hlogq, Hlog. done.
Qed.

(** The container [clone] hands to the constructor. *)
Lemma clone_params_chain h p o (setParams : option (list (string * string))) :
  wf h -> objs h !! p = Some o ->
  exists q oq h1,
    match setParams with
    | Some setParams =>
        foldM (fun params '(param, v) => Params.set params param (PStr v)) p setParams
    | None => ret p
    end h = Ok (q, h1)
    /\ wf h1 /\ objs h1 !! q = Some oq /\ encoder oq = encoder o
    /\ logical h1 oq = with_params_set (default [] setParams) (logical h o).
Proof.
  intros Hwf Ho. destruct setParams as [sp|].
  - by apply set_chain.
  - by exists p, o, h.
Qed.

End RequestMore.

(** A request whose method cannot have a body ([GET], [DELETE], [JSONP])
    has none, whatever body the options carry: its body is [null],
    [serializeBody()] returns [null] and [detectContentTypeHeader()]
    returns [null].  Under [POST] and [PUT] the body is the one given. *)
Theorem a_bodiless_method_drops_the_body :
  forall (h h' : heap) (options : HttpRequestInit) (req : HttpRequest),
    new_HttpRequest options h = Ok (req, h') ->
    (init_method options = GET \/ init_method options = DELETE
     \/ init_method options = JSONP ->
       body req = BNull
       /\ RequestMethods.serializeBody req h' = Ok (RequestMethods.SerNull, h')
       /\ RequestMethods.detectContentTypeHeader req = None)
    /\ (init_method options = POST \/ init_method options = PUT ->
          body req = init_body options).
Proof.
  intros h h' options req Hnew.
  destruct (new_HttpRequest_fields _ _ _ _ Hnew) as (q & u & ->).
  split.
  - intros Hm.
    assert (Hb : body (built_request options q u) = BNull).
    { unfold built_request. simpl. by destruct Hm as [-> | [-> | ->]]. }
    split; [done|].
    unfold RequestMethods.serializeBody, RequestMethods.detectContentTypeHeader.
    by rewrite Hb.
  - intros Hm. unfold built_request. simpl. by destruct Hm as [-> | ->].
Qed.

Lemma a_bodiless_method_drops_the_body_witness :
  exists req h',
    new_HttpRequest {| init_method := DELETE; init_url := Some "/x";
                       init_body := BString "payload"; init_params := None;
                       init_reportProgress := None; init_responseType := None;
                       init_withCredentials := None |} empty_heap = Ok (req, h')
    /\ body req = BNull
    /\ RequestMethods.serializeBody req h' = Ok (RequestMethods.SerNull, h')
    /\ RequestMethods.detectContentTypeHeader req = None.
Proof.
  set (options := {| init_method := DELETE; init_url := Some "/x";
                     init_body := BString "payload"; init_params := None;
                     init_reportProgress := None; init_responseType := None;
                     init_withCredentials := None |}).
  eexists _, _. split; [reflexivity|].
  apply (a_bodiless_method_drops_the_body empty_heap _ options _ eq_refl).
  right. by left.
Defined.

(** [serializeBody()] on a sound store, body by body.  A body that is
    [undefined] (a [POST] built without a body has one) makes it throw
    [TypeError], while [detectContentTypeHeader()] returns [null] for it.
    An object that [JSON.stringify] rejects makes it throw [TypeError]
    too, under the JSON content type.  A container as body is sent as
    its [toString()], under the form content type.  Every other body is
    serialized without touching the store, and the result is [null]
    exactly when the body is. *)
Theorem serializeBody_on_a_sound_store :
  forall (h : heap) (req : HttpRequest),
    wf h ->
    (forall p, body req = BParams p -> p < length (objs h)) ->
    (body req = BUndefined ->
       RequestMethods.serializeBody req h = Throw TypeError
       /\ RequestMethods.detectContentTypeHeader req = None)
    /\ (body req = BCircular ->
          RequestMethods.serializeBody req h = Throw TypeError
          /\ RequestMethods.detectContentTypeHeader req = Some "application/json")
    /\ (forall p, body req = BParams p ->
          exists o,
            objs h !! p = Some o
            /\ run (RequestMethods.serializeBody req) h
               = Ok (RequestMethods.SerText (serialize (encoder o) (logical h o)))
            /\ RequestMethods.detectContentTypeHeader req
               = Some "application/x-www-form-urlencoded;charset=UTF-8")
    /\ (body req <> BUndefined -> body req <> BCircular ->
        (forall p, body req <> BParams p) ->
          exists ser,
            RequestMethods.serializeBody req h = Ok (ser, h)
            /\ (ser = RequestMethods.SerNull <-> body req = BNull)).
Proof.
  intros h req Hwf Hp.
  unfold RequestMethods.serializeBody, RequestMethods.detectContentTypeHeader.
  destruct (body req) as [| |l|ty| | |s|p|n|b| |] eqn:Hb;
    (split; [done|]); (split; [done|]); (split; [try done|]);
    try (intros _ _ _; eexists; split; [reflexivity|]; split; done);
    try (by intros H).
  - intros p' [= <-].
    destruct (lookup_lt_is_Some_2 _ _ (Hp p eq_refl)) as [o Ho].
    destruct (reads_spec h p o Hwf Ho) as (h' & _ & _ & _ & _ & _ & Hstr & _).
    exists o. split; [done|]. split; [|done].
    simpl. unfold run. by rewrite (bind_ok _ _ _ _ _ Hstr).
  - intros _ _ Hno. exfalso. by apply (Hno p).
  - intros _ _ _. destruct b; eexists; (split; [reflexivity|]); split; done.
Qed.

Lemma serializeBody_on_a_sound_store_witness :
  let req := {| body := BParams 1; params := 0; reportProgress := false;
                withCredentials := false; method := POST; url := None;
                urlWithParams := Some "/x"; responseType := json |} in
  run (RequestMethods.serializeBody req) Probe.sample_store
  = Ok (RequestMethods.SerText "a=1&a=2&b=3&c=4")
  /\ RequestMethods.detectContentTypeHeader req
     = Some "application/x-www-form-urlencoded;charset=UTF-8".
Proof.
  intros req.
  assert (Hwf : wf Probe.sample_store) by (apply (bool_decide_unpack _); vm_compute; exact I).
  assert (Hp : forall p, body req = BParams p -> p < length (objs Probe.sample_store))
    by (intros p [= <-]; vm_compute; lia).
  destruct (serializeBody_on_a_sound_store Probe.sample_store req Hwf Hp)
    as (_ & _ & Hparams & _).
  destruct (Hparams 1 eq_refl) as (o & Ho & Hser & Hct).
  split; [|exact Hct].
  rewrite Hser. injection Ho as <-. vm_compute. reflexivity.
Defined.

(** [clone(update)] with a non-empty [update.url], on a sound store in
    which the container it takes the parameters from ([update.params],
    or else the request's own) stands for the mapping [am].  The new
    request has the method and the body of the update where it gives
    them (an [undefined] body does not count); its body is [null] when
    its method cannot have one; its flags and its response type are
    those of the update where it gives them; its parameters are a new
    container that reads as [am] with every entry of [setParams] set, in
    order; and its [urlWithParams] is the URL of the update joined with
    what that container serializes to. *)
Theorem clone_applies_the_update :
  forall (h : heap) (req : HttpRequest) (update : RequestMethods.HttpRequestUpdate)
         (o : HttpParams) (u : string),
    wf h ->
    objs h !! default (params req) (RequestMethods.update_params update) = Some o ->
    RequestMethods.update_url update = Some u -> u <> EmptyString ->
    let am := with_params_set (default [] (RequestMethods.update_setParams update))
                              (logical h o) in
    exists req',
      run (RequestMethods.clone req update) h = Ok req'
      /\ run (r ← RequestMethods.clone req update; Mapping.snapshot (params r)) h = Ok am
      /\ method req' = default (method req) (RequestMethods.update_method update)
      /\ body req' = (if mightHaveBody (method_name (method req'))
                      then match RequestMethods.update_body update with
                           | BUndefined => body req
                           | b => b
                           end
                      else BNull)
      /\ responseType req'
         = default (responseType req) (RequestMethods.update_responseType update)
      /\ reportProgress req'
         = default (reportProgress req) (RequestMethods.update_reportProgress update)
      /\ withCredentials req'
         = default (withCredentials req) (RequestMethods.update_withCredentials update)
      /\ urlWithParams req' = Some (join_url u (serialize (encoder o) am)).
Proof.
  intros h req update o u Hwf Ho Hu Hne am.
  set (p0 := default (params req) (RequestMethods.update_params update)) in *.
  destruct (clone_params_chain h p0 o (RequestMethods.update_setParams update) Hwf Ho)
    as (q & oq & h1 & Hrun & Hwf1 & Hoq & Henc & Hlog).
  fold am in Hlog.
  assert (Ht : Params.truthy_string (RequestMethods.update_url update) = true).
  { rewrite Hu. simpl. by destruct u. }
  set (options :=
         {| init_method := default (method req) (RequestMethods.update_method update);
            init_url := Some u;
            init_body := match RequestMethods.update_body update with
                         | BUndefined => body req
                         | b => b
                         end;
            init_params := Some q;
            init_reportProgress :=
              Some (default (reportProgress req)
                            (RequestMethods.update_reportProgress update));
            init_responseType :=
              Some (default (responseType req)
                            (RequestMethods.update_responseType update));
            init_withCredentials :=
              Some (default (withCredentials req)
                            (RequestMethods.update_withCredentials update)) |}).
  destruct (new_HttpRequest_full h1 q oq options u Hwf1 Hoq eq_refl eq_refl)
    as (h2 & m2 & Hnew & Hwf2 & Ho2 & Hok2 & Hview2).
  rewrite Henc, Hlog in Hnew. rewrite Hlog in Hview2.
  assert (Hclone : RequestMethods.clone req update h
                   = Ok (built_request options (length (objs h1))
                                       (Some (join_url u (serialize (encoder o) am))),
                         h2)).
  { unfold RequestMethods.clone. fold p0. rewrite Ht, Hu.
    by rewrite (bind_ok _ _ _ _ _ Hrun). }
  eexists. split; [by eapply run_ok|].
  split; [|done].
  rewrite (run_bind _ _ _ _ _ Hclone). simpl.
  rewrite <- Hview2. eapply run_ok.
  by apply (snapshot_settled h2 _ (settled (cloned q oq None) m2) m2).
Qed.

Lemma clone_applies_the_update_witness :
  let req := {| body := BString "x"; params := 0; reportProgress := false;
                withCredentials := false; method := POST; url := None;
                urlWithParams := Some "/x?a=1&a=2&b=3"; responseType := json |} in
  let update := {| RequestMethods.update_reportProgress := None;
                   RequestMethods.update_responseType := None;
                   RequestMethods.update_withCredentials := None;
                   RequestMethods.update_body := BUndefined;
                   RequestMethods.update_method := Some GET;
                   RequestMethods.update_url := Some "/y";
                   RequestMethods.update_params := None;
                   RequestMethods.update_setParams := Some [("a", "9"); ("z", "0")] |} in
  exists req',
    run (RequestMethods.clone req update) Probe.sample_store = Ok req'
    /\ method req' = GET /\ body req' = BNull
    /\ urlWithParams req' = Some "/y?a=9&b=3&z=0".
Proof.
  intros req update.
  assert (Ho : exists o, objs Probe.sample_store !! 0 = Some o
                         /\ encoder o = HttpUrlEncodingCodec
                         /\ logical Probe.sample_store o
                            = [("a", [PStr "1"; PStr "2"]); ("b", [PStr "3"])]).
  { eexists. split; [reflexivity|]. split; reflexivity. }
  destruct Ho as (o & Ho & Henc & Hlog).
  destruct (clone_applies_the_update Probe.sample_store req update o "/y")
    as (req' & Hrun & _ & Hm & Hb & _ & _ & _ & Hurl).
  - apply (bool_decide_unpack _). vm_compute. exact I.
  - exact Ho.
  - reflexivity.
  - discriminate.
  - exists req'. split; [exact Hrun|]. split; [exact Hm|].
    split; [by rewrite Hb, Hm|].
    rewrite Hurl, Henc, Hlog. vm_compute. reflexivity.
Defined.

(** [clone(update)] without a URL of its own.  The constructor never
    assigns the field [url], so every request it builds has it
    [undefined], and a [clone] whose update gives no URL, or an empty
    one, hands [undefined] on to the constructor: on a sound store in
    which the container the parameters are taken from stands for [am],
    the call throws [TypeError] when [am] with the entries of [setParams]
    set serializes to a non-empty text, and otherwise returns a request
    whose [urlWithParams] is [undefined]. *)
Theorem clone_without_a_url_has_none_to_keep :
  (forall (h h' : heap) (options : HttpRequestInit) (req : HttpRequest),
      new_HttpRequest options h = Ok (req, h') -> url req = None)
  /\ (forall (h : heap) (req : HttpRequest) (update : RequestMethods.HttpRequestUpdate)
             (o : HttpParams),
        wf h ->
        objs h !! default (params req) (RequestMethods.update_params update) = Some o ->
        url req = None ->
        RequestMethods.update_url update = None
        \/ RequestMethods.update_url update = Some EmptyString ->
        let am := with_params_set (default [] (RequestMethods.update_setParams update))
                                  (logical h o) in
        (serialize (encoder o) am <> EmptyString ->
           RequestMethods.clone req update h = Throw TypeError)
        /\ (serialize (encoder o) am = EmptyString ->
              exists req',
                run (RequestMethods.clone req update) h = Ok req'
                /\ urlWithParams req' = None /\ url req' = None
                /\ method req' = default (method req) (RequestMethods.update_method update))).
Proof.
  split.
  - intros h h' options req Hnew.
    by destruct (new_HttpRequest_fields _ _ _ _ Hnew) as (q & u & ->).
  - intros h req update o Hwf Ho Hurl Hu am.
    set (p0 := default (params req) (RequestMethods.update_params update)) in *.
    destruct (clone_params_chain h p0 o (RequestMethods.update_setParams update) Hwf Ho)
      as (q & oq & h1 & Hrun & Hwf1 & Hoq & Henc & Hlog).
    fold am in Hlog.
    assert (Ht : Params.truthy_string (RequestMethods.update_url update) = false)
      by (by destruct Hu as [-> | ->]).
    set (options :=
           {| init_method := default (method req) (RequestMethods.update_method update);
              init_url := None;
              init_body := match RequestMethods.update_body update with
                           | BUndefined => body req
                           | b => b
                           end;
              init_params := Some q;
              init_reportProgress :=
                Some (default (reportProgress req)
                              (RequestMethods.update_reportProgress update));
              init_responseType :=
                Some (default (responseType req)
                              (RequestMethods.update_responseType update));
              init_withCredentials :=
                Some (default (withCredentials req)
                              (RequestMethods.update_withCredentials update)) |}).
    assert (Hclone : RequestMethods.clone req update h = new_HttpRequest options h1).
    { unfold RequestMethods.clone. fold p0. rewrite Ht, Hurl.
      by rewrite (bind_ok _ _ _ _ _ Hrun). }
    destruct (new_HttpRequest_no_url h1 q oq options Hwf1 Hoq eq_refl eq_refl)
      as [Hempty Hthrow].
    rewrite Henc, Hlog in Hempty, Hthrow.
    split.
    + intros Hne. rewrite Hclone. by apply Hthrow.
    + intros He. destruct (Hempty He) as [h2 Hnew].
      eexists. split; [eapply run_ok; by rewrite Hclone|]. done.
Qed.

Lemma clone_without_a_url_has_none_to_keep_witness :
  let req := {| body := BNull; params := 0; reportProgress := false;
                withCredentials := false; method := GET; url := None;
                urlWithParams := Some "/x?a=1&a=2&b=3"; responseType := json |} in
  (exists built h',
      new_HttpRequest (Probe.get_with_params "/x" 0) Probe.sample_store = Ok (built, h')
      /\ url built = None)
  /\ RequestMethods.clone req no_update Probe.sample_store = Throw TypeError.
Proof.
  intros req. split.
  - set (options := Probe.get_with_params "/x" 0).
    destruct (new_HttpRequest options Probe.sample_store) as [[built h']|e] eqn:Hnew.
    + exists built, h'. split; [reflexivity|].
      exact (proj1 clone_without_a_url_has_none_to_keep _ _ _ _ Hnew).
    + exfalso. vm_compute in Hnew. discriminate.
  - assert (Ho : exists o, objs Probe.sample_store !! 0 = Some o
                           /\ encoder o = HttpUrlEncodingCodec
                           /\ logical Probe.sample_store o
                              = [("a", [PStr "1"; PStr "2"]); ("b", [PStr "3"])]).
    { eexists. split; [reflexivity|]. split; reflexivity. }
    destruct Ho as (o & Ho & Henc & Hlog).
    assert (Hwf : wf Probe.sample_store)
      by (apply (bool_decide_unpack _); vm_compute; exact I).
    apply (proj1 (proj2 clone_without_a_url_has_none_to_keep Probe.sample_store req
                    no_update o Hwf Ho eq_refl (or_introl eq_refl))).
    rewrite Henc, Hlog. vm_compute. discriminate.
Defined.

(** ** The request API: the calls by method *)

Section ClientCalls.

Context {W : Type}.

Implicit Types (h : heap) (this : Client.HttpClient W) (options : Client.Options).

(** [_requestInternal] on a sound store: the request it builds and hands
    to [request]. *)
Lemma requestInternal_sends this (method : HttpMethod) (url : string) (b : jsbody)
  options h s :
  wf h ->
  (forall fo, Client.options_params options = Some (Client.ParamsObject fo) ->
              object_ok h fo) ->
  params_text h (Client.options_params options) = Some s ->
  exists q,
    sends this (Client._requestInternal W this method url b options) h
          (Client.observe options)
          {| body := if mightHaveBody (method_name method) then b else BNull;
             params := q;
             reportProgress := default false (Client.options_reportProgress options);
             withCredentials := default false (Client.options_withCredentials options);
             method := method; url := None; urlWithParams := Some (join_url url s);
             responseType := default json (Client.options_responseType options) |}.
Proof.
  intros Hwf Hobj Hs.
  assert (Hparams : exists p o h1,
             match Client.options_params options with
             | Some (Client.ParamsInstance p) => ret p
             | Some (Client.ParamsObject fo) =>
                 Params.new_HttpParams {| Params.fromString := None;
                                          Params.fromObject := Some fo;
                                          Params.options_encoder := None |}
             | None =>
                 Params.new_HttpParams {| Params.fromString := None;
                                          Params.fromObject := None;
                                          Params.options_encoder := None |}
             end h = Ok (p, h1)
             /\ wf h1 /\ objs h1 !! p = Some o
             /\ serialize (encoder o) (logical h1 o) = s).
  { destruct (Client.options_params options) as [[p|fo]|]; simpl in Hs.
    - destruct (objs h !! p) as [o|] eqn:Ho; [|done]. injection Hs as Hs.
      by exists p, o, h.
    - injection Hs as Hs.
      pose proof (new_HttpParams_spec h {| Params.fromString := None;
                                            Params.fromObject := Some fo;
                                            Params.options_encoder := None |} Hwf
                    (Hobj fo eq_refl)) as Hnew.
      simpl in Hnew. destruct Hnew as (o & h1 & Hrun & Hwf1 & Hobjs & _ & Henc & Hlog & _).
      exists (length (objs h)), o, h1. split; [done|]. split; [done|].
      split; [rewrite Hobjs; by apply list_lookup_middle|].
      by rewrite Henc, Hlog.
    - injection Hs as Hs.
      pose proof (new_HttpParams_spec h {| Params.fromString := None;
                                            Params.fromObject := None;
                                            Params.options_encoder := None |} Hwf
                    (object_ok_nil h)) as Hnew.
      simpl in Hnew. destruct Hnew as (o & h1 & Hrun & Hwf1 & Hobjs & _ & Henc & Hlog & _).
      exists (length (objs h)), o, h1. split; [done|]. split; [done|].
      split; [rewrite Hobjs; by apply list_lookup_middle|].
      by rewrite Hlog. }
  destruct Hparams as (p & o & h1 & Hrun & Hwf1 & Ho & Hser).
  set (init := {| init_method := method; init_url := Some url; init_body := b;
                  init_params := Some p;
                  init_reportProgress := Client.options_reportProgress options;
                  init_responseType := Client.options_responseType options;
                  init_withCredentials := Client.options_withCredentials options |}).
  destruct (new_HttpRequest_full h1 p o init url Hwf1 Ho eq_refl eq_refl)
    as (h2 & m2 & Hnew & _).
  rewrite Hser in Hnew.
  exists (length (objs h1)), h2.
  unfold Client._requestInternal.
  rewrite (bind_ok _ _ _ _ _ Hrun). fold init. rewrite (bind_ok _ _ _ _ _ Hnew).
  reflexivity.
Qed.

End ClientCalls.

(** The calls by method, on a sound store (no container holds one array
    under two keys; a plain object given as [params] lists arrays that
    exist, none of them twice).  Each builds its request at the call and
    returns what [request] returns for it under the given observe mode.  The request has the method of the call; [get] and
    [delete] send no body and [post] and [put] the body given;
    [urlWithParams] is the URL given joined with what the [params] option
    serializes to (a plain object under the default codec), the field
    [url] is left undefined, and the response type is [json] unless
    given. *)
Theorem client_calls_build_the_request_they_send :
  forall (W : Type) (this : Client.HttpClient W) (url : string) (b : jsbody)
         (options : Client.Options) (h : heap) (s : string),
    wf h ->
    (forall fo, Client.options_params options = Some (Client.ParamsObject fo) ->
                object_ok h fo) ->
    params_text h (Client.options_params options) = Some s ->
    let request_of (method : HttpMethod) (body : jsbody) (q : loc) : HttpRequest :=
      {| body := body; params := q;
         reportProgress := default false (Client.options_reportProgress options);
         withCredentials := default false (Client.options_withCredentials options);
         method := method; url := None; urlWithParams := Some (join_url url s);
         responseType := default json (Client.options_responseType options) |} in
    (exists q, sends this (Client.get W this url options) h (Client.observe options)
                     (request_of GET BNull q))
    /\ (exists q, sends this (Client.delete W this url options) h (Client.observe options)
                        (request_of DELETE BNull q))
    /\ (exists q, sends this (Client.post W this url b options) h (Client.observe options)
                        (request_of POST b q))
    /\ (exists q, sends this (Client.put W this url b options) h (Client.observe options)
                        (request_of PUT b q)).
Proof.
  intros W this url b options h s Hwf Hobj Hs request_of.
  split; [exact (requestInternal_sends this GET url BNull options h s Hwf Hobj Hs)|].
  split; [exact (requestInternal_sends this DELETE url BNull options h s Hwf Hobj Hs)|].
  split; [exact (requestInternal_sends this POST url b options h s Hwf Hobj Hs)|].
  exact (requestInternal_sends this PUT url b options h s Hwf Hobj Hs).
Qed.

Lemma client_calls_build_the_request_they_send_witness :
  let h := {| objs := []; arrs := [[PNum (int 1); PNum (int 2)]] |} in
  let this := {| Client.adapter := Probe.transport "T" |} in
  let options := {| Client.observe := None; Client.options_responseType := Some text;
                    Client.options_reportProgress := None;
                    Client.options_withCredentials := None;
                    Client.options_params :=
                      Some (Client.ParamsObject [("q", Params.VScalar (PStr "a b"));
                                                 ("n", Params.VArray 0)]) |} in
  exists q, sends this (Client.get Probe.log this "/find" options) h None
                  {| body := BNull; params := q; reportProgress := false;
                     withCredentials := false; method := GET; url := None;
                     urlWithParams := Some "/find?q=a%20b&n=1&n=2";
                     responseType := text |}.
Proof.
  intros h this options.
  destruct (client_calls_build_the_request_they_send
              Probe.log this "/find" BNull options h "q=a%20b&n=1&n=2")
    as [Hget _].
  - constructor.
  - intros fo [= <-]. apply (bool_decide_unpack _). vm_compute. exact I.
  - vm_compute. reflexivity.
  - exact Hget.
Defined.

(** ** The builder *)

(** A client built from a builder that was given the adapter [T] and
    interceptors by successive [addInterceptors] calls dispatches, the
    first time, through the right fold of all of them, resolved in the
    order they were added (an instance as it is, a function by calling
    it), ending in [T]; without an adapter the builder takes the XHR
    adapter over the factory given, or over the default factory. *)
Theorem a_built_client_runs_the_interceptors_added :
  forall (W XhrFactory : Type) (DefaultXhrFactory : XhrFactory)
         (HttpXhrAdapter : XhrFactory -> HttpHandler W) (T : HttpHandler W)
         (l1 l2 : list (InterceptorLike W)) (f : XhrFactory) (req : HttpRequest) (w : W),
    let new := Builder.new_HttpClientBuilder W XhrFactory in
    let build := Builder.build W XhrFactory DefaultXhrFactory HttpXhrAdapter in
    let added b := Builder.addInterceptors W XhrFactory
                     (Builder.addInterceptors W XhrFactory b l1) l2 in
    let '(client, manager) := build (added (Builder.withHttpAdapter W XhrFactory new T)) in
    (exists resolved w1,
        resolved_in_order (l1 ++ l2) w resolved w1
        /\ Client.dispatch W client req
             {| Client.interceptors := Some manager; Client.world := w |}
           = (let '(o, w2) := wraps resolved T req w1 in
              (Client.on_world W o,
               {| Client.interceptors := Some {| chain := Some (wraps resolved T);
                                                 interceptorList := l1 ++ l2 |};
                  Client.world := w2 |})))
    /\ Client.adapter W (build (added new)).1 = HttpXhrAdapter DefaultXhrFactory
    /\ Client.adapter W (build (added (Builder.withXhrFactory W XhrFactory new f))).1
       = HttpXhrAdapter f
    /\ Client.adapter W
         (build (Builder.withXhrFactory W XhrFactory
                   (Builder.withHttpAdapter W XhrFactory new T) f)).1 = T.
Proof.
  intros W XhrFactory DefaultXhrFactory HttpXhrAdapter T l1 l2 f req w new build added.
  simpl. split; [|done].
  unfold Client.dispatch. simpl.
  destruct (handle_unbuilt_resolved (new_HttpInterceptingManager W (Some (l1 ++ l2)))
              T req w eq_refl) as (resolved & w1 & Hres & Hh).
  exists resolved, w1. split; [exact Hres|].
  rewrite Hh. simpl.
  by destruct (wraps resolved T req w1) as [o w2].
Qed.

(** ** The parameter container: reads that write no shared array *)

Section KeepsFacts.

Implicit Types (h : heap) (o : HttpParams) (u : Update) (n : nat).

Lemma keeps_ret n {A} (a : A) (R : A -> Prop) : R a -> keeps n (ret a) R.
Proof. intros HR h a' h' Hs Hn [= <- <-]. done. Qed.

Lemma keeps_bind n {A B} (c : M A) (f : A -> M B) (R : A -> Prop) (R' : B -> Prop) :
  keeps n c R -> (forall a, R a -> keeps n (f a) R') -> keeps n (c ≫= f) R'.
Proof.
  intros Hc Hf h b h2 Hs Hn Hrun. unfold mbind, M_bind, bind in Hrun.
  destruct (c h) as [[a h1]|] eqn:E; [|done].
  destruct (Hc h a h1 Hs Hn E) as (Hs1 & Hn1 & Harr1 & HR).
  destruct (Hf a HR h1 b h2 Hs1 Hn1 Hrun) as (Hs2 & Hn2 & Harr2 & HR').
  split; [done|]. split; [done|]. split; [|done].
  intros i Hi. by rewrite Harr2, Harr1.
Qed.

Lemma keeps_weaken n {A} (c : M A) (R R' : A -> Prop) :
  keeps n c R -> (forall a, R a -> R' a) -> keeps n c R'.
Proof.
  intros Hc Himp h a h' Hs Hn Hrun.
  destruct (Hc h a h' Hs Hn Hrun) as (? & ? & ? & ?). auto.
Qed.

Lemma keeps_unwrap n {A} (x : option A) (R : A -> Prop) :
  (forall a, x = Some a -> R a) -> keeps n (unwrap x) R.
Proof.
  intros HR h a h' Hs Hn. destruct x as [a0|]; [|done].
  intros [= <- <-]. split; [done|]. split; [done|]. split; [done|]. by apply HR.
Qed.

Lemma keeps_getObj n p :
  keeps n (getObj p) (fun o => forallb writes_fresh (default [] (updates o)) = true).
Proof.
  intros h o h' Hs Hn. unfold getObj. destruct (objs h !! p) as [o0|] eqn:Ho; [|done].
  intros [= <- <-]. split; [done|]. split; [done|]. split; [done|].
  unfold no_pending_append in Hs. rewrite Forall_lookup in Hs. by eapply Hs.
Qed.

Lemma keeps_setObj n p o :
  forallb writes_fresh (default [] (updates o)) = true ->
  keeps n (setObj p o) (fun _ => True).
Proof.
  intros Ho h a h' Hs Hn [= <- <-]. simpl.
  split; [by apply Forall_insert|]. done.
Qed.

Lemma keeps_getArr n a : keeps n (getArr a) (fun _ => True).
Proof.
  intros h l h' Hs Hn. unfold getArr. destruct (arrs h !! a); [|done].
  by intros [= <- <-].
Qed.

Lemma keeps_allocArr n l : keeps n (allocArr l) (fun a => n <= a).
Proof.
  intros h a h' Hs Hn [= <- <-]. simpl. split; [done|].
  split; [rewrite length_app; lia|]. split; [|done].
  intros i Hi. apply lookup_app_l. lia.
Qed.

Lemma keeps_setArr n a l : n <= a -> keeps n (setArr a l) (fun _ => True).
Proof.
  intros Ha h x h' Hs Hn [= <- <-]. simpl. split; [done|].
  split; [by rewrite length_insert|]. split; [|done].
  intros i Hi. apply list_lookup_insert_ne. lia.
Qed.

Lemma keeps_this_map n p : keeps n (Params.this_map p) (fun _ => True).
Proof.
  unfold Params.this_map. eapply keeps_bind; [apply keeps_getObj|].
  intros o _. by apply keeps_unwrap.
Qed.

Lemma keeps_set_this_map n p m : keeps n (Params.set_this_map p m) (fun _ => True).
Proof.
  unfold Params.set_this_map. eapply keeps_bind; [apply keeps_getObj|].
  intros o Ho. by apply keeps_setObj.
Qed.

Lemma keeps_forEach n {A} (f : A -> M unit) (l : list A) :
  Forall (fun x => keeps n (f x) (fun _ => True)) l ->
  keeps n (forEach f l) (fun _ => True).
Proof.
  induction 1 as [|x l Hx _ IH]; simpl; [by apply keeps_ret|].
  eapply keeps_bind; [exact Hx|]. intros _ _. exact IH.
Qed.

(** Replaying a [set], or a [delete] of a key, writes only the array it
    allocates. *)
Lemma keeps_applyUpdate n this u :
  writes_fresh u = true -> keeps n (Params.applyUpdate this u) (fun _ => True).
Proof.
  unfold writes_fresh, Params.applyUpdate.
  destruct (op u) eqn:Hop; [done| |].
  - destruct (value u) as [v|]; [done|]. intros _.
    eapply keeps_bind; [apply keeps_this_map|]. intros m _. apply keeps_set_this_map.
  - intros _.
    eapply keeps_bind; [apply keeps_this_map|]. intros m _.
    eapply keeps_bind; [apply keeps_allocArr|]. intros base Hbase.
    eapply keeps_bind.
    { unfold push. eapply keeps_bind; [apply keeps_getArr|].
      intros l _. by apply keeps_setArr. }
    intros _ _. eapply keeps_bind; [apply keeps_this_map|].
    intros m' _. apply keeps_set_this_map.
Qed.

Lemma keeps_init_fuel n fuel this :
  keeps n (Params.init_fuel fuel this) (fun _ => True).
Proof.
  revert this. induction fuel as [|fuel IH]; intros this; [by intros h a h' _ _|].
  cbn [Params.init_fuel].
  eapply keeps_bind; [apply keeps_getObj|]. intros o _.
  eapply (keeps_bind _ _ _ (fun _ => True)).
  { destruct (map o); [by apply keeps_ret|apply keeps_set_this_map]. }
  intros _ _. destruct (cloneFrom o) as [src|]; [|by apply keeps_ret].
  eapply keeps_bind; [apply IH|]. intros _ _.
  eapply keeps_bind; [apply IH|]. intros _ _.
  eapply keeps_bind; [apply keeps_this_map|]. intros sm _.
  eapply keeps_bind.
  { apply keeps_forEach, Forall_forall. intros key _.
    eapply keeps_bind; [apply keeps_this_map|]. intros sm' _.
    eapply (keeps_bind _ _ _ (fun _ => True)); [by apply keeps_unwrap|]. intros a _.
    eapply keeps_bind; [apply keeps_this_map|]. intros m _.
    apply keeps_set_this_map. }
  intros _ _. eapply keeps_bind; [apply keeps_getObj|]. intros o1 Ho1.
  eapply (keeps_bind _ _ _ (fun us => forallb writes_fresh us = true)).
  { apply keeps_unwrap. intros us Hus. simpl in Ho1. by rewrite Hus in Ho1. }
  intros us Hus.
  eapply keeps_bind.
  { apply keeps_forEach, Forall_forall. intros u Hu. apply keeps_applyUpdate.
    apply Is_true_true, forallb_True in Hus. rewrite Forall_forall in Hus.
    by apply Is_true_true, Hus. }
  intros _ _. eapply keeps_bind; [apply keeps_getObj|]. intros o2 _.
  by apply keeps_setObj.
Qed.

End KeepsFacts.

Section QuietReads.

Implicit Types (h : heap) (o : HttpParams) (r p x : loc).

(** What [init] on one instance leaves of the others: the instance
    itself aside when it was pending, every instance keeps its log and
    its source, and its map but for an empty one where it had none. *)
Lemma init_frame h h' r o :
  wf h -> objs h !! r = Some o -> Params.init r h = Ok (tt, h') ->
  forall x ox, objs h !! x = Some ox -> x <> r \/ cloneFrom o = None ->
               exists ox', objs h' !! x = Some ox' /\ same_shape ox ox'.
Proof.
  intros Hwf Ho Hinit x ox Hx Hcase.
  pose proof (wf_lookup h r o Hwf Ho) as [Hmap Hclone].
  assert (Hr : r < length (objs h)) by (by eapply lookup_lt_Some).
  assert (Hxl : x < length (objs h)) by (by eapply lookup_lt_Some).
  unfold Params.init in Hinit.
  destruct (cloneFrom o) as [src|] eqn:Hc.
  - destruct Hcase as [Hne|?]; [|done].
    destruct Hclone as (Hm & [us Hus] & Hsrc).
    destruct (objs h !! src) as [os|] eqn:Hos; [|done].
    assert (Hlen2 : exists f, length (objs h) = S f).
    { destruct (objs h); simpl in *; [lia|eauto]. }
    destruct Hlen2 as [f Hf]. rewrite Hf in Hinit.
    pose proof (wf_lookup h src os Hwf Hos) as [Hmaps _].
    destruct (init_fuel_pending f h r src o os us Ho Hc Hm Hus Hos Hsrc)
      as ([] & h2 & Hrun & m' & Hobjs & _).
    { intros sm Hsm. by rewrite Hsm in Hmaps. }
    rewrite Hrun in Hinit. injection Hinit as <-.
    rewrite Hobjs. rewrite list_lookup_insert_ne by done.
    destruct (decide (x = src)) as [->|Hxs].
    + rewrite list_lookup_insert_eq by (by eapply lookup_lt_Some).
      eexists. split; [done|]. rewrite Hos in Hx. injection Hx as <-.
      by repeat split.
    + rewrite list_lookup_insert_ne by done. exists ox. by repeat split.
  - destruct (init_fuel_not_pending (length (objs h)) h r o Ho Hc)
      as ([] & h2 & Hrun & Hobjs & _).
    rewrite Hrun in Hinit. injection Hinit as <-.
    rewrite Hobjs. destruct (decide (x = r)) as [->|Hxr].
    + rewrite list_lookup_insert_eq by done.
      eexists. split; [done|]. rewrite Ho in Hx. injection Hx as <-.
      by repeat split.
    + rewrite list_lookup_insert_ne by done. exists ox. by repeat split.
Qed.

(** An instance that kept its shape, in a store that kept the arrays,
    stands for the same mapping. *)
Lemma logical_frame h h' o o' :
  wf h -> obj_ok h o -> same_shape o o' ->
  (forall i, i < length (arrs h) -> arrs h' !! i = arrs h !! i) ->
  (forall src os, cloneFrom o = Some src -> objs h !! src = Some os ->
     exists os', objs h' !! src = Some os' /\ same_shape os os') ->
  logical h' o' = logical h o.
Proof.
  intros Hwf [Hmap Hclone] (Hc & Hu & Hm) Harr Hsrc.
  assert (Hview : forall m, map_ok h m -> view h' m = view h m).
  { intros m (_ & _ & Hall). apply view_ext. intros a Ha. apply Harr.
    rewrite Forall_forall in Hall. by apply Hall. }
  unfold logical. rewrite Hc, Hu.
  destruct (cloneFrom o) as [src|] eqn:Hco.
  - destruct Hclone as (_ & _ & Hs).
    destruct (objs h !! src) as [os|] eqn:Hos; [|done].
    destruct (Hsrc src os eq_refl Hos) as (os' & Hos' & _ & _ & Hms).
    rewrite Hos'. simpl. rewrite Hms. f_equal. apply Hview.
    pose proof (wf_lookup h src os Hwf Hos) as [Hmaps _].
    destruct (map os); [done|apply map_ok_nil].
  - rewrite Hm. apply Hview. destruct (map o); [done|apply map_ok_nil].
Qed.

Lemma clone_keeps_no_pending_append h p o update :
  no_pending_append h -> objs h !! p = Some o ->
  forallb writes_fresh (default [] update) = true ->
  no_pending_append (new_obj (cloned p o update) h).
Proof.
  intros Hs Ho Hu. unfold no_pending_append, new_obj. simpl.
  apply Forall_app. split; [done|]. constructor; [|constructor].
  unfold no_pending_append in Hs. rewrite Forall_lookup in Hs.
  pose proof (Hs p o Ho) as Hp. simpl.
  destruct update as [us|]; simpl in *; [|done].
  by rewrite forallb_app, Hp, Hu.
Qed.

End QuietReads.

(** In a sound store in which no container has an [append], or a
    [delete] of a single value, in its log, reading one container never
    changes what another reads: after [toString()] of any [r], every [p]
    reads as before, and the store is again such a store.  [set],
    [delete] of a whole key and [clone()] keep the store so. *)
Theorem reads_without_pending_appends_disturb_no_container :
  forall (h : heap) (r p : loc),
    wf h -> no_pending_append h -> r < length (objs h) -> p < length (objs h) ->
    (exists am t h',
       run (Mapping.snapshot p) h = Ok am
       /\ Params.toString r h = Ok (t, h')
       /\ wf h' /\ no_pending_append h'
       /\ run (Mapping.snapshot p) h' = Ok am)
    /\ (forall k v, exists q h1,
          Params.set p k v h = Ok (q, h1) /\ wf h1 /\ no_pending_append h1)
    /\ (forall k, exists q h1,
          Params.delete p k None h = Ok (q, h1) /\ wf h1 /\ no_pending_append h1)
    /\ (exists q h1, Params.clone p None h = Ok (q, h1) /\ wf h1 /\ no_pending_append h1).
Proof.
  intros h r p Hwf Hs Hr Hp.
  destruct (lookup_lt_is_Some_2 _ _ Hr) as [o Ho].
  destruct (lookup_lt_is_Some_2 _ _ Hp) as [op Hop].
  assert (Hclones : forall update,
             forallb writes_fresh (default [] update) = true ->
             exists q h1, Params.clone p update h = Ok (q, h1)
                          /\ wf h1 /\ no_pending_append h1).
  { intros update Hu.
    destruct (clone_spec h p op update Hwf Hop) as (Hclone & Hwf1 & _).
    eexists _, _. split; [exact Hclone|]. split; [done|].
    by apply clone_keeps_no_pending_append. }
  split; [|split; [|split]]; [|intros k v; by apply Hclones|intros k; by apply Hclones
                              |by apply Hclones].
  destruct (reads_spec h p op Hwf Hop) as (hp & _ & _ & _ & _ & Hsnap & _).
  destruct (reads_settle h r o Hwf Ho)
    as (h' & m' & Ho' & Hok' & Hview & Hwf' & Hlen & Hinit & _ & Hstr & _).
  destruct (keeps_init_fuel (length (arrs h)) (S (length (objs h))) r h tt h' Hs
              (le_n _) Hinit) as (Hs' & _ & Harr & _).
  exists (logical h op), (serialize (encoder o) (logical h o)), h'.
  split; [by eapply run_ok|]. split; [done|]. split; [done|]. split; [done|].
  destruct (decide (p = r)) as [->|Hne].
  - rewrite Ho in Hop. injection Hop as <-. rewrite <- Hview.
    eapply run_ok. by apply (snapshot_settled h' r (settled o m') m').
  - destruct (init_frame h h' r o Hwf Ho Hinit p op Hop (or_introl Hne))
      as (op' & Hop' & Hshape).
    destruct (reads_spec h' p op' Hwf' Hop') as (h2 & _ & _ & _ & _ & Hsnap' & _).
    rewrite (run_ok _ _ _ _ Hsnap'). f_equal.
    apply (logical_frame h h' op op' Hwf (wf_lookup h p op Hwf Hop) Hshape Harr).
    intros src os Hc Hos.
    apply (init_frame h h' r o Hwf Ho Hinit src os Hos).
    destruct (decide (src = r)) as [->|Hsr]; [|by left].
    right. pose proof (wf_lookup h p op Hwf Hop) as [_ Hclone].
    rewrite Hc in Hclone. destruct Hclone as (_ & _ & Hsrc).
    rewrite Ho in Hsrc. exact Hsrc.
Qed.

(** The statement above at a store with a container parsed from [a=1]
    (at 0) and a pending clone that sets [a] to [2] (at 1): after the
    clone is read, the source reads as before. *)
Lemma reads_without_pending_appends_disturb_no_container_witness :
  let h := match (p ← Params.new_HttpParams (fromString_only "a=1");
                  Params.set p "a" (PStr "2")) empty_heap with
           | Ok (_, h) => h
           | Throw _ => empty_heap
           end in
  exists am t h',
    run (Mapping.snapshot 0) h = Ok am
    /\ Params.toString 1 h = Ok (t, h')
    /\ wf h' /\ no_pending_append h'
    /\ run (Mapping.snapshot 0) h' = Ok am.
Proof.
  intros h.
  destruct (reads_without_pending_appends_disturb_no_container h 1 0) as [H _].
  - apply (bool_decide_unpack _). vm_compute. exact I.
  - apply (bool_decide_unpack _). vm_compute. exact I.
  - vm_compute. lia.
  - vm_compute. lia.
  - exact H.
Defined.

(** ** The parameter container: parsing what was written piece by piece *)

Section ParseWritten.

Implicit Types (e : string * option string) (l : list (string * option string)).

Lemma std_first_any x rest :
  first_is "?" x = false -> first_is "?" rest = false ->
  first_is "?" (standardEncoding x +:+ rest) = false.
Proof.
  destruct x as [|c x]; [by rewrite std_nil, append_nil_l|].
  change (first_is "?" (String c x)) with (Ascii.eqb "?" c).
  intros Hc _. apply Ascii.eqb_neq in Hc.
  destruct (octet_fact c) as (_ & _ & _ & _ & _ & _ & _ & _ & Hq & Hne).
  rewrite std_cons, append_assoc_s, first_is_app by done. apply Hq. congruence.
Qed.

Lemma written_piece_shape e :
  exists tail, written_piece e = standardEncoding e.1 +:+ tail
               /\ first_is "?" tail = false.
Proof.
  unfold written_piece. destruct e.2 as [v|].
  - by exists ("=" +:+ standardEncoding v).
  - exists EmptyString. by rewrite append_nil_r_s.
Qed.

Lemma written_first e l :
  first_is "?" e.1 = false ->
  first_is "?" (join "&" (written_piece <$> e :: l)) = false.
Proof.
  intros Hk. rewrite fmap_cons.
  destruct (written_piece_shape e) as (tail & -> & Htail).
  destruct l as [|e' l].
  - by apply std_first_any.
  - rewrite fmap_cons, join_cons2, append_assoc_s. apply std_first_any; [done|].
    destruct tail; [done|]. by rewrite append_cons.
Qed.

Lemma written_piece_no_amp e : no_char "&" (written_piece e) = true.
Proof.
  unfold written_piece. destruct e.2 as [v|]; [|apply std_no_amp].
  change ("=" +:+ standardEncoding v) with (String "=" (standardEncoding v)).
  by rewrite no_char_app, no_char_cons, !std_no_amp.
Qed.

Lemma decode_written_piece e :
  writable e = true ->
  Params.decode_pair HttpUrlEncodingCodec (written_piece e)
  = Ok (e.1, default EmptyString e.2).
Proof.
  unfold writable, written_piece. destruct e as [k [v|]]; simpl.
  - intros [[Hk Heq]%andb_true_iff Hv]%andb_true_iff.
    apply (decode_piece k v Hk Heq Hv).
  - intros [[Hk Heq]%andb_true_iff _]%andb_true_iff.
    unfold Params.decode_pair.
    rewrite (indexOf_no_char _ _ (std_no_eq k Heq)).
    change (decodeKey HttpUrlEncodingCodec) with decodeURIComponent.
    by rewrite decode_encode.
Qed.

Lemma parse_written_pieces l acc :
  forallb writable l = true ->
  parse_pieces HttpUrlEncodingCodec (written_piece <$> l) acc
  = Ok (fold_left (fun acc e => add_value e.1 (PStr (default EmptyString e.2)) acc) l acc).
Proof.
  revert acc. induction l as [|e l IH]; intros acc; [done|].
  simpl. intros [He Hl]%andb_true_iff.
  rewrite (decode_written_piece e He). by apply IH.
Qed.

End ParseWritten.

(** A query string written piece by piece with the default codec
    ([key=value], or [key] alone, joined by [&]) parses, when no key
    contains [=] and the first key does not start with [?], to its pairs
    grouped by key: the keys in the order of their first piece, the
    values of a key in the order of its pieces, and the empty string for
    a piece without [=]. *)
Theorem a_written_query_string_parses_to_its_pairs :
  forall (h : heap) (l : list (string * option string)),
    wf h ->
    forallb writable l = true ->
    match l with
    | e :: _ => first_is "?" e.1 = false
    | [] => False
    end ->
    join "&" (written_piece <$> l) <> EmptyString ->
    run (p ← Params.new_HttpParams (fromString_only (join "&" (written_piece <$> l)));
         Mapping.snapshot p) h
    = Ok (fold_left (fun acc e => add_value e.1 (PStr (default EmptyString e.2)) acc) l []).
Proof.
  intros h l Hwf Hl Hfirst Hne.
  destruct l as [|e l]; [done|].
  set (s := join "&" (written_piece <$> e :: l)) in *.
  assert (Hc : constructed h (fromString_only s)
               = Ok (fold_left (fun acc e => add_value e.1 (PStr (default EmptyString e.2)) acc)
                               (e :: l) [])).
  { rewrite constructed_fromString.
    apply String.eqb_neq in Hne. rewrite Hne. simpl negb. cbv iota.
    unfold parse.
    assert (Hlen : (0 <? String.length s)%nat = true).
    { apply String.eqb_neq in Hne. by destruct s. }
    rewrite Hlen, (strip_not_first s (written_first e l Hfirst)).
    unfold s. change "&"%string with (String "&"%char EmptyString).
    rewrite split_join.
    - by apply parse_written_pieces.
    - done.
    - rewrite Forall_fmap. apply Forall_forall. intros x _. apply written_piece_no_amp. }
  by destruct (construct_and_read h (fromString_only s) _ Hwf (object_ok_nil h) Hc)
    as (Hsnap & _).
Qed.

Lemma a_written_query_string_parses_to_its_pairs_witness :
  let l := [("b", Some "1"); ("a", None); ("b", Some "x&y"); ("a", Some "")] in
  join "&" (written_piece <$> l) = "b=1&a&b=x%26y&a="
  /\ run (p ← Params.new_HttpParams (fromString_only "b=1&a&b=x%26y&a=");
          Mapping.snapshot p) empty_heap
     = Ok [("b", [PStr "1"; PStr "x&y"]); ("a", [PStr ""; PStr ""])].
Proof.
  intros l. split; [vm_compute; reflexivity|].
  apply (a_written_query_string_parses_to_its_pairs empty_heap l).
  - exact wf_empty.
  - vm_compute. reflexivity.
  - reflexivity.
  - vm_compute. discriminate.
Defined.

(** ** The request API: the observe option, and the content type *)

(** [request] throws, at the call, exactly when the observe option is a
    non-empty string other than [body], [events] and [response]; an
    absent or empty option counts as [body]. *)
Theorem request_rejects_an_unknown_observe_mode :
  forall (W : Type) (this : Client.HttpClient W) (req : HttpRequest) (observe : option string),
    let observeType := if Params.truthy_string observe
                       then default EmptyString observe else "body" in
    if bool_decide (observeType ∈ ["body"; "events"; "response"])
    then exists obs, Client.request W this req observe = Ok obs
    else Client.request W this req observe
         = Throw (Error ("Unreachable: unhandled observe type " +:+ observeType +:+ "}")).
Proof.
  intros W this req observe observeType.
  unfold Client.request. fold observeType.
  replace (if Params.truthy_string observe then default "body" observe else "body")
    with observeType by (unfold observeType; by destruct observe).
  destruct (String.eqb_spec observeType "events") as [->|He].
  { rewrite bool_decide_eq_true_2; [by eexists|]. right. left. }
  destruct (String.eqb_spec observeType "body") as [->|Hb].
  { rewrite bool_decide_eq_true_2; [by eexists|]. left. }
  destruct (String.eqb_spec observeType "response") as [->|Hr].
  { rewrite bool_decide_eq_true_2; [by eexists|]. right. right. left. }
  rewrite bool_decide_eq_false_2; [done|].
  intros Hin. repeat (apply elem_of_cons in Hin as [Hin|Hin]; [done|]).
  by apply elem_of_nil in Hin.
Qed.

(** What [serializeBody()] sends and what [detectContentTypeHeader()]
    says of it.  A body sent as it is has no content type, or the type
    of the Blob it is, or [text/plain] when it is a string; only a
    [URLSearchParams] body is sent as it is under [application/json].
    A body sent as a text made from it has [application/json], or the
    form content type when it is a container. *)
Theorem content_type_of_what_is_sent :
  forall (h h' : heap) (req : HttpRequest) (ser : RequestMethods.serialized),
    RequestMethods.serializeBody req h = Ok (ser, h') ->
    match ser with
    | RequestMethods.SerNull =>
        body req = BNull /\ RequestMethods.detectContentTypeHeader req = None
    | RequestMethods.SerSame b =>
        b = body req
        /\ match b with
           | BString _ => RequestMethods.detectContentTypeHeader req = Some "text/plain"
           | BBlob type =>
               RequestMethods.detectContentTypeHeader req
               = (if String.eqb type EmptyString then None else Some type)
           | BURLSearchParams =>
               RequestMethods.detectContentTypeHeader req = Some "application/json"
           | _ => RequestMethods.detectContentTypeHeader req = None
           end
    | RequestMethods.SerText _ =>
        RequestMethods.detectContentTypeHeader req
        = (if RequestMethods.isHttpParams (body req)
           then Some "application/x-www-form-urlencoded;charset=UTF-8"
           else Some "application/json")
    | RequestMethods.SerJSON =>
        RequestMethods.detectContentTypeHeader req = Some "application/json"
    end.
Proof.
  intros h h' req ser.
  unfold RequestMethods.serializeBody, RequestMethods.detectContentTypeHeader.
  destruct (body req) as [| |l|ty| | |s|p|n|b| |] eqn:Hb; simpl;
    try (by intros [= <- <-]).
  - unfold mbind, M_bind, bind. destruct (Params.toString p h) as [[t h1]|]; [|done].
    by intros [= <- <-].
  - destruct b; by intros [= <- <-].
Qed.

Lemma content_type_of_what_is_sent_witness :
  let req := {| body := BURLSearchParams; params := 0; reportProgress := false;
                withCredentials := false; method := POST; url := None;
                urlWithParams := Some "/x"; responseType := json |} in
  RequestMethods.serializeBody req empty_heap
  = Ok (RequestMethods.SerSame BURLSearchParams, empty_heap)
  /\ RequestMethods.detectContentTypeHeader req = Some "application/json".
Proof.
  intros req. split; [reflexivity|].
  apply (content_type_of_what_is_sent empty_heap empty_heap req
           (RequestMethods.SerSame BURLSearchParams) eq_refl).
Defined.

(** ** The request API: one dispatch per subscription *)

(** The stream [request] returns dispatches at every subscription.  The
    first subscription on a client whose assembler has no chain resolves
    the entries in registration order (an instance as it is, a function
    by calling it once), builds the right fold over them and the client's
    adapter and caches it; the next subscription sends the request
    through the cached chain without resolving the entries again.  A client without
    an assembler hands the request to its adapter, at every
    subscription. *)
Theorem every_subscription_dispatches_again :
  forall (W : Type) (this : Client.HttpClient W) (req : HttpRequest)
         (entries : list (InterceptorLike W)) (w : W),
    exists oe,
      Client.request W this req (Some "events") = Ok oe
      /\ (exists resolved w0,
            resolved_in_order entries w resolved w0
            /\ let c := wraps resolved (Client.adapter W this) in
               let built := Some {| chain := Some c; interceptorList := entries |} in
               let '(o1, w1) := c req w0 in
               let '(t1, w2) := o1 w1 in
               oe {| Client.interceptors := Some {| chain := None; interceptorList := entries |};
                     Client.world := w |}
               = ({| items := inl <$> items t1; fin := fin t1 |},
                  {| Client.interceptors := built; Client.world := w2 |})
               /\ forall w' : W,
                    let '(o2, w3) := c req w' in
                    let '(t2, w4) := o2 w3 in
                    oe {| Client.interceptors := built; Client.world := w' |}
                    = ({| items := inl <$> items t2; fin := fin t2 |},
                       {| Client.interceptors := built; Client.world := w4 |}))
      /\ (let '(o, w1) := Client.adapter W this req w in
          let '(t, w2) := o w1 in
          oe {| Client.interceptors := None; Client.world := w |}
          = ({| items := inl <$> items t; fin := fin t |},
             {| Client.interceptors := None; Client.world := w2 |})).
Proof.
  intros W this req entries w.
  eexists. split; [reflexivity|].
  unfold pipe, defer, Client.dispatch, map_op. simpl.
  split.
  - destruct (handle_unbuilt_resolved {| chain := None; interceptorList := entries |}
                (Client.adapter W this) req w eq_refl)
      as (resolved & w0 & Hres & Hfirst).
    exists resolved, w0. split; [exact Hres|].
    simpl in Hfirst. rewrite Hfirst. clear Hfirst.
    destruct (wraps resolved (Client.adapter W this) req w0) as [o1 w1] eqn:E1.
    unfold Client.on_world. simpl.
    destruct (o1 w1) as [t1 w2] eqn:E2. rewrite map_items_total.
    split; [done|].
    intros w'.
    rewrite (handle_built {| chain := Some (wraps resolved (Client.adapter W this));
                             interceptorList := entries |}
               (Client.adapter W this) _ req w' eq_refl).
    destruct (wraps resolved (Client.adapter W this) req w') as [o2 w3].
    simpl. destruct (o2 w3) as [t2 w4]. by rewrite map_items_total.
  - destruct (Client.adapter W this req w) as [o w1].
    unfold Client.on_world. simpl. destruct (o w1) as [t w2].
    by rewrite map_items_total.
Qed.
